(** * paragraph_threads.c: round-robin printing of a paragraph by a ring of
      semaphore-gated threads

    The repository holds two revisions of [paragraph_threads.c].  They share
    [split_paragraph_into_words], the semaphore ring ([init_semaphores],
    [destroy_semaphores], [reset_semaphores]), the worker body
    [print_thread] (up to sleeps and the line-break policy of [printf]) and
    [main]; they differ in how [print_paragraph] hands words to threads:

    - the first revision gives thread [i] the words at positions
      [i, i + NUM_THREADS, i + 2 * NUM_THREADS, ...]   (module [Strided]);
    - the second revision gives thread [i] the next
      [total_words / NUM_THREADS (+ 1)] consecutive words (module [Blocked]).

    Embedding.  C [int] counters are word positions and word counts, all
    bounded by [total_words + NUM_THREADS], which is taken to fit an [int];
    they are modelled in [nat].  [char *] words are [string]s.  A [sem_t]
    is either not initialised or carries its count.  The macro
    [NUM_THREADS] is a parameter of the definitions, set to 5 for the
    program itself.  Threads are modelled by an interleaving transition
    system whose atomic steps are the loop test, [sem_wait], [printf] and
    [sem_post] of [print_thread], and the [pthread_create] /
    [pthread_join] calls of [print_paragraph]; sleeps take no step.
    Fallible library calls ([malloc], [strdup], [sem_init],
    [pthread_create]) take their outcome from the environment.  Left out:
    the text of the output lines beyond thread and word, the banner lines
    of [main] and [srand].  The release of memory is followed in a model
    of its own (module [Heap]). *)

From Stdlib Require Import Arith Lia List Ascii.
From stdpp Require Import base list strings gmap.

Open Scope nat_scope.

(** ** The paragraph and its words *)

(** [#define NUM_THREADS 5] *)
Definition NUM_THREADS : nat := 5.

Definition paragraph : string :=
  "Computer science is the study of computation, automation, and information. " +:+
  "Computer science spans theoretical disciplines to practical disciplines. " +:+
  "Computer science is generally considered an area of academic research and " +:+
  "distinct from computer programming.".

Definition is_space (c : Ascii.ascii) : bool := Ascii.eqb c " "%char.

(** The counting loop of [split_paragraph_into_words]:
    [for (i = 0; paragraph[i] != 0; i++) if (paragraph[i] == ' ') spaces++]. *)
Fixpoint count_spaces (s : string) (spaces : nat) : nat :=
  match s with
  | EmptyString => spaces
  | String c rest => count_spaces rest (if is_space c then S spaces else spaces)
  end.

(** Successive results of [strtok(copy, " ")], [strtok(NULL, " ")], ...:
    runs of delimiters are skipped, every maximal run of other characters
    is one token.  [cur] is the token being scanned, if any. *)
Fixpoint strtok_all (cur : option string) (s : string) : list string :=
  match s with
  | EmptyString => match cur with Some t => [t] | None => [] end
  | String c rest =>
      if is_space c then
        match cur with
        | Some t => t :: strtok_all None rest
        | None => strtok_all None rest
        end
      else
        strtok_all (Some (match cur with
                          | Some t => t +:+ String c EmptyString
                          | None => String c EmptyString
                          end)) rest
  end.

(** ** The thread argument block and the semaphores *)

(** [thread_data_t].  The two [sem_t *] fields always point into the global
    array [semaphores]; they are kept as indices into it. *)
Record thread_data_t := mk_thread_data {
  thread_id : nat;
  words : list string;
  word_count : nat;
  sem_wait : nat;
  sem_signal : nat;
  is_chaos_mode : bool
}.

(** A [sem_t]: storage that [sem_init] has not (or no longer) set up, or a
    live semaphore with its count. *)
Inductive sem_t :=
| SemUninit
| Sem (value : nat).

Definition sem_init (value : nat) : sem_t := Sem value.
Definition sem_destroy (s : sem_t) : sem_t := SemUninit.

(** The ring as [init_semaphores] leaves it: gate 0 holds 1, the others 0. *)
Definition ring_init (n : nat) : list sem_t :=
  (fun i => Sem (if i =? 0 then 1 else 0)) <$> seq 0 n.

(** A ring whose only unit is at gate [p]. *)
Definition token_at (n p : nat) : list sem_t :=
  (fun i => Sem (if i =? p then 1 else 0)) <$> seq 0 n.

(** The array right after program start (static storage). *)
Definition ring_fresh (n : nat) : list sem_t := replicate n SemUninit.

(** ** Worker threads and the orchestrator as a transition system *)

(** Control points of [print_thread]: the loop test, the guarded
    [sem_wait], the delay and [printf], the guarded [sem_post] (followed by
    [i++]), and [return NULL]. *)
Inductive loc := Lhead | Lwait | Lprint | Lpost | Lret.

(** A created thread: its argument block, its loop counter [i], its
    control point. *)
Record thread := mk_thread {
  t_data : thread_data_t;
  t_i : nat;
  t_pc : loc
}.

(** What an observer of the semaphores and of standard output sees. *)
Inductive event :=
| EvWait (tid sem : nat)
| EvPrint (tid : nat) (w : string)
| EvPost (tid sem : nat).

(** The global array [semaphores], the threads created so far (in creation
    order, so thread [i] is at index [i]), the number of threads
    [print_paragraph] has joined, and the events so far. *)
Record state := mk_state {
  semaphores : list sem_t;
  threads : list thread;
  joined : nat;
  trace : list event
}.

(** One atomic step of [print_thread]: at [Lhead] the test
    [i < data->word_count]; at [Lwait] [sem_wait(data->sem_wait)] unless in
    chaos mode; at [Lprint] the delay and the [printf] of [data->words[i]];
    at [Lpost] [sem_post(data->sem_signal)] unless in chaos mode, then
    [i++].  [None] when the thread is blocked in [sem_wait], has returned,
    or would touch memory it must not. *)
Definition print_thread (sems : list sem_t) (th : thread)
  : option (list sem_t * thread * list event) :=
  let data := t_data th in
  let i := t_i th in
  match t_pc th with
  | Lhead =>
      if i <? word_count data
      then Some (sems, mk_thread data i Lwait, [])
      else Some (sems, mk_thread data i Lret, [])
  | Lwait =>
      if is_chaos_mode data then Some (sems, mk_thread data i Lprint, [])
      else
        match sems !! sem_wait data with
        | Some (Sem (S n)) =>
            Some (<[sem_wait data := Sem n]> sems, mk_thread data i Lprint,
                  [EvWait (thread_id data) (sem_wait data)])
        | _ => None
        end
  | Lprint =>
      match words data !! i with
      | Some w => Some (sems, mk_thread data i Lpost, [EvPrint (thread_id data) w])
      | None => None
      end
  | Lpost =>
      if is_chaos_mode data then Some (sems, mk_thread data (S i) Lhead, [])
      else
        match sems !! sem_signal data with
        | Some (Sem n) =>
            Some (<[sem_signal data := Sem (S n)]> sems, mk_thread data (S i) Lhead,
                  [EvPost (thread_id data) (sem_signal data)])
        | _ => None
        end
  | Lret => None
  end.

Inductive actor := Main | Worker (t : nat).

Definition is_ret (l : loc) : bool :=
  match l with Lret => true | _ => false end.

(** One atomic step of the orchestrator [print_paragraph] over the filled
    argument blocks [td]: [pthread_create] of the next thread while there
    is one, then [pthread_join] of the threads in order, which blocks until
    the thread has returned. *)
Definition print_paragraph_step (td : list thread_data_t) (s : state) : option state :=
  match td !! length (threads s) with
  | Some data =>
      Some (mk_state (semaphores s) (threads s ++ [mk_thread data 0 Lhead])
                     (joined s) (trace s))
  | None =>
      if joined s <? length td then
        match threads s !! joined s with
        | Some th =>
            if is_ret (t_pc th)
            then Some (mk_state (semaphores s) (threads s) (S (joined s)) (trace s))
            else None
        | None => None
        end
      else None
  end.

Definition step (td : list thread_data_t) (a : actor) (s : state) : option state :=
  match a with
  | Main => print_paragraph_step td s
  | Worker t =>
      match threads s !! t with
      | Some th =>
          match print_thread (semaphores s) th with
          | Some (sems, th', evs) =>
              Some (mk_state sems (<[t := th']> (threads s)) (joined s) (trace s ++ evs))
          | None => None
          end
      | None => None
      end
  end.

(** The state in which [print_paragraph] is entered. *)
Definition start (sems : list sem_t) : state := mk_state sems [] 0 [].

(** [print_paragraph] has returned: every thread is joined. *)
Definition completed (td : list thread_data_t) (s : state) : Prop :=
  joined s = length td.

(** [steps td n s s']: some interleaving leads from [s] to [s'] in [n]
    atomic steps. *)
Inductive steps (td : list thread_data_t) : nat -> state -> state -> Prop :=
| steps_refl s : steps td 0 s s
| steps_snoc n s s' s'' a :
    steps td n s s' -> step td a s' = Some s'' -> steps td (S n) s s''.

Definition reachable (td : list thread_data_t) (sems : list sem_t) (s : state) : Prop :=
  exists n, steps td n (start sems) s.

(** A scheduler-driven execution: at each step the scheduler picks one of
    the actors that can move; the execution stops when none can. *)
Definition actors (td : list thread_data_t) : list actor :=
  Main :: (Worker <$> seq 0 (length td)).

Definition can_step (td : list thread_data_t) (s : state) (a : actor) : bool :=
  match step td a s with Some _ => true | None => false end.

Fixpoint run (td : list thread_data_t) (sched : nat -> nat) (fuel k : nat) (s : state)
  : state :=
  match fuel with
  | 0 => s
  | S fuel' =>
      let en := filter (fun a => can_step td s a = true) (actors td) in
      match en !! (sched k mod length en) with
      | Some a =>
          match step td a s with
          | Some s' => run td sched fuel' (S k) s'
          | None => s
          end
      | None => s
      end
  end.

(** Steps left until every thread has returned and has been joined. *)
Definition thread_measure (th : thread) : nat :=
  let rest := 4 * (word_count (t_data th) - t_i th) in
  match t_pc th with
  | Lhead => rest + 1
  | Lwait => rest
  | Lprint => rest - 1
  | Lpost => rest - 2
  | Lret => 0
  end.

Definition data_measure (data : thread_data_t) : nat := 4 * word_count data + 2.

Definition measure (td : list thread_data_t) (s : state) : nat :=
  sum_list_with thread_measure (threads s)
  + sum_list_with data_measure (drop (length (threads s)) td)
  + (length td - joined s).

(** ** Observations on traces *)

Definition event_tid (e : event) : nat :=
  match e with EvWait t _ | EvPrint t _ | EvPost t _ => t end.

(** The output lines, as (thread id, word), in the order they are printed. *)
Definition emits (tr : list event) : list (nat * string) :=
  omap (fun e => match e with EvPrint t w => Some (t, w) | _ => None end) tr.

(** The events of one thread. *)
Definition events_of (t : nat) (tr : list event) : list event :=
  filter (fun e => event_tid e = t) tr.

Definition is_gate_op (e : event) : bool :=
  match e with EvPrint _ _ => false | _ => true end.

(** What one pass of the loop body of [print_thread] contributes for item
    [j], and what a whole thread contributes for its share. *)
Definition item_events (data : thread_data_t) (w : string) : list event :=
  (if is_chaos_mode data then [] else [EvWait (thread_id data) (sem_wait data)])
  ++ [EvPrint (thread_id data) w]
  ++ (if is_chaos_mode data then [] else [EvPost (thread_id data) (sem_signal data)]).

Definition share_events (data : thread_data_t) : list event :=
  flat_map (item_events data) (words data).

(** A thread is in its critical section from the return of [sem_wait] to
    the call of [sem_post]. *)
Definition in_critical (th : thread) : bool :=
  match t_pc th with Lprint | Lpost => true | _ => false end.

(** ** The rotation of the specification *)

(** [0,1,...,n-1,0,1,...] cut after [k] entries. *)
Definition rotation (n k : nat) : list nat := (fun j => j mod n) <$> seq 0 k.

(** The same rotation in which a worker drops out once its share of
    [sizes !!! t] items is used up: round [r] lists the workers that still
    have an item number [r]. *)
Definition rotation_round (sizes : list nat) (r : nat) : list nat :=
  filter (fun t => r < sizes !!! t) (seq 0 (length sizes)).

Definition rotation_skipping (sizes : list nat) : list nat :=
  flat_map (rotation_round sizes) (seq 0 (max_list sizes)).

(** The item emitted at global step [k] when the rotation is strict: item
    [k / n] of the share of worker [k mod n]. *)
Definition rotation_item (td : list thread_data_t) (k : nat) : option (nat * string) :=
  match td !! (k mod length td) with
  | Some data =>
      match words data !! (k / length td) with
      | Some w => Some (k mod length td, w)
      | None => None
      end
  | None => None
  end.

(** ** The process: library calls that can fail, diagnostics, exit status *)

(** The environment decides the outcome of the [k]-th fallible library call
    ([malloc], [strdup], [sem_init], [pthread_create]) and, for each of the
    two runs, which runnable thread moves next. *)
Record world := mk_world {
  w_oracle : nat -> bool;
  w_sched : bool -> nat -> nat;
  w_calls : nat;
  w_stderr : list string;
  w_trace : list event;
  w_semaphores : list sem_t;
  w_all_words : list string;
  w_total_words : nat
}.

(** How a procedure ends: it returns, the process exits with a status, or
    the process never gets to an exit status (a [pthread_join] that never
    returns, or behaviour the C standard leaves undefined). *)
Inductive outcome (A : Type) :=
| Ret (a : A) (w : world)
| Exit (status : Z) (w : world)
| NoExit (w : world).
Arguments Ret {A} a w.
Arguments Exit {A} status w.
Arguments NoExit {A} w.

Definition proc (A : Type) : Type := world -> outcome A.

Definition ret {A} (a : A) : proc A := fun w => Ret a w.

Definition bind {A B} (c : proc A) (k : A -> proc B) : proc B :=
  fun w =>
    match c w with
    | Ret a w' => k a w'
    | Exit st w' => Exit st w'
    | NoExit w' => NoExit w'
    end.

Notation "'do' x <- c ; k" := (bind c (fun x => k))
  (at level 10, x name, c at level 100, k at level 200).
Notation "c ;;; k" := (bind c (fun _ => k))
  (at level 100, k at level 200, right associativity).

Definition EXIT_FAILURE : Z := 1%Z.

Definition exit {A} (status : Z) : proc A := fun w => Exit status w.

Definition perror (msg : string) : proc unit :=
  fun w => Ret tt (mk_world (w_oracle w) (w_sched w) (w_calls w) (w_stderr w ++ [msg])
                            (w_trace w) (w_semaphores w) (w_all_words w) (w_total_words w)).

(** A fallible library call: [true] when it succeeds. *)
Definition lib_call : proc bool :=
  fun w => Ret (w_oracle w (w_calls w))
               (mk_world (w_oracle w) (w_sched w) (S (w_calls w)) (w_stderr w)
                         (w_trace w) (w_semaphores w) (w_all_words w) (w_total_words w)).

Definition set_semaphores (sems : list sem_t) : proc unit :=
  fun w => Ret tt (mk_world (w_oracle w) (w_sched w) (w_calls w) (w_stderr w)
                            (w_trace w) sems (w_all_words w) (w_total_words w)).

Definition set_words (ws : list string) (total : nat) : proc unit :=
  fun w => Ret tt (mk_world (w_oracle w) (w_sched w) (w_calls w) (w_stderr w)
                            (w_trace w) (w_semaphores w) ws total).

Definition add_trace (tr : list event) : proc unit :=
  fun w => Ret tt (mk_world (w_oracle w) (w_sched w) (w_calls w) (w_stderr w)
                            (w_trace w ++ tr) (w_semaphores w) (w_all_words w)
                            (w_total_words w)).

(** [lib_call], and on failure [perror(msg); exit(EXIT_FAILURE)]. *)
Definition checked (msg : string) : proc unit :=
  do ok <- lib_call ;
  if ok : bool then ret tt else (perror msg ;;; exit EXIT_FAILURE).

Fixpoint for_each {A} (l : list A) (body : A -> proc unit) : proc unit :=
  match l with
  | [] => ret tt
  | x :: l' => body x ;;; for_each l' body
  end.

(** The tokenising loop of [split_paragraph_into_words]:
    [while (token != NULL && word_idx < total_words)], each word being
    copied by [strdup] into the next free slot of [all_words]. *)
Fixpoint token_loop (tokens : list string) : proc unit :=
  match tokens with
  | [] => ret tt
  | token :: tokens' =>
      fun w =>
        if length (w_all_words w) <? w_total_words w then
          (checked "strdup failed" ;;;
           set_words (w_all_words w ++ [token]) (w_total_words w) ;;;
           token_loop tokens') w
        else Ret tt w
  end.

Definition split_paragraph_into_words : proc nat :=
  let total := count_spaces paragraph 0 + 1 in
  set_words [] total ;;;
  checked "malloc failed" ;;;
  checked "strdup failed" ;;;
  token_loop (strtok_all None paragraph) ;;;
  ret total.

Definition free_words : proc unit := fun w => set_words [] (w_total_words w) w.

Section Ring.
Variable NUM_THREADS : nat.

Definition init_semaphores : proc unit :=
  for_each (seq 0 NUM_THREADS) (fun i =>
    do ok <- lib_call ;
    if ok : bool
    then (fun w => set_semaphores
                     (<[i := sem_init (if i =? 0 then 1 else 0)]> (w_semaphores w)) w)
    else (perror "sem_init failed" ;;; exit EXIT_FAILURE)).

Definition destroy_semaphores : proc unit :=
  for_each (seq 0 NUM_THREADS) (fun i =>
    fun w => set_semaphores (alter sem_destroy i (w_semaphores w)) w).

Definition reset_semaphores : proc unit :=
  destroy_semaphores ;;; init_semaphores.

(** The part of [print_paragraph] after the argument blocks [td] are
    computed: per thread the checked [malloc] of its [words] and the
    checked [pthread_create]; then the threads run, interleaved as the
    scheduler decides, until [print_paragraph] has joined them all. *)
Definition run_threads (mode : bool) (td : list thread_data_t) : proc unit :=
  for_each td (fun _ =>
    checked "malloc failed" ;;; checked "pthread_create failed") ;;;
  fun w =>
    let s0 := start (w_semaphores w) in
    let s := run td (w_sched w mode) (measure td s0) 0 s0 in
    if joined s =? length td
    then (set_semaphores (semaphores s) ;;; add_trace (trace s)) w
    else NoExit w.
End Ring.

(** The program starts with no diagnostics, no output, the semaphore array
    in static storage and [all_words == NULL]. *)
Definition boot (oracle : nat -> bool) (sched : bool -> nat -> nat) : world :=
  mk_world oracle sched 0 [] [] (ring_fresh NUM_THREADS) [] 0.

Definition exit_status (o : outcome Z) : option Z :=
  match o with
  | Ret a _ => Some a
  | Exit st _ => Some st
  | NoExit _ => None
  end.

Definition final_world {A} (o : outcome A) : world :=
  match o with Ret _ w | Exit _ w | NoExit w => w end.

(** ** Work partitioning, first revision: strided *)

Module Strided.
Section Partition.
Variable NUM_THREADS : nat.

Section Words.
Variable all_words : list string.

Definition total_words : nat := length all_words.

(** [for (j = i; j < total_words; j += NUM_THREADS) count++;]
    [None] when the fuel runs out before the loop exits. *)
Fixpoint count_loop (fuel j count : nat) : option nat :=
  if j <? total_words then
    match fuel with
    | 0 => None
    | S fuel' => count_loop fuel' (j + NUM_THREADS) (S count)
    end
  else Some count.

(** [for (j = i; j < total_words; j += NUM_THREADS)
       words[word_pos++] = all_words[j];]
    [ws] is the part of [words] filled so far; [None] on an
    out-of-bounds read or when the fuel runs out. *)
Fixpoint assign_loop (fuel j : nat) (ws : list string) : option (list string) :=
  if j <? total_words then
    match fuel with
    | 0 => None
    | S fuel' =>
        match all_words !! j with
        | Some w => assign_loop fuel' (j + NUM_THREADS) (ws ++ [w])
        | None => None
        end
    end
  else Some ws.

(** The body of the creation loop of [print_paragraph] for thread [i],
    up to the call of [pthread_create]. *)
Definition thread_data_at (mode : bool) (i : nat) : option thread_data_t :=
  match count_loop total_words i 0 with
  | Some count =>
      match assign_loop total_words i [] with
      | Some ws =>
          Some {| thread_id := i; words := ws; word_count := count;
                  sem_wait := i; sem_signal := (i + 1) mod NUM_THREADS;
                  is_chaos_mode := mode |}
      | None => None
      end
  | None => None
  end.

(** The array [thread_data] once the creation loop has run. *)
Definition thread_data (mode : bool) : option (list thread_data_t) :=
  mapM (thread_data_at mode) (seq 0 NUM_THREADS).
End Words.

(** [print_paragraph(mode)]: the words must all be initialised, i.e.
    [all_words] holds [total_words] entries. *)
Definition print_paragraph (mode : bool) : proc unit :=
  fun w =>
    if length (w_all_words w) =? w_total_words w then
      match thread_data (w_all_words w) mode with
      | Some td => run_threads mode td w
      | None => NoExit w
      end
    else NoExit w.

Definition main : proc Z :=
  split_paragraph_into_words ;;;
  init_semaphores NUM_THREADS ;;;
  print_paragraph false ;;;
  reset_semaphores NUM_THREADS ;;;
  print_paragraph true ;;;
  destroy_semaphores NUM_THREADS ;;;
  free_words ;;;
  ret 0%Z.
End Partition.
End Strided.

(** ** Work partitioning, second revision: consecutive blocks *)

Module Blocked.
Section Partition.
Variable NUM_THREADS : nat.

Section Words.
Variable all_words : list string.

Definition total_words : nat := length all_words.
Definition words_per_thread : nat := total_words / NUM_THREADS.
Definition extra_words : nat := total_words mod NUM_THREADS.

(** [for (j = 0; j < word_count; j++) words[j] = all_words[word_index++];]
    [n] is the number of iterations left.  Returns the filled [words]
    and the new [word_index]; [None] on an out-of-bounds read. *)
Fixpoint assign_loop (n word_index : nat) (ws : list string)
  : option (list string * nat) :=
  match n with
  | 0 => Some (ws, word_index)
  | S n' =>
      match all_words !! word_index with
      | Some w => assign_loop n' (S word_index) (ws ++ [w])
      | None => None
      end
  end.

(** The body of the creation loop for thread [i], threading
    [word_index]. *)
Definition thread_data_at (mode : bool) (i word_index : nat)
  : option (thread_data_t * nat) :=
  let count := words_per_thread + (if i <? extra_words then 1 else 0) in
  match assign_loop count word_index [] with
  | Some (ws, word_index') =>
      Some ({| thread_id := i; words := ws; word_count := count;
               sem_wait := i; sem_signal := (i + 1) mod NUM_THREADS;
               is_chaos_mode := mode |}, word_index')
  | None => None
  end.

(** [for (i = 0; i < NUM_THREADS; i++) ...]; [n] iterations left. *)
Fixpoint create_loop (mode : bool) (n i word_index : nat)
  : option (list thread_data_t) :=
  match n with
  | 0 => Some []
  | S n' =>
      match thread_data_at mode i word_index with
      | Some (d, word_index') =>
          match create_loop mode n' (S i) word_index' with
          | Some ds => Some (d :: ds)
          | None => None
          end
      | None => None
      end
  end.

Definition thread_data (mode : bool) : option (list thread_data_t) :=
  create_loop mode NUM_THREADS 0 0.
End Words.

(** [print_paragraph(mode)]: the words must all be initialised, i.e.
    [all_words] holds [total_words] entries. *)
Definition print_paragraph (mode : bool) : proc unit :=
  fun w =>
    if length (w_all_words w) =? w_total_words w then
      match thread_data (w_all_words w) mode with
      | Some td => run_threads mode td w
      | None => NoExit w
      end
    else NoExit w.

Definition main : proc Z :=
  split_paragraph_into_words ;;;
  init_semaphores NUM_THREADS ;;;
  print_paragraph false ;;;
  reset_semaphores NUM_THREADS ;;;
  print_paragraph true ;;;
  destroy_semaphores NUM_THREADS ;;;
  free_words ;;;
  ret 0%Z.
End Partition.
End Blocked.

(** ** The program for any paragraph *)

(** [split_paragraph_into_words] reads the global [paragraph]; here the
    text is a parameter. *)
Definition split_words_of (paragraph : string) : proc nat :=
  let total := count_spaces paragraph 0 + 1 in
  set_words [] total ;;;
  checked "malloc failed" ;;;
  checked "strdup failed" ;;;
  token_loop (strtok_all None paragraph) ;;;
  ret total.

(** [main] with the text, the number of threads and the revision of
    [print_paragraph] as parameters. *)
Definition main_with (paragraph : string) (NUM_THREADS : nat)
    (print_paragraph : bool -> proc unit) : proc Z :=
  split_words_of paragraph ;;;
  init_semaphores NUM_THREADS ;;;
  print_paragraph false ;;;
  reset_semaphores NUM_THREADS ;;;
  print_paragraph true ;;;
  destroy_semaphores NUM_THREADS ;;;
  free_words ;;;
  ret 0%Z.

(** The start of the program with [NUM_THREADS] semaphores in static
    storage. *)
Definition boot_with (NUM_THREADS : nat) (oracle : nat -> bool)
    (sched : bool -> nat -> nat) : world :=
  mk_world oracle sched 0 [] [] (ring_fresh NUM_THREADS) [] 0.

(** ** The delay of [print_thread] *)

Definition INT_MAX : Z := 2147483647%Z.

(** The argument of [usleep] in [print_thread],
    [(rand() % 91 + 10) * 1000], as a function of the value of [rand()];
    [%] on [int] truncates towards zero. *)
Definition delay_us (r : Z) : Z := ((Z.rem r 91 + 10) * 1000)%Z.

(** ** The heap: what [main] allocates and releases

    The model above leaves memory out.  Here the main thread is followed
    through its calls of [malloc], [strdup] and [free] (the worker
    threads allocate and release nothing).  A pointer is the address of
    a block, [malloc] and [strdup] hand out addresses never used before,
    and [free] of an address that is not a live block is a fault.  The
    fallible calls are numbered as above, so the same environment can
    drive both models.  That every [pthread_join] returns is shown for
    the transition system; here the joins take no step. *)

Module Heap.

Record mem := mk_mem {
  m_oracle : nat -> bool;
  m_calls : nat;
  m_stderr : list string;
  m_next : nat;
  m_live : gset nat;
  (** [all_words]: [NULL], or the address of the array with the entries
      written so far (the others are not initialised) *)
  m_all_words : option (nat * list nat);
  m_total_words : nat
}.

Inductive result (A : Type) :=
| Done (a : A) (m : mem)
| Exited (status : Z) (m : mem)
| Fault (m : mem).
Arguments Done {A} a m.
Arguments Exited {A} status m.
Arguments Fault {A} m.

Definition hproc (A : Type) : Type := mem -> result A.

Definition ret {A} (a : A) : hproc A := fun m => Done a m.

Definition bind {A B} (c : hproc A) (k : A -> hproc B) : hproc B :=
  fun m =>
    match c m with
    | Done a m' => k a m'
    | Exited st m' => Exited st m'
    | Fault m' => Fault m'
    end.

Declare Scope heap_scope.
Delimit Scope heap_scope with heap.
Notation "'do' x <- c ; k" := (bind c (fun x => k))
  (at level 10, x name, c at level 100, k at level 200) : heap_scope.
Notation "c ;;; k" := (bind c (fun _ => k))
  (at level 100, k at level 200, right associativity) : heap_scope.

Definition exit {A} (status : Z) : hproc A := fun m => Exited status m.

Definition fault {A} : hproc A := fun m => Fault m.

Definition perror (msg : string) : hproc unit :=
  fun m => Done tt (mk_mem (m_oracle m) (m_calls m) (m_stderr m ++ [msg]) (m_next m)
                           (m_live m) (m_all_words m) (m_total_words m)).

(** [malloc], and [strdup], which allocates its copy: [None] is [NULL]. *)
Definition malloc : hproc (option nat) :=
  fun m =>
    if m_oracle m (m_calls m)
    then Done (Some (m_next m))
              (mk_mem (m_oracle m) (S (m_calls m)) (m_stderr m) (S (m_next m))
                      ({[m_next m]} ∪ m_live m) (m_all_words m) (m_total_words m))
    else Done None
              (mk_mem (m_oracle m) (S (m_calls m)) (m_stderr m) (m_next m)
                      (m_live m) (m_all_words m) (m_total_words m)).

Definition strdup : hproc (option nat) := malloc.

Definition free (p : nat) : hproc unit :=
  fun m =>
    if decide (p ∈ m_live m)
    then Done tt (mk_mem (m_oracle m) (m_calls m) (m_stderr m) (m_next m)
                         (m_live m ∖ {[p]}) (m_all_words m) (m_total_words m))
    else Fault m.

(** A fallible call that allocates nothing ([sem_init],
    [pthread_create]), with its check. *)
Definition checked (msg : string) : hproc unit :=
  fun m =>
    let m' := mk_mem (m_oracle m) (S (m_calls m)) (m_stderr m) (m_next m)
                     (m_live m) (m_all_words m) (m_total_words m) in
    if m_oracle m (m_calls m) then Done tt m'
    else (perror msg ;;; exit EXIT_FAILURE)%heap m'.

Definition set_all_words (v : option (nat * list nat)) : hproc unit :=
  fun m => Done tt (mk_mem (m_oracle m) (m_calls m) (m_stderr m) (m_next m)
                           (m_live m) v (m_total_words m)).

Definition set_total_words (total : nat) : hproc unit :=
  fun m => Done tt (mk_mem (m_oracle m) (m_calls m) (m_stderr m) (m_next m)
                           (m_live m) (m_all_words m) total).

Fixpoint for_each {A} (l : list A) (body : A -> hproc unit) : hproc unit :=
  match l with
  | [] => ret tt
  | x :: l' => (body x ;;; for_each l' body)%heap
  end.

(** The tokenising loop of [split_paragraph_into_words]; [copy] is
    [paragraph_copy].  When a [strdup] fails the words copied so far,
    [all_words] and the copy are released before the exit. *)
Fixpoint token_loop (copy : nat) (tokens : list string) : hproc unit :=
  match tokens with
  | [] => ret tt
  | _ :: tokens' =>
      fun m =>
        match m_all_words m with
        | Some (a, entries) =>
            if length entries <? m_total_words m then
              (do q <- strdup ;
               match q with
               | None =>
                   perror "strdup failed" ;;;
                   for_each entries free ;;;
                   free a ;;;
                   free copy ;;;
                   exit EXIT_FAILURE
               | Some word =>
                   set_all_words (Some (a, entries ++ [word])) ;;;
                   token_loop copy tokens'
               end)%heap m
            else Done tt m
        | None => Fault m
        end
  end.

Definition split_paragraph_into_words (paragraph : string) : hproc nat :=
  let total := count_spaces paragraph 0 + 1 in
  (set_total_words total ;;;
   do a <- malloc ;
   match a with
   | None => perror "malloc failed" ;;; exit EXIT_FAILURE
   | Some a =>
       set_all_words (Some (a, [])) ;;;
       do c <- strdup ;
       match c with
       | None => perror "strdup failed" ;;; free a ;;; exit EXIT_FAILURE
       | Some copy =>
           token_loop copy (strtok_all None paragraph) ;;;
           free copy ;;;
           ret total
       end
   end)%heap.

(** [free_words]: nothing when [all_words] is [NULL]; else the entries
    [0 .. total_words - 1], then the array, then [all_words = NULL].  An
    entry that was never written is not a pointer to a block. *)
Definition free_words : hproc unit :=
  fun m =>
    match m_all_words m with
    | None => Done tt m
    | Some (a, entries) =>
        (for_each (seq 0 (m_total_words m)) (fun i =>
           match entries !! i with
           | Some word => free word
           | None => fault
           end) ;;;
         free a ;;;
         set_all_words None)%heap m
    end.

(** The creation loop of [print_paragraph], [n] threads to go: the
    [malloc] of [thread_data[i].words] and the [pthread_create], both
    checked, without any release on failure.  Returns the arrays. *)
Fixpoint create_loop (n : nat) : hproc (list nat) :=
  match n with
  | 0 => ret []
  | S n' =>
      (do q <- malloc ;
       match q with
       | None => perror "malloc failed" ;;; exit EXIT_FAILURE
       | Some words =>
           checked "pthread_create failed" ;;;
           do rest <- create_loop n' ;
           ret (words :: rest)
       end)%heap
  end.

(** [print_paragraph]: the creation loop, then per thread the join and
    [free(thread_data[i].words)]. *)
Definition print_paragraph (NUM_THREADS : nat) : hproc unit :=
  (do arrays <- create_loop NUM_THREADS ;
   for_each arrays free)%heap.

Definition init_semaphores (NUM_THREADS : nat) : hproc unit :=
  for_each (seq 0 NUM_THREADS) (fun _ => checked "sem_init failed").

Definition destroy_semaphores : hproc unit := ret tt.

Definition reset_semaphores (NUM_THREADS : nat) : hproc unit :=
  (destroy_semaphores ;;; init_semaphores NUM_THREADS)%heap.

Definition main (paragraph : string) (NUM_THREADS : nat) : hproc Z :=
  (split_paragraph_into_words paragraph ;;;
   init_semaphores NUM_THREADS ;;;
   print_paragraph NUM_THREADS ;;;
   reset_semaphores NUM_THREADS ;;;
   print_paragraph NUM_THREADS ;;;
   destroy_semaphores ;;;
   free_words ;;;
   ret 0%Z)%heap.

(** Program start: nothing allocated, [all_words == NULL],
    [total_words == 0]. *)
Definition boot (oracle : nat -> bool) : mem :=
  mk_mem oracle 0 [] 0 ∅ None 0.

End Heap.

(** * The vocabulary of the proofs *)

(** ** Shares *)

(** The size an even split of [m] items over [n] workers gives to worker
    [t]: the first [m mod n] workers get one item more. *)
Definition share_size (n m t : nat) : nat :=
  m / n + (if t <? m mod n then 1 else 0).

(** Where the block of worker [i] starts in the second revision. *)
Definition block_offset (n m i : nat) : nat := i * (m / n) + min i (m mod n).

(** The share of worker [t] in closed form, first revision: the words at
    positions [t], [t + n], [t + 2 * n], ... *)
Definition strided_share (n : nat) (all_words : list string) (t : nat) : list string :=
  omap (fun k => all_words !! (t + n * k))
       (seq 0 (share_size n (length all_words) t)).

Definition strided_data (n : nat) (all_words : list string) (mode : bool) (t : nat)
  : thread_data_t :=
  {| thread_id := t; words := strided_share n all_words t;
     word_count := share_size n (length all_words) t;
     sem_wait := t; sem_signal := (t + 1) mod n;
     is_chaos_mode := mode |}.

(** The share of worker [t] in closed form, second revision. *)
Definition blocked_share (n : nat) (all_words : list string) (t : nat) : list string :=
  take (share_size n (length all_words) t)
       (drop (block_offset n (length all_words) t) all_words).

Definition blocked_data (n : nat) (all_words : list string) (mode : bool) (t : nat)
  : thread_data_t :=
  {| thread_id := t; words := blocked_share n all_words t;
     word_count := share_size n (length all_words) t;
     sem_wait := t; sem_signal := (t + 1) mod n;
     is_chaos_mode := mode |}.

(** The argument blocks describe a ring in one mode: thread [t] has id
    [t], waits on semaphore [t], signals semaphore [(t + 1) mod n], and
    [word_count] is the number of its [words]. *)
Definition ring_wf (mode : bool) (td : list thread_data_t) : Prop :=
  forall t data, td !! t = Some data ->
    thread_id data = t /\ sem_wait data = t
    /\ sem_signal data = (t + 1) mod length td
    /\ is_chaos_mode data = mode
    /\ word_count data = length (words data).

(** The shares have the sizes of an even split of [m] items. *)
Definition balanced (m : nat) (td : list thread_data_t) : Prop :=
  forall t data, td !! t = Some data ->
    word_count data = share_size (length td) m t.

(** The argument blocks either revision builds. *)
Definition partitioned (n : nat) (ws : list string) (mode : bool)
    (td : list thread_data_t) : Prop :=
  Strided.thread_data n ws mode = Some td \/ Blocked.thread_data n ws mode = Some td.

(** [n] shares of [m] items, as even as can be, the larger ones first. *)
Definition even_split (n m : nat) (td : list thread_data_t) : Prop :=
  length td = n
  /\ (forall t data, td !! t = Some data ->
        word_count data = length (words data)
        /\ length (words data) = m / n + (if t <? m mod n then 1 else 0))
  /\ sum_list_with (fun data => length (words data)) td = m.

(** [r] full rounds of the rotation. *)
Definition full_rounds (n r : nat) : list nat :=
  flat_map (fun _ => seq 0 n) (seq 0 r).

(** ** Steps, case by case *)

(** The moves of [print_thread], one constructor per branch. *)
Inductive thread_step (sems : list sem_t) (data : thread_data_t) (i : nat)
  : loc -> list sem_t -> nat -> loc -> list event -> Prop :=
| ts_enter : i < word_count data ->
    thread_step sems data i Lhead sems i Lwait []
| ts_leave : word_count data <= i ->
    thread_step sems data i Lhead sems i Lret []
| ts_skip_wait : is_chaos_mode data = true ->
    thread_step sems data i Lwait sems i Lprint []
| ts_wait v : is_chaos_mode data = false ->
    sems !! sem_wait data = Some (Sem (S v)) ->
    thread_step sems data i Lwait (<[sem_wait data := Sem v]> sems) i Lprint
                [EvWait (thread_id data) (sem_wait data)]
| ts_print w : words data !! i = Some w ->
    thread_step sems data i Lprint sems i Lpost [EvPrint (thread_id data) w]
| ts_skip_post : is_chaos_mode data = true ->
    thread_step sems data i Lpost sems (S i) Lhead []
| ts_post v : is_chaos_mode data = false ->
    sems !! sem_signal data = Some (Sem v) ->
    thread_step sems data i Lpost (<[sem_signal data := Sem (S v)]> sems) (S i) Lhead
                [EvPost (thread_id data) (sem_signal data)].

(** The moves of the whole system. *)
Inductive sys_step (td : list thread_data_t) (s : state) : actor -> state -> Prop :=
| ss_create data :
    td !! length (threads s) = Some data ->
    sys_step td s Main
      (mk_state (semaphores s) (threads s ++ [mk_thread data 0 Lhead]) (joined s) (trace s))
| ss_join th :
    td !! length (threads s) = None ->
    joined s < length td ->
    threads s !! joined s = Some th ->
    t_pc th = Lret ->
    sys_step td s Main
      (mk_state (semaphores s) (threads s) (S (joined s)) (trace s))
| ss_worker t th sems' i' pc' evs :
    threads s !! t = Some th ->
    thread_step (semaphores s) (t_data th) (t_i th) (t_pc th) sems' i' pc' evs ->
    sys_step td s (Worker t)
      (mk_state sems' (<[t := mk_thread (t_data th) i' pc']> (threads s))
                (joined s) (trace s ++ evs)).

(** ** What holds of every thread in every reachable state *)

(** The events of a loop pass that is under way. *)
Definition partial_events (data : thread_data_t) (i : nat) (pc : loc) : list event :=
  match pc with
  | Lprint =>
      if is_chaos_mode data then [] else [EvWait (thread_id data) (sem_wait data)]
  | Lpost =>
      (if is_chaos_mode data then [] else [EvWait (thread_id data) (sem_wait data)])
      ++ match words data !! i with
         | Some w => [EvPrint (thread_id data) w]
         | None => []
         end
  | _ => []
  end.

(** Everything a thread has done so far: the complete passes for its first
    [t_i] words, then the pass under way. *)
Definition thread_events (th : thread) : list event :=
  flat_map (item_events (t_data th)) (take (t_i th) (words (t_data th)))
  ++ partial_events (t_data th) (t_i th) (t_pc th).

Definition pc_ok (th : thread) : Prop :=
  match t_pc th with
  | Lhead => t_i th <= word_count (t_data th)
  | Lwait | Lprint | Lpost => t_i th < word_count (t_data th)
  | Lret => t_i th = word_count (t_data th)
  end.

Record local_inv (td : list thread_data_t) (s : state) : Prop := {
  li_len : length (threads s) <= length td;
  li_data : forall t th, threads s !! t = Some th -> td !! t = Some (t_data th);
  li_pc : forall t th, threads s !! t = Some th -> pc_ok th;
  li_events : forall t,
    events_of t (trace s)
    = match threads s !! t with Some th => thread_events th | None => [] end;
  li_joined : joined s <= length (threads s);
  li_joined_ret : forall t th,
    t < joined s -> threads s !! t = Some th -> t_pc th = Lret
}.

(** ** The token: what holds of the ring in synchronized mode *)

(** A ring without any unit: some thread is in its critical section. *)
Definition all_closed (n : nat) : list sem_t := replicate n (Sem 0).

(** The loop counter of thread [t], 0 while it is not created. *)
Definition idx (s : state) (t : nat) : nat :=
  match threads s !! t with Some th => t_i th | None => 0 end.

(** Where the unit is: in semaphore [p] with nobody in the critical
    section, or with thread [p], which is about to print ([c = 0]) or has
    printed and is about to post ([c = 1]). *)
Inductive token_state (td : list thread_data_t) (s : state) (p : nat) : nat -> Prop :=
| tok_free :
    semaphores s = token_at (length td) p ->
    (forall t th, threads s !! t = Some th -> in_critical th = false) ->
    token_state td s p 0
| tok_print th :
    semaphores s = all_closed (length td) ->
    threads s !! p = Some th -> t_pc th = Lprint ->
    (forall t th', t <> p -> threads s !! t = Some th' -> in_critical th' = false) ->
    token_state td s p 0
| tok_post th :
    semaphores s = all_closed (length td) ->
    threads s !! p = Some th -> t_pc th = Lpost ->
    (forall t th', t <> p -> threads s !! t = Some th' -> in_critical th' = false) ->
    token_state td s p 1.

(** [r] full rounds are done and the unit is at position [p] of round
    [r]: the threads before [p] have finished item [r], the others have
    not; the output so far is the strict rotation. *)
Definition sync_at (td : list thread_data_t) (s : state) (r p c : nat) : Prop :=
  p < length td
  /\ (forall t, t < length td -> idx s t = r + (if t <? p then 1 else 0))
  /\ token_state td s p c
  /\ Some <$> emits (trace s) = rotation_item td <$> seq 0 (length td * r + p + c).

Definition sync_inv (td : list thread_data_t) (s : state) : Prop :=
  local_inv td s /\ exists r p c, sync_at td s r p c.

(** In unsynchronized mode no thread touches a semaphore. *)
Definition chaos_inv (td : list thread_data_t) (sems0 : list sem_t) (s : state) : Prop :=
  local_inv td s /\ semaphores s = sems0
  /\ Forall (fun e => is_gate_op e = false) (trace s).

(** ** Procedures that exit on the first failed call *)

(** The next [k] fallible calls succeed. *)
Definition grants (w : world) (k : nat) : Prop :=
  forall j, j < k -> w_oracle w (w_calls w + j) = true.

(** [w'] comes after [k] successful calls and no diagnostic. *)
Definition after (w : world) (k : nat) (w' : world) : Prop :=
  w_calls w' = w_calls w + k /\ w_oracle w' = w_oracle w
  /\ w_sched w' = w_sched w /\ w_stderr w' = w_stderr w.

(** [c] run in [w] makes [k] fallible calls. If all succeed it returns in
    a world satisfying [Q]; if call number [j] is the first to fail, the
    process exits at once with [EXIT_FAILURE] and one diagnostic. *)
Definition fail_fast {A} (c : proc A) (w : world) (k : nat)
    (Q : A -> world -> Prop) : Prop :=
  (grants w k -> exists a w', c w = Ret a w' /\ Q a w' /\ after w k w')
  /\ (forall j, j < k -> grants w j -> w_oracle w (w_calls w + j) = false ->
        exists w' msg, c w = Exit EXIT_FAILURE w'
                       /\ w_calls w' = w_calls w + S j
                       /\ w_stderr w' = w_stderr w ++ [msg]).

(** The fields a checked call leaves alone. *)
Definition same_data (w w' : world) : Prop :=
  w_trace w' = w_trace w /\ w_semaphores w' = w_semaphores w
  /\ w_all_words w' = w_all_words w /\ w_total_words w' = w_total_words w.

Definition init_value (i : nat) : sem_t := sem_init (if i =? 0 then 1 else 0).

(** What [main] needs of [print_paragraph]; the sizes of the shares and
    the content of the output are dealt with elsewhere. *)
Definition print_paragraph_spec (n : nat) (pp : bool -> proc unit) : Prop :=
  forall mode w,
    length (w_all_words w) = w_total_words w ->
    length (w_semaphores w) = n ->
    (mode = false -> w_semaphores w = ring_init n) ->
    fail_fast (pp mode) w (n * 2)
      (fun _ w' => length (w_semaphores w') = n
                   /\ (mode = false ->
                       w_semaphores w' = token_at n (w_total_words w mod n))
                   /\ (mode = true -> w_semaphores w' = w_semaphores w)
                   /\ w_all_words w' = w_all_words w
                   /\ w_total_words w' = w_total_words w).

(** The body shared by the two revisions of [main]. *)
Definition main_of (n : nat) (pp : bool -> proc unit) : proc Z :=
  split_paragraph_into_words ;;;
  init_semaphores n ;;;
  pp false ;;;
  reset_semaphores n ;;;
  pp true ;;;
  destroy_semaphores n ;;;
  free_words ;;;
  ret 0%Z.

(** The fallible calls of a whole execution: 35 for the split, [n] per
    ring set-up, [2 * n] per run. *)
Definition main_calls (n : nat) : nat := 35 + n * 6.

(** The first of the calls [0 .. k-1] that fails, if any. *)
Definition first_failure (oracle : nat -> bool) (k : nat) : option nat :=
  fst <$> list_find (fun j => oracle j = false) (seq 0 k).

(** How a process that makes up to [k] fallible calls must end: with
    status 0 and no diagnostic when none of them fails; otherwise with
    [EXIT_FAILURE] and one diagnostic, right after the first failed call. *)
Definition exits_fail_fast (oracle : nat -> bool) (k : nat) (o : outcome Z) : Prop :=
  match first_failure oracle k with
  | None =>
      exit_status o = Some 0%Z /\ (exists w, o = Ret 0%Z w)
      /\ w_stderr (final_world o) = [] /\ w_calls (final_world o) = k
  | Some j =>
      exit_status o = Some EXIT_FAILURE /\ (exists w, o = Exit EXIT_FAILURE w)
      /\ w_calls (final_world o) = S j
      /\ exists msg, w_stderr (final_world o) = [msg]
  end.

(** ** Inputs for the examples *)

Definition example_words : list string := ["alpha"; "beta"; "gamma"; "delta"].

Definition three_words : list string := ["alpha"; "beta"; "gamma"].

Definition example_strided : list thread_data_t :=
  strided_data 2 example_words false <$> seq 0 2.

Definition example_blocked : list thread_data_t :=
  blocked_data 2 example_words false <$> seq 0 2.

(** A world in which the ring holds what a run has left, with one
    semaphore never set up. *)
Definition used_world : world :=
  mk_world (fun _ => true) (fun _ k => k) 40 [] []
           [Sem 0; Sem 0; Sem 0; Sem 1; SemUninit] [] 0.

(** ** More vocabulary: what the ring holds, and deadlock *)

(** A semaphore that [sem_init] has set up and [sem_destroy] has not
    taken down. *)
Definition is_live (x : sem_t) : bool :=
  match x with Sem _ => true | SemUninit => false end.

Definition sem_value (x : sem_t) : nat :=
  match x with Sem v => v | SemUninit => 0 end.

(** The units held by the semaphores of the ring, all together. *)
Definition ring_total (sems : list sem_t) : nat := sum_list_with sem_value sems.

(** The number of threads between the return of their [sem_wait] and
    their [sem_post]. *)
Definition holders (s : state) : nat :=
  length (filter (fun th => in_critical th = true) (threads s)).

(** Nobody can move: neither [print_paragraph] nor any thread. *)
Definition stuck (td : list thread_data_t) (s : state) : Prop :=
  forall a, step td a s = None.

(** The position in [all_words] of the word that a synchronized run of
    the second revision prints at step [k]: item [k / n] of the block of
    thread [k mod n]. *)
Definition blocked_order (n m k : nat) : nat := block_offset n m (k mod n) + k / n.

(** Argument blocks of a ring of two whose second thread alone has a
    word: shares that no even split produces. *)
Definition lopsided : list thread_data_t :=
  [ {| thread_id := 0; words := []; word_count := 0;
       sem_wait := 0; sem_signal := 1; is_chaos_mode := false |};
    {| thread_id := 1; words := ["late"]; word_count := 1;
       sem_wait := 1; sem_signal := 0; is_chaos_mode := false |} ].

(** ** Paragraphs and words *)

(** A text in which [spaces + 1] is the number of words: it is not empty,
    has no space at either end and no two spaces in a row.
    [after_space] tells that the character before was a space (or that
    the text starts here). *)
Fixpoint single_spaced_from (after_space : bool) (s : string) : bool :=
  match s with
  | EmptyString => negb after_space
  | String c rest =>
      if is_space c then negb after_space && single_spaced_from true rest
      else single_spaced_from false rest
  end.

Definition single_spaced (s : string) : bool := single_spaced_from true s.

(** [strtok] is between tokens. *)
Definition no_token (cur : option string) : bool :=
  match cur with Some _ => false | None => true end.

(** What [strtok] can return: some characters, none of them a space. *)
Definition is_word (t : string) : Prop := t <> ""%string /\ count_spaces t 0 = 0.

(** The words put back together, one space between neighbours. *)
Definition join_words (ws : list string) : string := String.concat " " ws.

(** ** Procedures and the diagnostics of their calls *)

(** [c] run in [w] makes the fallible calls of [script], in this order;
    each entry is the diagnostic that [perror] writes when that call
    fails.  If all succeed [c] returns in a world satisfying [Q]; if call
    number [j] is the first to fail, the process exits at once with
    [EXIT_FAILURE], having written the diagnostic of call [j] and nothing
    else. *)
Definition follows {A} (c : proc A) (w : world) (script : list string)
    (Q : A -> world -> Prop) : Prop :=
  (grants w (length script) ->
     exists a w', c w = Ret a w' /\ Q a w' /\ after w (length script) w')
  /\ (forall j msg, script !! j = Some msg -> grants w j ->
        w_oracle w (w_calls w + j) = false ->
        exists w', c w = Exit EXIT_FAILURE w'
                   /\ w_calls w' = w_calls w + S j
                   /\ w_stderr w' = w_stderr w ++ [msg]).

(** The calls of [split_paragraph_into_words] for a text of [tokens]
    tokens: the [malloc] of [all_words], the [strdup] of the paragraph, a
    [strdup] per token. *)
Definition split_script (tokens : nat) : list string :=
  "malloc failed"%string :: replicate (S tokens) "strdup failed"%string.

(** The calls of the creation loop of [print_paragraph]. *)
Definition threads_script (n : nat) : list string :=
  concat (replicate n ["malloc failed"; "pthread_create failed"]%string).

Definition ring_script (n : nat) : list string := replicate n "sem_init failed"%string.

(** The calls of a whole execution of [main]. *)
Definition main_script (tokens n : nat) : list string :=
  split_script tokens ++ ring_script n ++ threads_script n
  ++ ring_script n ++ threads_script n.

(** The lines of a synchronized run of the second revision over [ws]. *)
Definition blocked_output (n : nat) (ws : list string) : list (nat * string) :=
  (fun k => (k mod n, default ""%string (ws !! blocked_order n (length ws) k)))
    <$> seq 0 (length ws).


(** What [main] needs of [print_paragraph], output included: entered with
    all the words in place and, for a synchronized run, the initial ring,
    it makes the calls of the creation loop and then lets the threads
    run to their end; a synchronized run prints the lines [out] assigns
    to the words, an unsynchronized run prints the words in some order
    and uses no semaphore. *)
Definition prints (n : nat) (pp : bool -> proc unit)
    (out : list string -> list (nat * string)) : Prop :=
  forall mode w,
    length (w_all_words w) = w_total_words w ->
    length (w_semaphores w) = n ->
    (mode = false -> w_semaphores w = ring_init n) ->
    follows (pp mode) w (threads_script n)
      (fun _ w' => exists tr,
         w_trace w' = w_trace w ++ tr
         /\ (mode = false -> emits tr = out (w_all_words w))
         /\ (mode = true -> (emits tr).*2 ≡ₚ w_all_words w
                            /\ Forall (fun e => is_gate_op e = false) tr)
         /\ length (w_semaphores w') = n
         /\ w_all_words w' = w_all_words w
         /\ w_total_words w' = w_total_words w).

(** The lines of a synchronized run of the first revision over [ws]. *)
Definition strided_output (n : nat) (ws : list string) : list (nat * string) :=
  imap (fun k w => (k mod n, w)) ws.

(** ** The heap model: vocabulary *)

(** The next [k] fallible calls succeed. *)
Definition hgrants (m : Heap.mem) (k : nat) : Prop :=
  forall j, j < k -> Heap.m_oracle m (Heap.m_calls m + j) = true.

(** [c] run in [m] makes [k] fallible calls.  If all succeed it returns
    in a memory satisfying [Q], with nothing written on the error
    stream; if call [j] is the first to fail the process exits with
    [EXIT_FAILURE] right after it, in a memory satisfying [E j].  In
    neither case is there a fault. *)
Definition hspec {A} (c : Heap.hproc A) (m : Heap.mem) (k : nat)
    (Q : A -> Heap.mem -> Prop) (E : nat -> Heap.mem -> Prop) : Prop :=
  (hgrants m k ->
     exists a m', c m = Heap.Done a m' /\ Q a m'
       /\ Heap.m_calls m' = Heap.m_calls m + k
       /\ Heap.m_oracle m' = Heap.m_oracle m
       /\ Heap.m_stderr m' = Heap.m_stderr m)
  /\ (forall j, j < k -> hgrants m j ->
        Heap.m_oracle m (Heap.m_calls m + j) = false ->
        exists m', c m = Heap.Exited EXIT_FAILURE m' /\ E j m'
          /\ Heap.m_calls m' = Heap.m_calls m + S j
          /\ exists msg, Heap.m_stderr m' = Heap.m_stderr m ++ [msg]).

(** [m] with other live blocks. *)
Definition with_live (m : Heap.mem) (live : gset nat) : Heap.mem :=
  Heap.mk_mem (Heap.m_oracle m) (Heap.m_calls m) (Heap.m_stderr m) (Heap.m_next m)
              live (Heap.m_all_words m) (Heap.m_total_words m).

(** Every live block has an address below the next fresh one, and below
    [x]. *)
Definition below (x : nat) (live : gset nat) : Prop := forall q, q ∈ live -> q < x.

(** The blocks of the words: [k] blocks from address [x] on. *)
Definition blocks (x k : nat) : gset nat := list_to_set (seq x k).

(** The memory inside the tokenising loop of a split that started with
    the live blocks [L] and the next address [x]: [all_words] is block
    [x], the copy of the paragraph block [x + 1], and [i] words are
    copied, into the blocks that follow. *)
Definition in_split (L : gset nat) (x total i : nat) (m : Heap.mem) : Prop :=
  Heap.m_next m = x + 2 + i
  /\ Heap.m_live m = L ∪ {[x]} ∪ {[x + 1]} ∪ blocks (x + 2) i
  /\ Heap.m_all_words m = Some (x, seq (x + 2) i)
  /\ Heap.m_total_words m = total.

(** The memory when the split has returned: the copy is released. *)
Definition after_split (L : gset nat) (x total i : nat) (m : Heap.mem) : Prop :=
  Heap.m_next m = x + 2 + i
  /\ Heap.m_live m = L ∪ {[x]} ∪ blocks (x + 2) i
  /\ Heap.m_all_words m = Some (x, seq (x + 2) i)
  /\ Heap.m_total_words m = total.

(** [m] after one more fallible call: a [malloc] or [strdup] that has
    handed out the next address, and a call that has allocated nothing. *)
Definition allocated (m : Heap.mem) : Heap.mem :=
  Heap.mk_mem (Heap.m_oracle m) (S (Heap.m_calls m)) (Heap.m_stderr m)
              (S (Heap.m_next m)) ({[Heap.m_next m]} ∪ Heap.m_live m)
              (Heap.m_all_words m) (Heap.m_total_words m).

Definition called (m : Heap.mem) : Heap.mem :=
  Heap.mk_mem (Heap.m_oracle m) (S (Heap.m_calls m)) (Heap.m_stderr m)
              (Heap.m_next m) (Heap.m_live m)
              (Heap.m_all_words m) (Heap.m_total_words m).

(** Nothing but the count of calls has changed. *)
Definition same_heap (m m' : Heap.mem) : Prop :=
  Heap.m_next m' = Heap.m_next m /\ Heap.m_live m' = Heap.m_live m
  /\ Heap.m_all_words m' = Heap.m_all_words m
  /\ Heap.m_total_words m' = Heap.m_total_words m.

(** The first [j] calls of the environment succeed and call [j] fails. *)
Definition fails_first_at (oracle : nat -> bool) (j : nat) : Prop :=
  (forall i, i < j -> oracle i = true) /\ oracle j = false.

(** Membership in sets of blocks, by cases and arithmetic. *)
Ltac heap_logic :=
  unfold blocks in *;
  repeat (rewrite ?elem_of_union, ?elem_of_difference, ?elem_of_singleton,
            ?elem_of_empty, ?elem_of_list_to_set,
            ?elem_of_cons, ?elem_of_nil, ?elem_of_seq);
  intuition (subst; first [lia | done]).

Ltac heap_sets := apply set_eq; intros ?q; heap_logic.

(** * Proofs *)

(** ** Arithmetic of share sizes *)

Lemma share_size_lt n m t k :
  0 < n -> t < n -> (t + n * k < m <-> k < share_size n m t).
Proof.
  intros Hn Ht. unfold share_size.
  pose proof (Nat.div_mod_eq m n) as Hdm.
  pose proof (Nat.mod_upper_bound m n ltac:(lia)) as Hr.
  set (q := m / n) in *. set (r := m mod n) in *.
  destruct (Nat.ltb_spec t r); nia.
Qed.

Lemma divmod_unique n q r : r < n -> (n * q + r) / n = q /\ (n * q + r) mod n = r.
Proof.
  intros Hr. split; symmetry.
  - apply (Nat.div_unique _ _ q r); lia.
  - apply (Nat.mod_unique _ _ q r); lia.
Qed.

Section StridedFacts.
Variable n : nat.
Variable all_words : list string.
Hypothesis n_pos : 0 < n.

Local Abbreviation m := (length all_words).

Lemma count_loop_closed t d : forall k count fuel,
  t < n -> k + d = share_size n m t -> d <= fuel ->
  Strided.count_loop n all_words fuel (t + n * k) count = Some (count + d).
Proof.
  induction d as [|d IH]; intros k count fuel Ht Hk Hfuel.
  - assert (~ t + n * k < m) as Hge by (rewrite share_size_lt by done; lia).
    destruct fuel; simpl; unfold Strided.total_words;
      (destruct (Nat.ltb_spec (t + n * k) m); [lia|]); f_equal; lia.
  - assert (t + n * k < m) as Hlt by (rewrite share_size_lt by done; lia).
    destruct fuel as [|fuel]; [lia|]. simpl. unfold Strided.total_words.
    destruct (Nat.ltb_spec (t + n * k) m); [|lia].
    replace (t + n * k + n) with (t + n * S k) by lia.
    rewrite IH by lia. f_equal; lia.
Qed.

Lemma assign_loop_closed t d : forall k ws fuel,
  t < n -> k + d = share_size n m t -> d <= fuel ->
  Strided.assign_loop n all_words fuel (t + n * k) ws
  = Some (ws ++ omap (fun k' => all_words !! (t + n * k')) (seq k d)).
Proof.
  induction d as [|d IH]; intros k ws fuel Ht Hk Hfuel.
  - assert (~ t + n * k < m) as Hge by (rewrite share_size_lt by done; lia).
    destruct fuel; simpl; unfold Strided.total_words;
      (destruct (Nat.ltb_spec (t + n * k) m); [lia|]); by rewrite app_nil_r.
  - assert (t + n * k < m) as Hlt by (rewrite share_size_lt by done; lia).
    destruct fuel as [|fuel]; [lia|]. simpl. unfold Strided.total_words.
    destruct (Nat.ltb_spec (t + n * k) m); [|lia].
    destruct (lookup_lt_is_Some_2 all_words (t + n * k) Hlt) as [w Hw].
    rewrite Hw. replace (t + n * k + n) with (t + n * S k) by lia.
    rewrite IH by lia. by rewrite <- app_assoc.
Qed.

Lemma share_size_le t : t < n -> share_size n m t <= m.
Proof.
  intros Ht. destruct (share_size n m t) as [|s] eqn:Hs; [lia|].
  assert (t + n * s < m) by (rewrite share_size_lt by done; lia). nia.
Qed.

Lemma strided_share_lookup t k :
  t < n -> strided_share n all_words t !! k
           = if k <? share_size n m t then all_words !! (t + n * k) else None.
Proof.
  intros Ht. unfold strided_share.
  assert (forall d, d <= share_size n m t ->
            omap (fun k => all_words !! (t + n * k)) (seq 0 d)
            = (fun k => default ""%string (all_words !! (t + n * k))) <$> seq 0 d) as Hmap.
  { induction d as [|d IH]; intros Hd; [done|].
    rewrite seq_S, omap_app, fmap_app, IH by lia. simpl.
    assert (t + n * d < m) as Hlt by (rewrite share_size_lt by done; lia).
    destruct (lookup_lt_is_Some_2 all_words _ Hlt) as [w Hw]. by rewrite Hw. }
  rewrite Hmap by lia. rewrite list_lookup_fmap.
  destruct (Nat.ltb_spec k (share_size n m t)) as [Hlt|Hge].
  - rewrite lookup_seq_lt by lia. simpl.
    assert (t + n * k < m) as Hlt' by (rewrite share_size_lt by done; lia).
    destruct (lookup_lt_is_Some_2 all_words _ Hlt') as [w Hw]. by rewrite Hw.
  - by rewrite lookup_seq_ge by lia.
Qed.

Lemma strided_share_length t : t < n -> length (strided_share n all_words t) = share_size n m t.
Proof.
  intros Ht. 
  destruct (Nat.lt_trichotomy (length (strided_share n all_words t)) (share_size n m t)) as [H|[H|H]]; [|done|].
  - pose proof (strided_share_lookup t (length (strided_share n all_words t)) Ht) as Hl.
    rewrite lookup_ge_None_2 in Hl by lia.
    destruct (Nat.ltb_spec (length (strided_share n all_words t)) (share_size n m t)); [|lia].
    symmetry in Hl. apply lookup_ge_None_1 in Hl.
    assert (t + n * length (strided_share n all_words t) < m) by (rewrite share_size_lt by done; lia).
    lia.
  - pose proof (strided_share_lookup t (share_size n m t) Ht) as Hl.
    rewrite Nat.ltb_irrefl in Hl. apply lookup_ge_None_1 in Hl. lia.
Qed.

Lemma strided_thread_data_at mode t :
  t < n ->
  Strided.thread_data_at n all_words mode t
  = Some {| thread_id := t; words := strided_share n all_words t;
            word_count := share_size n m t;
            sem_wait := t; sem_signal := (t + 1) mod n;
            is_chaos_mode := mode |}.
Proof.
  intros Ht. unfold Strided.thread_data_at.
  pose proof (count_loop_closed t (share_size n m t) 0 0 (Strided.total_words all_words) Ht) as Hc.
  pose proof (assign_loop_closed t (share_size n m t) 0 [] (Strided.total_words all_words) Ht) as Ha.
  rewrite Nat.mul_0_r, Nat.add_0_r in Hc, Ha.
  rewrite Hc, Ha by (try apply share_size_le; done). done.
Qed.

Lemma strided_thread_data mode :
  Strided.thread_data n all_words mode = Some (strided_data n all_words mode <$> seq 0 n).
Proof.
  unfold Strided.thread_data. apply mapM_Some. 
  apply Forall2_fmap_r, Forall_Forall2_diag, Forall_forall.
  intros t Hin%elem_of_seq. apply strided_thread_data_at. lia.
Qed.
End StridedFacts.

(** ** Dealing a list into buckets *)

Lemma concat_insert_perm {A} (k : nat) (y : A) (G : nat -> list A) (ts : list nat) :
  NoDup ts -> k ∈ ts ->
  concat ((fun t => if decide (k = t) then y :: G t else G t) <$> ts)
  ≡ₚ y :: concat (G <$> ts).
Proof.
  induction 1 as [|t ts Hnin Hnd IH]; intros Hin.
  - by apply elem_of_nil in Hin.
  - csimpl. destruct (decide (k = t)) as [->|Hne].
    + assert ((fun t0 => if decide (t = t0) then y :: G t0 else G t0) <$> ts = G <$> ts)
        as ->; [|done].
      apply list_fmap_ext.
      intros i t' Ht'. destruct (decide (t = t')) as [->|]; [|done].
      exfalso. apply Hnin. by eapply list_elem_of_lookup_2.
    + apply elem_of_cons in Hin as [?|Hin]; [done|].
      rewrite IH by done. symmetry. apply Permutation_middle.
Qed.

Lemma concat_nil_fmap {A B} (ts : list B) : concat ((fun _ => @nil A) <$> ts) = [].
Proof. induction ts; [done|]. simpl. done. Qed.

(** Sorting the elements of [l] by a key below [n] and reading the buckets
    in key order loses and repeats nothing. *)
Lemma bucket_perm {A B} (key : A -> nat) (g : A -> B) (n : nat) (l : list A) :
  (forall x, x ∈ l -> key x < n) ->
  concat ((fun t => g <$> filter (fun x => key x = t) l) <$> seq 0 n) ≡ₚ g <$> l.
Proof.
  induction l as [|x l IH]; intros Hkey.
  - simpl. by rewrite concat_nil_fmap.
  - rewrite fmap_cons, <- IH by (intros; apply Hkey; by right).
    rewrite <- (concat_insert_perm (key x) (g x) _ (seq 0 n)).
    + assert (forall F G : nat -> list B, (forall t, F t = G t) ->
                F <$> seq 0 n = G <$> seq 0 n) as Hext
        by (intros F G HFG; apply list_fmap_ext; auto).
      erewrite Hext; [done|]. intros t. simpl. rewrite filter_cons.
      destruct (decide (key x = t)); done.
    + apply NoDup_seq.
    + apply elem_of_seq. specialize (Hkey x ltac:(by left)). lia.
Qed.

Lemma share_size_S n m t :
  0 < n -> t < n ->
  share_size n (S m) t = share_size n m t + (if decide (m mod n = t) then 1 else 0)
  /\ (m mod n = t -> m = t + n * share_size n m t).
Proof.
  intros Hn Ht.
  pose proof (share_size_lt n m t (share_size n m t) Hn Ht) as A1.
  pose proof (share_size_lt n m t (share_size n m t - 1) Hn Ht) as A2.
  pose proof (share_size_lt n (S m) t (share_size n (S m) t) Hn Ht) as B1.
  pose proof (share_size_lt n (S m) t (share_size n (S m) t - 1) Hn Ht) as B2.
  pose proof (share_size_lt n (S m) t (share_size n m t) Hn Ht) as C1.
  pose proof (share_size_lt n m t (share_size n (S m) t - 1) Hn Ht) as C2.
  assert (m mod n = t -> m = t + n * share_size n m t) as Heq.
  { intros Hm. unfold share_size. rewrite Hm, Nat.ltb_irrefl.
    pose proof (Nat.div_mod_eq m n). lia. }
  split; [|done].
  destruct (decide (m mod n = t)) as [Hm|Hm].
  - specialize (Heq Hm).
    set (s := share_size n m t) in *. set (s' := share_size n (S m) t) in *.
    assert (s < s') by (apply C1; lia).
    assert (~ s + 1 < s').
    { intros Hlt. assert (t + n * (s + 1) < S m) as Hc.
      { apply (share_size_lt n (S m) t (s + 1) Hn Ht). fold s'. lia. }
      nia. }
    lia.
  - set (s := share_size n m t) in *. set (s' := share_size n (S m) t) in *.
    assert (~ s < s').
    { intros Hlt. assert (t + n * s < S m) by (apply C1; done).
      assert (~ t + n * s < m) by (rewrite A1; lia).
      apply Hm. pose proof (divmod_unique n s t Ht) as [_ Hu].
      etransitivity; [|exact Hu]. f_equal. lia. }
    assert (~ s' < s).
    { intros Hlt. assert (t + n * s' < m) as Hc.
      { apply (share_size_lt n m t s' Hn Ht). done. }
      assert (~ t + n * s' < S m) by (rewrite B1; lia). lia. }
    lia.
Qed.

Lemma filter_stride n m t :
  0 < n -> t < n ->
  filter (fun j => j mod n = t) (seq 0 m)
  = (fun k => t + n * k) <$> seq 0 (share_size n m t).
Proof.
  intros Hn Ht. induction m as [|m IH].
  - unfold share_size. rewrite Nat.Div0.div_0_l, Nat.Div0.mod_0_l. done.
  - destruct (share_size_S n m t Hn Ht) as [HS Heq]. rewrite HS.
    rewrite seq_S, filter_app, IH. simpl. rewrite filter_cons, filter_nil.
    destruct (decide (m mod n = t)) as [Hm|Hm].
    + rewrite Nat.add_1_r, seq_S, fmap_app. simpl. by rewrite <- (Heq Hm).
    + by rewrite Nat.add_0_r, app_nil_r.
Qed.

Lemma fmap_lookup_seq (ws : list string) :
  (fun j => default ""%string (ws !! j)) <$> seq 0 (length ws) = ws.
Proof.
  apply list_eq. intros j. rewrite list_lookup_fmap.
  destruct (decide (j < length ws)) as [Hlt|Hge].
  - rewrite lookup_seq_lt by done. simpl.
    destruct (lookup_lt_is_Some_2 ws _ Hlt) as [w Hw]. by rewrite Hw.
  - rewrite lookup_seq_ge by lia. simpl. symmetry. apply lookup_ge_None_2. lia.
Qed.

Section StridedPerm.
Variable n : nat.
Variable all_words : list string.
Hypothesis n_pos : 0 < n.

Local Abbreviation m := (length all_words).

Lemma strided_share_fmap t :
  t < n ->
  strided_share n all_words t
  = (fun j => default ""%string (all_words !! j))
      <$> filter (fun j => j mod n = t) (seq 0 m).
Proof.
  intros Ht. apply list_eq. intros k.
  rewrite strided_share_lookup by done.
  rewrite filter_stride by done. rewrite !list_lookup_fmap.
  destruct (Nat.ltb_spec k (share_size n m t)) as [Hlt|Hge].
  - rewrite lookup_seq_lt by done. simpl.
    assert (t + n * k < m) as Hlt' by (rewrite share_size_lt by done; lia).
    destruct (lookup_lt_is_Some_2 all_words _ Hlt') as [w Hw]. by rewrite Hw.
  - by rewrite lookup_seq_ge by lia.
Qed.

Lemma strided_shares_perm :
  concat (strided_share n all_words <$> seq 0 n) ≡ₚ all_words.
Proof.
  rewrite <- (fmap_lookup_seq all_words) at 2.
  rewrite <- (bucket_perm (fun j => j mod n) _ n (seq 0 m)).
  - assert (strided_share n all_words <$> seq 0 n
            = (fun t => (fun j => default ""%string (all_words !! j))
                          <$> filter (fun j => j mod n = t) (seq 0 m)) <$> seq 0 n)
      as ->; [|done].
    apply list_fmap_ext. intros i t Hit.
    apply lookup_seq in Hit as [-> ?]. by apply strided_share_fmap.
  - intros j _. by apply Nat.mod_upper_bound, Nat.neq_0_lt_0.
Qed.
End StridedPerm.

(** ** The block partition in closed form *)

Lemma block_offset_S n m i :
  block_offset n m (S i) = block_offset n m i + share_size n m i.
Proof.
  unfold block_offset, share_size. destruct (Nat.ltb_spec i (m mod n)); lia.
Qed.

Lemma block_offset_full n m : 0 < n -> block_offset n m n = m.
Proof.
  intros Hn. unfold block_offset.
  pose proof (Nat.div_mod_eq m n). pose proof (Nat.mod_upper_bound m n ltac:(lia)). lia.
Qed.

Lemma block_offset_mono n m i j : i <= j -> block_offset n m i <= block_offset n m j.
Proof. unfold block_offset. intros. nia. Qed.

Section BlockedFacts.
Variable n : nat.
Variable all_words : list string.
Hypothesis n_pos : 0 < n.

Local Abbreviation m := (length all_words).

Lemma blocked_assign_loop cnt : forall word_index ws,
  word_index + cnt <= m ->
  Blocked.assign_loop all_words cnt word_index ws
  = Some (ws ++ take cnt (drop word_index all_words), word_index + cnt).
Proof.
  induction cnt as [|cnt IH]; intros word_index ws Hle; simpl.
  - rewrite app_nil_r. do 2 f_equal. lia.
  - destruct (lookup_lt_is_Some_2 all_words word_index) as [w Hw]; [lia|].
    rewrite Hw, IH by lia. rewrite (drop_S _ _ _ Hw). simpl.
    rewrite <- app_assoc. do 2 f_equal. lia.
Qed.

Lemma blocked_create_loop mode k : forall i,
  i + k = n ->
  Blocked.create_loop n all_words mode k i (block_offset n m i)
  = Some (blocked_data n all_words mode <$> seq i k).
Proof.
  induction k as [|k IH]; intros i Hik; [done|].
  simpl. unfold Blocked.thread_data_at.
  unfold Blocked.words_per_thread, Blocked.extra_words, Blocked.total_words.
  change (m / n + (if i <? m mod n then 1 else 0)) with (share_size n m i).
  assert (block_offset n m i + share_size n m i <= m) as Hle.
  { pose proof (block_offset_mono n m (S i) n ltac:(lia)) as Hmono.
    rewrite block_offset_S, block_offset_full in Hmono by done. done. }
  rewrite blocked_assign_loop by done.
  rewrite <- block_offset_S, IH by lia. done.
Qed.

Lemma blocked_thread_data mode :
  Blocked.thread_data n all_words mode = Some (blocked_data n all_words mode <$> seq 0 n).
Proof.
  unfold Blocked.thread_data.
  replace 0 with (block_offset n m 0) at 2 by (unfold block_offset; lia).
  by apply blocked_create_loop.
Qed.

Lemma blocked_concat k : forall i,
  i + k <= n ->
  concat (blocked_share n all_words <$> seq i k)
  = take (block_offset n m (i + k) - block_offset n m i)
         (drop (block_offset n m i) all_words).
Proof.
  induction k as [|k IH]; intros i Hik.
  - by rewrite Nat.add_0_r, Nat.sub_diag.
  - csimpl. rewrite IH by lia. unfold blocked_share at 1.
    rewrite block_offset_S, <- drop_drop, take_take_drop. f_equal.
    pose proof (block_offset_mono n m (S i) (S i + k) ltac:(lia)).
    rewrite block_offset_S in *. replace (i + S k) with (S i + k) by lia. lia.
Qed.

Lemma blocked_shares_concat : concat (blocked_share n all_words <$> seq 0 n) = all_words.
Proof.
  rewrite blocked_concat by lia. simpl.
  rewrite block_offset_full by done. unfold block_offset. simpl.
  rewrite Nat.sub_0_r. by apply take_ge.
Qed.

Lemma blocked_share_length t : t < n -> length (blocked_share n all_words t) = share_size n m t.
Proof.
  intros Ht. unfold blocked_share. rewrite length_take, length_drop.
  pose proof (block_offset_mono n m (S t) n ltac:(lia)) as Hle.
  rewrite block_offset_S, block_offset_full in Hle by done. lia.
Qed.
End BlockedFacts.

(** ** What both partitions share *)

Lemma strided_ring_wf n ws mode :
  0 < n -> ring_wf mode (strided_data n ws mode <$> seq 0 n).
Proof.
  intros Hn t data Hl. rewrite list_lookup_fmap in Hl.
  destruct (seq 0 n !! t) as [t'|] eqn:Ht; [|done].
  apply lookup_seq in Ht as [-> Ht]. simpl in Hl. injection Hl as <-. simpl.
  rewrite length_fmap, length_seq. repeat split; try done.
  by rewrite strided_share_length.
Qed.

Lemma strided_balanced n ws mode :
  balanced (length ws) (strided_data n ws mode <$> seq 0 n).
Proof.
  intros t data Hl. rewrite list_lookup_fmap in Hl.
  destruct (seq 0 n !! t) as [t'|] eqn:Ht; [|done].
  apply lookup_seq in Ht as [-> Ht]. simpl in Hl. injection Hl as <-. simpl.
  by rewrite length_fmap, length_seq.
Qed.

Lemma blocked_ring_wf n ws mode :
  0 < n -> ring_wf mode (blocked_data n ws mode <$> seq 0 n).
Proof.
  intros Hn t data Hl. rewrite list_lookup_fmap in Hl.
  destruct (seq 0 n !! t) as [t'|] eqn:Ht; [|done].
  apply lookup_seq in Ht as [-> Ht]. simpl in Hl. injection Hl as <-. simpl.
  rewrite length_fmap, length_seq. repeat split; try done.
  by rewrite blocked_share_length.
Qed.

Lemma blocked_balanced n ws mode :
  balanced (length ws) (blocked_data n ws mode <$> seq 0 n).
Proof.
  intros t data Hl. rewrite list_lookup_fmap in Hl.
  destruct (seq 0 n !! t) as [t'|] eqn:Ht; [|done].
  apply lookup_seq in Ht as [-> Ht]. simpl in Hl. injection Hl as <-. simpl.
  by rewrite length_fmap, length_seq.
Qed.

Lemma share_size_sum n m k :
  0 < n -> k <= n ->
  sum_list (share_size n m <$> seq 0 k) = block_offset n m k.
Proof.
  intros Hn. induction k as [|k IH]; intros Hk; [done|].
  rewrite seq_S, fmap_app, sum_list_with_app, IH, block_offset_S by lia. simpl. unfold id. lia.
Qed.

(** ** Steps, case by case *)

Lemma print_thread_inv sems th sems' th' evs :
  print_thread sems th = Some (sems', th', evs) ->
  t_data th' = t_data th /\
  thread_step sems (t_data th) (t_i th) (t_pc th) sems' (t_i th') (t_pc th') evs.
Proof.
  unfold print_thread. destruct th as [data i pc]. simpl.
  destruct pc.
  - destruct (Nat.ltb_spec i (word_count data)); intros [= <- <- <-]; simpl;
      split; try done; by constructor.
  - destruct (is_chaos_mode data) eqn:Hmode.
    + intros [= <- <- <-]. split; [done|]. by constructor.
    + destruct (sems !! sem_wait data) as [[|[|v]]|] eqn:Hs; try done.
      intros [= <- <- <-]. split; [done|]. by constructor.
  - destruct (words data !! i) as [w|] eqn:Hw; [|done].
    intros [= <- <- <-]. split; [done|]. by constructor.
  - destruct (is_chaos_mode data) eqn:Hmode.
    + intros [= <- <- <-]. split; [done|]. by constructor.
    + destruct (sems !! sem_signal data) as [[|v]|] eqn:Hs; try done.
      intros [= <- <- <-]. split; [done|]. by constructor.
  - done.
Qed.

Lemma print_thread_complete sems data i pc sems' i' pc' evs :
  thread_step sems data i pc sems' i' pc' evs ->
  print_thread sems (mk_thread data i pc) = Some (sems', mk_thread data i' pc', evs).
Proof.
  destruct 1; unfold print_thread; simpl;
    repeat match goal with
           | H : _ = _ |- _ => rewrite H
           end; try done.
  - by destruct (Nat.ltb_spec i (word_count data)); [|lia].
  - by destruct (Nat.ltb_spec i (word_count data)); [lia|].
Qed.

Lemma step_inv td a s s' : step td a s = Some s' -> sys_step td s a s'.
Proof.
  destruct a as [|t]; simpl.
  - unfold print_paragraph_step.
    destruct (td !! length (threads s)) as [data|] eqn:Hd.
    + intros [= <-]. by constructor.
    + destruct (Nat.ltb_spec (joined s) (length td)); [|done].
      destruct (threads s !! joined s) as [th|] eqn:Hth; [|done].
      destruct (is_ret (t_pc th)) eqn:Hret; [|done].
      intros [= <-]. econstructor; try done. by destruct (t_pc th).
  - destruct (threads s !! t) as [th|] eqn:Hth; [|done].
    destruct (print_thread (semaphores s) th) as [[[sems' th'] evs]|] eqn:Hp; [|done].
    intros [= <-]. apply print_thread_inv in Hp as [Hd Hstep].
    destruct th' as [d' i' pc']. simpl in *. subst d'. by econstructor.
Qed.

Lemma step_complete td a s s' : sys_step td s a s' -> step td a s = Some s'.
Proof.
  destruct 1; simpl.
  - unfold print_paragraph_step. by rewrite H.
  - unfold print_paragraph_step. rewrite H.
    destruct (Nat.ltb_spec (joined s) (length td)); [|lia].
    rewrite H1, H2. done.
  - rewrite H. destruct th as [data i pc]. simpl in *.
    by rewrite (print_thread_complete _ _ _ _ _ _ _ _ H0).
Qed.

(** ** Facts about traces *)

Lemma events_of_app t tr1 tr2 :
  events_of t (tr1 ++ tr2) = events_of t tr1 ++ events_of t tr2.
Proof. apply filter_app. Qed.

Lemma emits_app tr1 tr2 : emits (tr1 ++ tr2) = emits tr1 ++ emits tr2.
Proof. apply omap_app. Qed.

Lemma events_of_other t t' evs :
  t <> t' -> Forall (fun e => event_tid e = t) evs -> events_of t' evs = [].
Proof.
  intros Hne. induction 1 as [|e evs He _ IH]; [done|].
  unfold events_of in *. rewrite filter_cons, IH. 
  destruct (decide (event_tid e = t')); [congruence|done].
Qed.

Lemma events_of_same t evs :
  Forall (fun e => event_tid e = t) evs -> events_of t evs = evs.
Proof.
  induction 1 as [|e evs He _ IH]; [done|].
  unfold events_of in *. rewrite filter_cons, IH.
  destruct (decide (event_tid e = t)); [done|congruence].
Qed.

Lemma thread_step_tids sems data i pc sems' i' pc' evs :
  thread_step sems data i pc sems' i' pc' evs ->
  Forall (fun e => event_tid e = thread_id data) evs.
Proof. destruct 1; repeat constructor. Qed.

Lemma emits_events_of t tr :
  emits (events_of t tr) = filter (fun x => x.1 = t) (emits tr).
Proof.
  induction tr as [|e tr IH]; [done|].
  unfold events_of in *. rewrite filter_cons.
  destruct e as [t' g|t' w|t' g]; simpl;
    destruct (decide (t' = t)) as [->|Hne]; simpl; rewrite ?IH; try done.
  - rewrite filter_cons. simpl. by destruct (decide (t = t)).
  - rewrite filter_cons. simpl. by destruct (decide (t' = t)).
Qed.

(** ** What holds of every thread in every reachable state *)

Lemma flat_map_snoc {A B} (f : A -> list B) l x :
  flat_map f (l ++ [x]) = flat_map f l ++ f x.
Proof. rewrite flat_map_app. simpl. by rewrite app_nil_r. Qed.

Lemma thread_events_step sems data i pc sems' i' pc' evs :
  word_count data = length (words data) ->
  pc_ok (mk_thread data i pc) ->
  thread_step sems data i pc sems' i' pc' evs ->
  thread_events (mk_thread data i' pc') = thread_events (mk_thread data i pc) ++ evs
  /\ pc_ok (mk_thread data i' pc').
Proof.
  intros Hwc Hok Hstep. unfold thread_events, pc_ok in *. simpl in *.
  destruct Hstep; simpl in *;
    repeat match goal with H : is_chaos_mode _ = _ |- _ => rewrite H end;
    rewrite ?app_nil_r; try (split; [done|lia]).
  - rewrite H, app_assoc. done.
  - destruct (lookup_lt_is_Some_2 (words data) i ltac:(lia)) as [w Hw].
    rewrite Hw, (take_S_r _ _ _ Hw), flat_map_snoc. unfold item_events.
    rewrite H. simpl. split; [done|lia].
  - destruct (lookup_lt_is_Some_2 (words data) i ltac:(lia)) as [w Hw].
    rewrite Hw, (take_S_r _ _ _ Hw), flat_map_snoc. unfold item_events.
    rewrite H. simpl. rewrite <- !app_assoc. simpl. split; [done|lia].
Qed.

Section Local.
Variable td : list thread_data_t.
Variable mode : bool.
Hypothesis td_wf : ring_wf mode td.

Lemma local_inv_start sems : local_inv td (start sems).
Proof.
  split; simpl; try done; try lia.
Qed.

Lemma local_inv_step a s s' :
  local_inv td s -> step td a s = Some s' -> local_inv td s'.
Proof.
  intros [Hlen Hdata Hpc Hev Hj Hjr] Hstep%step_inv.
  destruct Hstep as [data Hd|th Hd Hjl Hth Hret|t th sems' i' pc' evs Hth Hts].
  - pose proof (lookup_lt_Some _ _ _ Hd) as Hlt.
    split; simpl.
    + rewrite length_app. simpl. lia.
    + intros t th Hl. apply lookup_app_Some in Hl as [Hl|[Hge Hl]]; [by apply Hdata|].
      apply list_lookup_singleton_Some in Hl as [Ht <-]. simpl.
      replace t with (length (threads s)) by lia. done.
    + intros t th Hl. apply lookup_app_Some in Hl as [Hl|[Hge Hl]]; [by eapply Hpc|].
      apply list_lookup_singleton_Some in Hl as [Ht <-]. unfold pc_ok. simpl. lia.
    + intros t. rewrite Hev. destruct (threads s !! t) as [th|] eqn:Hl.
      * by rewrite (lookup_app_l_Some _ _ _ _ Hl).
      * apply lookup_ge_None_1 in Hl. rewrite lookup_app_r by done.
        destruct (t - length (threads s)) as [|k] eqn:Hk; simpl; [done|].
        done.
    + rewrite length_app. simpl. lia.
    + intros t th Hlt' Hl. rewrite lookup_app_l in Hl by lia. by eapply Hjr.
  - split; simpl; try done.
    + apply lookup_lt_Some in Hth. lia.
    + intros t th' Hlt Hl. destruct (decide (t = joined s)) as [->|Hne].
      * congruence.
      * apply (Hjr t); [lia|done].
  - pose proof (lookup_lt_Some _ _ _ Hth) as Hlt.
    destruct (td_wf t (t_data th) (Hdata _ _ Hth)) as (Hid & _ & _ & _ & Hwc).
    assert (pc_ok (mk_thread (t_data th) (t_i th) (t_pc th))) as Hok
      by (specialize (Hpc _ _ Hth); by destruct th).
    destruct (thread_events_step _ _ _ _ _ _ _ _ Hwc Hok Hts) as [Hevs Hok'].
    pose proof (thread_step_tids _ _ _ _ _ _ _ _ Hts) as Htids. rewrite Hid in Htids.
    split; simpl.
    + by rewrite length_insert.
    + intros t' th' Hl. destruct (decide (t = t')) as [<-|Hne].
      * rewrite list_lookup_insert_eq in Hl by done. injection Hl as <-. simpl.
        by apply Hdata.
      * rewrite list_lookup_insert_ne in Hl by done. by apply Hdata.
    + intros t' th' Hl. destruct (decide (t = t')) as [<-|Hne].
      * rewrite list_lookup_insert_eq in Hl by done. by injection Hl as <-.
      * rewrite list_lookup_insert_ne in Hl by done. by eapply Hpc.
    + intros t'. rewrite events_of_app, Hev. destruct (decide (t = t')) as [<-|Hne].
      * rewrite list_lookup_insert_eq, Hth by done.
        rewrite (events_of_same _ _ Htids), Hevs. by destruct th.
      * rewrite list_lookup_insert_ne by done.
        by rewrite (events_of_other _ _ _ Hne Htids), app_nil_r.
    + by rewrite length_insert.
    + intros t' th' Hlt' Hl. destruct (decide (t = t')) as [<-|Hne].
      * specialize (Hjr _ _ Hlt' Hth). rewrite Hjr in Hts. inversion Hts.
      * rewrite list_lookup_insert_ne in Hl by done. by eapply Hjr.
Qed.

Lemma local_inv_steps k s s' :
  local_inv td s -> steps td k s s' -> local_inv td s'.
Proof.
  intros Hinv. induction 1 as [|k s s' s'' a _ IH Hstep]; [done|].
  eapply local_inv_step; [by apply IH|done].
Qed.

Lemma local_inv_reachable sems s : reachable td sems s -> local_inv td s.
Proof. intros [k Hk]. eapply local_inv_steps; [apply local_inv_start|done]. Qed.
End Local.

(** ** Every step uses up one unit of the measure *)

Lemma sum_list_with_insert {A} (f : A -> nat) (l : list A) t x y :
  l !! t = Some x ->
  sum_list_with f (<[t := y]> l) + f x = sum_list_with f l + f y.
Proof.
  revert t. induction l as [|z l IH]; intros [|t] Hl; simplify_eq/=; [lia|].
  specialize (IH _ Hl). lia.
Qed.

Lemma sum_list_with_zero {A} (f : A -> nat) (l : list A) :
  Forall (fun x => f x = 0) l -> sum_list_with f l = 0.
Proof. induction 1 as [|x l Hx _ IH]; simpl; lia. Qed.

Lemma thread_measure_step sems data i pc sems' i' pc' evs :
  pc_ok (mk_thread data i pc) ->
  thread_step sems data i pc sems' i' pc' evs ->
  thread_measure (mk_thread data i pc) = S (thread_measure (mk_thread data i' pc')).
Proof.
  unfold pc_ok, thread_measure. simpl. intros Hok. destruct 1; simpl in *; lia.
Qed.

Lemma steps_cons td a k s s' s'' :
  step td a s = Some s' -> steps td k s' s'' -> steps td (S k) s s''.
Proof.
  intros Hstep. induction 1 as [|k s1 s2 s3 b _ IH Hb].
  - econstructor; [constructor|done].
  - econstructor; [by apply IH|done].
Qed.

Lemma steps_trans td k1 k2 s1 s2 s3 :
  steps td k1 s1 s2 -> steps td k2 s2 s3 -> steps td (k1 + k2) s1 s3.
Proof.
  intros H12. induction 1 as [|k s2 s3 s4 b _ IH Hb].
  - by rewrite Nat.add_0_r.
  - rewrite Nat.add_succ_r. econstructor; [by apply IH|done].
Qed.

Section Measure.
Variable td : list thread_data_t.
Variable mode : bool.
Hypothesis td_wf : ring_wf mode td.

Lemma measure_step a s s' :
  local_inv td s -> step td a s = Some s' -> measure td s = S (measure td s').
Proof.
  intros [Hlen Hdata Hpc Hev Hj Hjr] Hstep%step_inv. unfold measure.
  destruct Hstep as [data Hd|th Hd Hjl Hth Hret|t th sems' i' pc' evs Hth Hts]; simpl.
  - rewrite (drop_S _ _ _ Hd), length_app, sum_list_with_app. simpl.
    rewrite Nat.add_1_r. unfold thread_measure, data_measure. simpl. lia.
  - lia.
  - rewrite length_insert.
    assert (pc_ok (mk_thread (t_data th) (t_i th) (t_pc th))) as Hok
      by (specialize (Hpc _ _ Hth); by destruct th).
    pose proof (thread_measure_step _ _ _ _ _ _ _ _ Hok Hts) as Hm.
    pose proof (sum_list_with_insert thread_measure _ _ _
                  (mk_thread (t_data th) i' pc') Hth) as Hsum.
    destruct th as [data i pc]. simpl in *. lia.
Qed.

Lemma measure_steps k s s' :
  local_inv td s -> steps td k s s' -> measure td s = k + measure td s'.
Proof.
  intros Hinv. induction 1 as [|k s s' s'' a Hsteps IH Hstep]; [done|].
  rewrite IH by done.
  rewrite (measure_step a s' s''); [lia| |done].
  by eapply local_inv_steps.
Qed.

Lemma measure_completed s :
  local_inv td s -> completed td s -> measure td s = 0.
Proof.
  intros [Hlen Hdata Hpc Hev Hj Hjr] Hc. unfold completed in Hc. unfold measure.
  rewrite drop_ge by lia. simpl. rewrite sum_list_with_zero; [lia|].
  apply Forall_lookup. intros t th Hth.
  pose proof (lookup_lt_Some _ _ _ Hth).
  unfold thread_measure. rewrite (Hjr t th); [done|lia|done].
Qed.

Lemma measure_start sems :
  measure td (start sems) = sum_list_with data_measure td + length td.
Proof. unfold measure. simpl. rewrite drop_0. lia. Qed.

(** ** From freedom of deadlock to termination under every scheduler *)

Variable Inv : state -> Prop.
Hypothesis Inv_local : forall s, Inv s -> local_inv td s.
Hypothesis Inv_step : forall a s s', Inv s -> step td a s = Some s' -> Inv s'.
Hypothesis Inv_progress : forall s,
  Inv s -> ~ completed td s -> exists a s', step td a s = Some s'.

Lemma step_actor a s s' :
  local_inv td s -> step td a s = Some s' -> a ∈ actors td.
Proof.
  intros Hinv Hstep. unfold actors. destruct a as [|t]; [by left|]. right.
  apply list_elem_of_fmap. exists t. split; [done|]. apply elem_of_seq.
  simpl in Hstep. destruct (threads s !! t) eqn:Hth; [|done].
  apply lookup_lt_Some in Hth. destruct Hinv. lia.
Qed.

Lemma run_completes sched fuel : forall k s,
  Inv s -> measure td s <= fuel ->
  let s' := run td sched fuel k s in
  completed td s' /\ Inv s' /\ steps td (measure td s) s s'.
Proof.
  induction fuel as [|fuel IH]; intros k s Hinv Hfuel; simpl.
  - assert (completed td s) as Hc.
    { destruct (decide (joined s = length td)) as [|Hn]; [done|].
      destruct (Inv_progress s Hinv Hn) as (a & s' & Hstep).
      pose proof (measure_step a s s' (Inv_local _ Hinv) Hstep). lia. }
    split_and!; [done..|].
    replace (measure td s) with 0 by lia. constructor.
  - set (en := filter (fun a => can_step td s a = true) (actors td)).
    destruct (decide (joined s = length td)) as [Hc|Hn].
    + assert (en = []) as ->.
      { destruct en as [|a en'] eqn:Hen; [done|]. exfalso.
        assert (a ∈ en) as Ha by (rewrite Hen; by left).
        apply list_elem_of_filter in Ha as [Hcan _]. unfold can_step in Hcan.
        destruct (step td a s) as [s'|] eqn:Hstep; [|done].
        pose proof (measure_step a s s' (Inv_local _ Hinv) Hstep).
        pose proof (measure_completed s (Inv_local _ Hinv) Hc). lia. }
      simpl. rewrite (measure_completed s (Inv_local _ Hinv) Hc).
      split_and!; [done..|constructor].
    + destruct (Inv_progress s Hinv Hn) as (a0 & s0 & Hstep0).
      assert (a0 ∈ en) as Ha0.
      { apply list_elem_of_filter. split.
        - unfold can_step. by rewrite Hstep0.
        - by eapply step_actor; [apply Inv_local|]. }
      assert (0 < length en) as Hpos.
      { destruct en; [by apply elem_of_nil in Ha0|simpl; lia]. }
      pose proof (Nat.mod_upper_bound (sched k) (length en) ltac:(lia)) as Hlt.
      destruct (lookup_lt_is_Some_2 en _ Hlt) as [a Ha]. rewrite Ha.
      assert (a ∈ en) as Hain by (by eapply list_elem_of_lookup_2).
      apply list_elem_of_filter in Hain as [Hcan _]. unfold can_step in Hcan.
      destruct (step td a s) as [s'|] eqn:Hstep; [|done].
      pose proof (measure_step a s s' (Inv_local _ Hinv) Hstep) as Hm.
      destruct (IH (S k) s' (Inv_step _ _ _ Hinv Hstep) ltac:(lia)) as (Hc & Hi & Hs).
      split_and!; [done..|]. rewrite Hm. by eapply steps_cons.
Qed.
End Measure.

(** ** The token: what holds of the ring in synchronized mode *)

Lemma token_at_lookup n p i :
  token_at n p !! i = if i <? n then Some (Sem (if i =? p then 1 else 0)) else None.
Proof.
  unfold token_at. rewrite list_lookup_fmap.
  destruct (Nat.ltb_spec i n).
  - by rewrite lookup_seq_lt.
  - by rewrite lookup_seq_ge.
Qed.

Lemma token_at_length n p : length (token_at n p) = n.
Proof. unfold token_at. by rewrite length_fmap, length_seq. Qed.

Lemma token_at_take n p :
  <[p := Sem 0]> (token_at n p) = all_closed n.
Proof.
  apply list_eq. intros i. unfold all_closed.
  destruct (decide (i < n)) as [Hlt|Hge].
  - rewrite lookup_replicate_2 by done.
    destruct (decide (p = i)) as [->|Hne].
    + rewrite list_lookup_insert_eq; [done|]. by rewrite token_at_length.
    + rewrite list_lookup_insert_ne, token_at_lookup by done.
      destruct (Nat.ltb_spec i n); [|lia]. destruct (Nat.eqb_spec i p); [lia|done].
  - rewrite !lookup_ge_None_2; [done|by rewrite length_replicate; lia|].
    rewrite length_insert, token_at_length. lia.
Qed.

Lemma all_closed_put n p :
  p < n -> <[p := Sem 1]> (all_closed n) = token_at n p.
Proof.
  intros Hp. apply list_eq. intros i. unfold all_closed. rewrite token_at_lookup.
  destruct (Nat.ltb_spec i n) as [Hlt|Hge].
  - destruct (decide (p = i)) as [->|Hne].
    + rewrite list_lookup_insert_eq by (by rewrite length_replicate).
      by rewrite Nat.eqb_refl.
    + rewrite list_lookup_insert_ne, lookup_replicate_2 by done.
      destruct (Nat.eqb_spec i p); [lia|done].
  - apply lookup_ge_None_2. rewrite length_insert, length_replicate. lia.
Qed.

Section Sync.
Variable td : list thread_data_t.
Hypothesis td_wf : ring_wf false td.
Hypothesis td_pos : 0 < length td.

Local Abbreviation n := (length td).

Lemma sync_inv_start : sync_inv td (start (ring_init n)).
Proof.
  split; [apply local_inv_start|]. exists 0, 0, 0. split_and!.
  - done.
  - intros t Ht. by destruct t.
  - by apply tok_free.
  - by rewrite Nat.mul_0_r.
Qed.

Lemma rotation_item_at r p data w :
  p < n -> td !! p = Some data -> words data !! r = Some w ->
  rotation_item td (n * r + p) = Some (p, w).
Proof.
  intros Hp Hd Hw. unfold rotation_item.
  destruct (divmod_unique n r p Hp) as [-> ->]. by rewrite Hd, Hw.
Qed.

Lemma idx_insert_ne s t t' th sems j tr :
  t <> t' ->
  idx (mk_state sems (<[t := th]> (threads s)) j tr) t' = idx s t'.
Proof. intros Hne. unfold idx. simpl. by rewrite list_lookup_insert_ne. Qed.

Lemma idx_insert_eq s t th sems j tr :
  t < length (threads s) ->
  idx (mk_state sems (<[t := th]> (threads s)) j tr) t = t_i th.
Proof. intros Hlt. unfold idx. simpl. by rewrite list_lookup_insert_eq. Qed.

(** A worker step that neither enters nor leaves the critical section and
    leaves semaphores and output alone. *)
Lemma token_state_quiet s p c t th pc' :
  threads s !! t = Some th -> in_critical th = false ->
  in_critical (mk_thread (t_data th) (t_i th) pc') = false ->
  token_state td s p c ->
  token_state td (mk_state (semaphores s)
                        (<[t := mk_thread (t_data th) (t_i th) pc']> (threads s))
                        (joined s) (trace s ++ [])) p c.
Proof.
  intros Hth Hnc Hnc' Htok. pose proof (lookup_lt_Some _ _ _ Hth) as Hlt.
  destruct Htok as [Hs Hall|thp Hs Hp Hpc Hoth|thp Hs Hp Hpc Hoth].
  - apply tok_free; simpl; [done|].
    intros t0 th0 Hl. destruct (decide (t = t0)) as [<-|Hne].
    + rewrite list_lookup_insert_eq in Hl by done. by injection Hl as <-.
    + rewrite list_lookup_insert_ne in Hl by done. by eapply Hall.
  - assert (t <> p) as Hne.
    { intros ->. rewrite Hp in Hth. injection Hth as ->.
      unfold in_critical in Hnc. by rewrite Hpc in Hnc. }
    eapply tok_print; simpl; [done| |done|].
    + by rewrite list_lookup_insert_ne.
    + intros t0 th0 Hne0 Hl. destruct (decide (t = t0)) as [<-|Hne'].
      * rewrite list_lookup_insert_eq in Hl by done. by injection Hl as <-.
      * rewrite list_lookup_insert_ne in Hl by done. by eapply Hoth.
  - assert (t <> p) as Hne.
    { intros ->. rewrite Hp in Hth. injection Hth as ->.
      unfold in_critical in Hnc. by rewrite Hpc in Hnc. }
    eapply tok_post; simpl; [done| |done|].
    + by rewrite list_lookup_insert_ne.
    + intros t0 th0 Hne0 Hl. destruct (decide (t = t0)) as [<-|Hne'].
      * rewrite list_lookup_insert_eq in Hl by done. by injection Hl as <-.
      * rewrite list_lookup_insert_ne in Hl by done. by eapply Hoth.
Qed.

(** The thread holding location [Lprint] or [Lpost] is the token holder. *)
Lemma token_state_critical s p c t th :
  token_state td s p c -> threads s !! t = Some th -> in_critical th = true ->
  t = p /\ semaphores s = all_closed n
  /\ (forall t' th', t' <> p -> threads s !! t' = Some th' -> in_critical th' = false)
  /\ c = (match t_pc th with Lpost => 1 | _ => 0 end).
Proof.
  intros Htok Hth Hc.
  destruct Htok as [Hs Hall|thp Hs Hp Hpc Hoth|thp Hs Hp Hpc Hoth].
  - rewrite (Hall _ _ Hth) in Hc. done.
  - destruct (decide (t = p)) as [->|Hne].
    + rewrite Hp in Hth. injection Hth as ->. by rewrite Hpc.
    + rewrite (Hoth _ _ Hne Hth) in Hc. done.
  - destruct (decide (t = p)) as [->|Hne].
    + rewrite Hp in Hth. injection Hth as ->. by rewrite Hpc.
    + rewrite (Hoth _ _ Hne Hth) in Hc. done.
Qed.

Lemma idx_worker s t th sems j tr t0 :
  t < length (threads s) ->
  idx (mk_state sems (<[t := th]> (threads s)) j tr) t0
  = if decide (t = t0) then t_i th else idx s t0.
Proof.
  intros Hlt. destruct (decide (t = t0)) as [<-|Hne].
  - by apply idx_insert_eq.
  - by apply idx_insert_ne.
Qed.

Lemma idx_create s data t0 :
  idx (mk_state (semaphores s) (threads s ++ [mk_thread data 0 Lhead])
                (joined s) (trace s)) t0 = idx s t0.
Proof.
  unfold idx. simpl. destruct (threads s !! t0) as [th|] eqn:Hl.
  - by rewrite (lookup_app_l_Some _ _ _ _ Hl).
  - apply lookup_ge_None_1 in Hl. rewrite lookup_app_r by done.
    by destruct (t0 - length (threads s)).
Qed.

Lemma token_state_create s p c data :
  token_state td s p c ->
  token_state td (mk_state (semaphores s) (threads s ++ [mk_thread data 0 Lhead])
                        (joined s) (trace s)) p c.
Proof.
  assert (forall t th,
    (threads s ++ [mk_thread data 0 Lhead]) !! t = Some th ->
    threads s !! t = Some th \/ in_critical th = false) as Hnew.
  { intros t th Hl. apply lookup_app_Some in Hl as [Hl|[_ Hl]]; [by left|].
    apply list_lookup_singleton_Some in Hl as [_ <-]. by right. }
  intros [Hs Hall|thp Hs Hp Hpc Hoth|thp Hs Hp Hpc Hoth].
  - apply tok_free; simpl; [done|].
    intros t th Hl. destruct (Hnew _ _ Hl); [by eapply Hall|done].
  - eapply tok_print; simpl; [done|by apply lookup_app_l_Some|done|].
    intros t th Hne Hl. destruct (Hnew _ _ Hl); [by eapply Hoth|done].
  - eapply tok_post; simpl; [done|by apply lookup_app_l_Some|done|].
    intros t th Hne Hl. destruct (Hnew _ _ Hl); [by eapply Hoth|done].
Qed.

Lemma token_state_join s p c j :
  token_state td s p c ->
  token_state td (mk_state (semaphores s) (threads s) j (trace s)) p c.
Proof.
  intros [Hs Hall|thp Hs Hp Hpc Hoth|thp Hs Hp Hpc Hoth].
  - by apply tok_free.
  - by eapply tok_print.
  - by eapply tok_post.
Qed.

Lemma sync_inv_step a s s' :
  sync_inv td s -> step td a s = Some s' -> sync_inv td s'.
Proof.
  intros [Hloc (r & p & c & Hp & Hidx & Htok & Hem)] Hstep.
  split; [by eapply local_inv_step|].
  apply step_inv in Hstep.
  destruct Hstep as [data Hd|th Hd Hjl Hth Hret|t th sems' i' pc' evs Hth Hts].
  - exists r, p, c. split_and!; [done| |by apply token_state_create|done].
    intros t Ht. rewrite idx_create. by apply Hidx.
  - exists r, p, c. split_and!; [done| |by apply token_state_join|done].
    intros t Ht. by apply Hidx.
  - pose proof (lookup_lt_Some _ _ _ Hth) as Hlt.
    pose proof (li_len _ _ Hloc) as Hlen.
    destruct (td_wf t (t_data th) (li_data _ _ Hloc _ _ Hth))
      as (Hid & Hsw & Hss & Hmode & Hwc).
    assert (idx s t = t_i th) as Hit by (unfold idx; by rewrite Hth).
    destruct th as [data i pc]. simpl in *.
    destruct Hts as [Hi|Hi|Hm|v Hm Hv|w Hw|Hm|v Hm Hv]; try congruence.
    + (* loop test, entering *)
      exists r, p, c. split_and!; [done| | |by rewrite app_nil_r].
      * intros t0 Ht0. rewrite idx_worker by done. simpl.
        destruct (decide (t = t0)) as [<-|]; [by rewrite <- Hit; apply Hidx|by apply Hidx].
      * by apply (token_state_quiet s p c t (mk_thread data i Lhead) Lwait).
    + (* loop test, leaving *)
      exists r, p, c. split_and!; [done| | |by rewrite app_nil_r].
      * intros t0 Ht0. rewrite idx_worker by done. simpl.
        destruct (decide (t = t0)) as [<-|]; [by rewrite <- Hit; apply Hidx|by apply Hidx].
      * by apply (token_state_quiet s p c t (mk_thread data i Lhead) Lret).
    + (* sem_wait *)
      rewrite Hsw in *.
      assert (t = p /\ v = 0 /\ c = 0 /\ semaphores s = token_at n p
              /\ (forall t0 th0, threads s !! t0 = Some th0 -> in_critical th0 = false))
        as (-> & -> & -> & Hs & Hall).
      { destruct Htok as [Hs Hall|thp Hs _ _ _|thp Hs _ _ _].
        - rewrite Hs, token_at_lookup in Hv.
          destruct (Nat.ltb_spec t n); [|done].
          destruct (Nat.eqb_spec t p); [|done]. by injection Hv as <-.
        - rewrite Hs in Hv. unfold all_closed in Hv.
          apply lookup_replicate in Hv as [? _]. done.
        - rewrite Hs in Hv. unfold all_closed in Hv.
          apply lookup_replicate in Hv as [? _]. done. }
      exists r, p, 0. split_and!; [done| | |].
      * intros t0 Ht0. rewrite idx_worker by done. simpl.
        destruct (decide (p = t0)) as [<-|]; [by rewrite <- Hit; apply Hidx|by apply Hidx].
      * eapply tok_print; simpl.
        -- by rewrite Hs, token_at_take.
        -- by apply list_lookup_insert_eq.
        -- done.
        -- intros t0 th0 Hne Hl. rewrite list_lookup_insert_ne in Hl by done.
           by eapply Hall.
      * simpl. by rewrite emits_app, app_nil_r.
    + (* printf *)
      destruct (token_state_critical s p c t _ Htok Hth eq_refl)
        as (-> & Hs & Hoth & ->). simpl in *.
      assert (i = r) as ->.
      { rewrite <- Hit, (Hidx p Hp). destruct (Nat.ltb_spec p p); lia. }
      exists r, p, 1. split_and!; [done| | |].
      * intros t0 Ht0. rewrite idx_worker by done. simpl.
        destruct (decide (p = t0)) as [<-|]; [|by apply Hidx].
        destruct (Nat.ltb_spec p p); lia.
      * eapply tok_post; simpl.
        -- done.
        -- by apply list_lookup_insert_eq.
        -- done.
        -- intros t0 th0 Hne Hl. rewrite list_lookup_insert_ne in Hl by done.
           by eapply Hoth.
      * simpl. rewrite emits_app, fmap_app, Hem. simpl.
        rewrite Nat.add_0_r, Nat.add_1_r, seq_S, fmap_app. simpl.
        rewrite Hid.
        by rewrite (rotation_item_at r p data w Hp (li_data _ _ Hloc _ _ Hth) Hw).
    + (* sem_post *)
      destruct (token_state_critical s p c t _ Htok Hth eq_refl)
        as (-> & Hs & Hoth & ->). simpl in *.
      assert (i = r) as ->.
      { rewrite <- Hit, (Hidx p Hp). destruct (Nat.ltb_spec p p); lia. }
      assert (v = 0) as ->.
      { rewrite Hs in Hv. unfold all_closed in Hv.
        apply lookup_replicate in Hv as [[= <-] _]. done. }
      assert (sem_signal data < n) as Hsig
        by (rewrite Hss; apply Nat.mod_upper_bound; lia).
      assert (token_state td
                (mk_state (<[sem_signal data := Sem 1]> (semaphores s))
                          (<[p := mk_thread data (S r) Lhead]> (threads s))
                          (joined s) (trace s ++ [EvPost (thread_id data) (sem_signal data)]))
                (sem_signal data) 0) as Htok'.
      { apply tok_free; simpl.
        - by rewrite Hs, all_closed_put.
        - intros t0 th0 Hl. destruct (decide (p = t0)) as [<-|Hne].
          + rewrite list_lookup_insert_eq in Hl by done. by injection Hl as <-.
          + rewrite list_lookup_insert_ne in Hl by done. by eapply Hoth. }
      assert (emits (trace s ++ [EvPost (thread_id data) (sem_signal data)])
              = emits (trace s)) as Hem'
        by (by rewrite emits_app, app_nil_r).
      destruct (decide (p + 1 = n)) as [Hlast|Hmid].
      * assert (sem_signal data = 0) as H0
          by (rewrite Hss, Hlast; apply Nat.Div0.mod_same).
        rewrite H0 in *.
        exists (S r), 0, 0. split_and!; [lia| |done|].
        -- intros t0 Ht0. rewrite idx_worker by done. simpl.
           destruct (decide (p = t0)) as [<-|Hne]; [lia|].
           rewrite (Hidx t0 Ht0). destruct (Nat.ltb_spec t0 p); lia.
        -- simpl trace. rewrite Hem', Hem. do 2 f_equal. lia.
      * assert (sem_signal data = p + 1) as H1
          by (rewrite Hss; apply Nat.mod_small; lia).
        rewrite H1 in *.
        exists r, (p + 1), 0. split_and!; [lia| |done|].
        -- intros t0 Ht0. rewrite idx_worker by done. simpl.
           destruct (decide (p = t0)) as [<-|Hne].
           ++ destruct (Nat.ltb_spec p (p + 1)); lia.
           ++ rewrite (Hidx t0 Ht0).
              destruct (Nat.ltb_spec t0 p), (Nat.ltb_spec t0 (p + 1)); lia.
        -- simpl trace. rewrite Hem', Hem. do 2 f_equal. lia.
Qed.

Lemma sync_inv_reachable s : reachable td (ring_init n) s -> sync_inv td s.
Proof.
  intros [k Hk]. remember (start (ring_init n)) as s0 eqn:Hs0.
  induction Hk as [|k s0 s s' a _ IH Hstep].
  - subst. apply sync_inv_start.
  - eapply sync_inv_step; [by apply IH|done].
Qed.

(** *** Mutual exclusion and the strict rotation *)

Lemma sync_mutex s t1 t2 th1 th2 :
  sync_inv td s ->
  threads s !! t1 = Some th1 -> threads s !! t2 = Some th2 ->
  in_critical th1 = true -> in_critical th2 = true -> t1 = t2.
Proof.
  intros [_ (r & p & c & _ & _ & Htok & _)] H1 H2 Hc1 Hc2.
  destruct (token_state_critical s p c t1 th1 Htok H1 Hc1) as [-> _].
  by destruct (token_state_critical s p c t2 th2 Htok H2 Hc2) as [-> _].
Qed.

Lemma rotation_item_inv k x :
  rotation_item td k = Some x ->
  x.1 = k mod n /\
  exists data, td !! (k mod n) = Some data /\ words data !! (k / n) = Some x.2.
Proof.
  unfold rotation_item.
  destruct (td !! (k mod n)) as [data|] eqn:Hd; [|done].
  destruct (words data !! (k / n)) as [w|] eqn:Hw; [|done].
  intros [= <-]. simpl. eauto.
Qed.

Lemma sync_emits s :
  sync_inv td s ->
  Some <$> emits (trace s) = rotation_item td <$> seq 0 (length (emits (trace s))).
Proof.
  intros [_ (r & p & c & _ & _ & _ & Hem)].
  assert (length (emits (trace s)) = n * r + p + c) as ->; [|done].
  apply (f_equal length) in Hem. by rewrite !length_fmap, length_seq in Hem.
Qed.

Lemma sync_emit_at s k x :
  sync_inv td s -> emits (trace s) !! k = Some x -> rotation_item td k = Some x.
Proof.
  intros Hinv Hk. pose proof (sync_emits s Hinv) as Hem.
  apply (f_equal (fun l => l !! k)) in Hem.
  rewrite !list_lookup_fmap, Hk in Hem.
  rewrite lookup_seq_lt in Hem by (by eapply lookup_lt_Some).
  simpl in Hem. by injection Hem.
Qed.

Lemma sync_rotation s :
  sync_inv td s ->
  (emits (trace s)).*1 = rotation n (length (emits (trace s))).
Proof.
  intros Hinv. apply list_eq. intros k. unfold rotation.
  rewrite !list_lookup_fmap.
  destruct (emits (trace s) !! k) as [x|] eqn:Hk.
  - rewrite lookup_seq_lt by (by eapply lookup_lt_Some). simpl.
    by destruct (rotation_item_inv k x (sync_emit_at s k x Hinv Hk)) as [-> _].
  - by rewrite lookup_seq_ge by (by apply lookup_ge_None_1).
Qed.

(** *** No deadlock when the shares are balanced *)

Variable m : nat.
Hypothesis td_bal : balanced m td.

Lemma sync_progress s :
  sync_inv td s -> ~ completed td s -> exists a s', step td a s = Some s'.
Proof.
  intros [Hloc (r & p & c & Hp & Hidx & Htok & Hem)] Hnc. unfold completed in Hnc.
  pose proof (li_len _ _ Hloc) as Hlen.
  destruct (decide (length (threads s) < n)) as [Hcr|Hall].
  { destruct (lookup_lt_is_Some_2 td _ Hcr) as [data Hd].
    eexists Main, _. apply step_complete. by constructor. }
  assert (length (threads s) = n) as Hfull by lia.
  assert (td !! length (threads s) = None) as Hnone
    by (apply lookup_ge_None_2; lia).
  assert (forall t th sems' i' pc' evs,
    threads s !! t = Some th ->
    thread_step (semaphores s) (t_data th) (t_i th) (t_pc th) sems' i' pc' evs ->
    exists a s', step td a s = Some s') as Hgo.
  { intros t th sems' i' pc' evs Hth Hts. eexists (Worker t), _.
    apply step_complete. by econstructor. }
  assert (forall t th, threads s !! t = Some th -> t_pc th = Lhead ->
    exists a s', step td a s = Some s') as Hhead.
  { intros t th Hth Hpc.
    destruct (Nat.lt_ge_cases (t_i th) (word_count (t_data th))).
    - eapply (Hgo t th); [done|]. rewrite Hpc. by apply ts_enter.
    - eapply (Hgo t th); [done|]. rewrite Hpc. by apply ts_leave. }
  destruct Htok as [Hs Hfree|thp Hs Hthp Hpc Hoth|thp Hs Hthp Hpc Hoth].
  - destruct (lookup_lt_is_Some_2 (threads s) p ltac:(lia)) as [thp Hthp].
    destruct (td_wf p (t_data thp) (li_data _ _ Hloc _ _ Hthp))
      as (Hid & Hsw & Hss & Hmode & Hwc).
    pose proof (Hfree _ _ Hthp) as Hncp. unfold in_critical in Hncp.
    destruct (t_pc thp) eqn:Hpcp; try done.
    + by eapply Hhead.
    + eapply (Hgo p thp); [done|]. rewrite Hpcp. apply (ts_wait _ _ _ 0); [done|].
      rewrite Hs, Hsw, token_at_lookup.
      destruct (Nat.ltb_spec p n); [|lia]. by rewrite Nat.eqb_refl.
    + (* thread [p] has returned: so has every other thread *)
      assert (forall t th, threads s !! t = Some th -> t_pc th <> Lwait) as Hnw.
      { intros t th Hth Hw. pose proof (lookup_lt_Some _ _ _ Hth) as Ht.
        pose proof (li_pc _ _ Hloc _ _ Hth) as Hok.
        pose proof (li_pc _ _ Hloc _ _ Hthp) as Hokp.
        unfold pc_ok in Hok, Hokp. rewrite Hw in Hok. rewrite Hpcp in Hokp.
        rewrite (td_bal _ _ (li_data _ _ Hloc _ _ Hth)) in Hok.
        rewrite (td_bal _ _ (li_data _ _ Hloc _ _ Hthp)) in Hokp.
        pose proof (Hidx t ltac:(lia)) as Hit. pose proof (Hidx p Hp) as Hip.
        unfold idx in Hit, Hip. rewrite Hth in Hit. rewrite Hthp in Hip.
        unfold share_size in *.
        destruct (Nat.ltb_spec t p), (Nat.ltb_spec p p),
          (Nat.ltb_spec t (m mod n)), (Nat.ltb_spec p (m mod n)); lia. }
      destruct (decide (Forall (fun th => is_ret (t_pc th) = true) (threads s)))
        as [Hret|Hnret].
      * destruct (lookup_lt_is_Some_2 (threads s) (joined s)) as [thj Hthj].
        { pose proof (li_joined _ _ Hloc). lia. }
        eexists Main, _. apply step_complete. eapply ss_join; [done| |done|].
        -- pose proof (li_joined _ _ Hloc). lia.
        -- rewrite Forall_lookup in Hret. specialize (Hret _ _ Hthj).
           by destruct (t_pc thj).
      * apply not_Forall_Exists in Hnret; [|apply _].
        apply Exists_exists in Hnret as (th & Hin & Hnr).
        apply list_elem_of_lookup in Hin as [t Hth]. simpl in Hnr.
        pose proof (Hfree _ _ Hth) as Hnct. unfold in_critical in Hnct.
        destruct (t_pc th) eqn:Hpct; try done.
        -- by eapply Hhead.
        -- by destruct (Hnw _ _ Hth).
  - destruct (td_wf p (t_data thp) (li_data _ _ Hloc _ _ Hthp))
      as (Hid & Hsw & Hss & Hmode & Hwc).
    pose proof (li_pc _ _ Hloc _ _ Hthp) as Hokp. unfold pc_ok in Hokp.
    rewrite Hpc in Hokp.
    destruct (lookup_lt_is_Some_2 (words (t_data thp)) (t_i thp) ltac:(lia)) as [w Hw].
    eapply (Hgo p thp); [done|]. rewrite Hpc. by apply (ts_print _ _ _ w).
  - destruct (td_wf p (t_data thp) (li_data _ _ Hloc _ _ Hthp))
      as (Hid & Hsw & Hss & Hmode & Hwc).
    eapply (Hgo p thp); [done|]. rewrite Hpc. apply (ts_post _ _ _ 0); [done|].
    rewrite Hs. apply lookup_replicate_2. rewrite Hss.
    apply Nat.mod_upper_bound. lia.
Qed.

(** *** The state in which a synchronized run ends *)

Lemma sync_completed s :
  sync_inv td s -> completed td s ->
  semaphores s = token_at n (m mod n)
  /\ length (emits (trace s)) = m.
Proof.
  intros [Hloc (r & p & c & Hp & Hidx & Htok & Hem)] Hc. unfold completed in Hc.
  pose proof (li_len _ _ Hloc) as Hlen. pose proof (li_joined _ _ Hloc) as Hj.
 
  assert (forall t, t < n -> r + (if t <? p then 1 else 0) = share_size n m t) as Hsz.
  { intros t Ht. rewrite <- (Hidx t Ht). unfold idx.
    destruct (lookup_lt_is_Some_2 (threads s) t ltac:(lia)) as [th Hth]. rewrite Hth.
    pose proof (li_pc _ _ Hloc _ _ Hth) as Hok. unfold pc_ok in Hok.
    rewrite (li_joined_ret _ _ Hloc t th ltac:(lia) Hth) in Hok.
    rewrite Hok. by apply td_bal, (li_data _ _ Hloc). }
  assert (r = m / n /\ p = m mod n) as [Hr Hpm].
  { pose proof (Nat.mod_upper_bound m n ltac:(lia)) as Hrem.
    pose proof (Hsz (n - 1) ltac:(lia)) as H1. unfold share_size in H1.
    destruct (Nat.ltb_spec (n - 1) p), (Nat.ltb_spec (n - 1) (m mod n)); try lia.
    split; [lia|].
    destruct (Nat.lt_trichotomy p (m mod n)) as [Hlt|[Heq|Hgt]]; [|done|].
    - pose proof (Hsz p Hp) as H2. unfold share_size in H2.
      destruct (Nat.ltb_spec p p), (Nat.ltb_spec p (m mod n)); lia.
    - pose proof (Hsz (m mod n) Hrem) as H2. unfold share_size in H2.
      destruct (Nat.ltb_spec (m mod n) p), (Nat.ltb_spec (m mod n) (m mod n)); lia. }
  assert (forall t th, threads s !! t = Some th -> in_critical th = false) as Hnc.
  { intros t th Hth. pose proof (lookup_lt_Some _ _ _ Hth).
    unfold in_critical. by rewrite (li_joined_ret _ _ Hloc t th ltac:(lia) Hth). }
  assert (c = 0 /\ semaphores s = token_at n p) as [-> Hs].
  { destruct Htok as [Hs _|thp _ Hthp Hpc _|thp _ Hthp Hpc _]; [done| |].
    - specialize (Hnc _ _ Hthp). unfold in_critical in Hnc. by rewrite Hpc in Hnc.
    - specialize (Hnc _ _ Hthp). unfold in_critical in Hnc. by rewrite Hpc in Hnc. }
  split; [by rewrite Hs, Hpm|].
  apply (f_equal length) in Hem. rewrite !length_fmap, length_seq in Hem.
  rewrite Hem, Hr, Hpm. pose proof (Nat.div_mod_eq m n). lia.
Qed.
End Sync.

(** ** Unsynchronized mode *)

Section Chaos.
Variable td : list thread_data_t.
Hypothesis td_wf : ring_wf true td.
Variable sems0 : list sem_t.

Lemma chaos_inv_start : chaos_inv td sems0 (start sems0).
Proof. split_and!; [apply local_inv_start|done|constructor]. Qed.

Lemma chaos_inv_step a s s' :
  chaos_inv td sems0 s -> step td a s = Some s' -> chaos_inv td sems0 s'.
Proof.
  intros (Hloc & Hs & Htr) Hstep.
  split; [by eapply local_inv_step|].
  apply step_inv in Hstep.
  destruct Hstep as [data Hd|th Hd Hjl Hth Hret|t th sems' i' pc' evs Hth Hts];
    simpl; [done..|].
  destruct (td_wf t (t_data th) (li_data _ _ Hloc _ _ Hth))
    as (Hid & Hsw & Hss & Hmode & Hwc).
  destruct Hts; try congruence; rewrite ?app_nil_r; try done.
  split; [done|]. apply Forall_app. split; [done|]. by repeat constructor.
Qed.

Lemma chaos_inv_reachable s : reachable td sems0 s -> chaos_inv td sems0 s.
Proof.
  intros [k Hk]. remember (start sems0) as s0 eqn:Hs0.
  induction Hk as [|k s0 s s' a _ IH Hstep].
  - subst. apply chaos_inv_start.
  - eapply chaos_inv_step; [by apply IH|done].
Qed.

Lemma chaos_progress s :
  chaos_inv td sems0 s -> ~ completed td s -> exists a s', step td a s = Some s'.
Proof.
  intros (Hloc & Hs & Htr) Hnc. unfold completed in Hnc.
  pose proof (li_len _ _ Hloc) as Hlen.
  destruct (decide (length (threads s) < length td)) as [Hcr|Hall].
  { destruct (lookup_lt_is_Some_2 td _ Hcr) as [data Hd].
    eexists Main, _. apply step_complete. by constructor. }
  assert (td !! length (threads s) = None) as Hnone
    by (apply lookup_ge_None_2; lia).
  destruct (decide (Forall (fun th => is_ret (t_pc th) = true) (threads s)))
    as [Hret|Hnret].
  - destruct (lookup_lt_is_Some_2 (threads s) (joined s)) as [thj Hthj].
    { pose proof (li_joined _ _ Hloc). lia. }
    eexists Main, _. apply step_complete. eapply ss_join; [done| |done|].
    + pose proof (li_joined _ _ Hloc). lia.
    + rewrite Forall_lookup in Hret. specialize (Hret _ _ Hthj).
      by destruct (t_pc thj).
  - apply not_Forall_Exists in Hnret; [|apply _].
    apply Exists_exists in Hnret as (th & Hin & Hnr).
    apply list_elem_of_lookup in Hin as [t Hth]. simpl in Hnr.
    destruct (td_wf t (t_data th) (li_data _ _ Hloc _ _ Hth))
      as (Hid & Hsw & Hss & Hmode & Hwc).
    pose proof (li_pc _ _ Hloc _ _ Hth) as Hok. unfold pc_ok in Hok.
    assert (forall sems' i' pc' evs,
      thread_step (semaphores s) (t_data th) (t_i th) (t_pc th) sems' i' pc' evs ->
      exists a s', step td a s = Some s') as Hgo.
    { intros sems' i' pc' evs Hts. eexists (Worker t), _.
      apply step_complete. by econstructor. }
    destruct (t_pc th) eqn:Hpc; try done.
    + destruct (Nat.lt_ge_cases (t_i th) (word_count (t_data th))).
      * eapply Hgo. by apply ts_enter.
      * eapply Hgo. by apply ts_leave.
    + eapply Hgo. by apply ts_skip_wait.
    + destruct (lookup_lt_is_Some_2 (words (t_data th)) (t_i th) ltac:(lia)) as [w Hw].
      eapply Hgo. by apply (ts_print _ _ _ w).
    + eapply Hgo. by apply ts_skip_post.
Qed.
End Chaos.

(** ** What a finished run has done, in either mode *)

Lemma emits_share_events data :
  emits (share_events data) = (fun w => (thread_id data, w)) <$> words data.
Proof.
  unfold share_events. induction (words data) as [|w ws IH]; [done|].
  simpl. rewrite emits_app, IH. unfold item_events.
  destruct (is_chaos_mode data); done.
Qed.

Lemma run_steps td sched fuel : forall k s,
  exists j, steps td j s (run td sched fuel k s).
Proof.
  induction fuel as [|fuel IH]; intros k s; simpl.
  - exists 0. constructor.
  - destruct (_ !! _) as [a|]; [|exists 0; constructor].
    destruct (step td a s) as [s'|] eqn:Hstep; [|exists 0; constructor].
    destruct (IH (S k) s') as [j Hj]. exists (S j). by eapply steps_cons.
Qed.

Lemma run_reachable td sems sched fuel :
  reachable td sems (run td sched fuel 0 (start sems)).
Proof. apply run_steps. Qed.

Lemma reachable_step td sems a s s' :
  reachable td sems s -> step td a s = Some s' -> reachable td sems s'.
Proof. intros [k Hk] Hstep. exists (S k). by econstructor. Qed.

Section Completed.
Variable td : list thread_data_t.
Variable mode : bool.
Hypothesis td_wf : ring_wf mode td.

(** In every state a thread has done a beginning of what its share
    prescribes, and nothing else. *)
Lemma thread_events_prefix th :
  word_count (t_data th) = length (words (t_data th)) ->
  pc_ok th ->
  thread_events th `prefix_of` share_events (t_data th).
Proof.
  intros Hwc Hok. unfold thread_events, share_events, pc_ok in *.
  rewrite <- (take_drop (t_i th) (words (t_data th))) at 2.
  rewrite flat_map_app. apply prefix_app.
  destruct (t_pc th) eqn:Hpc; simpl; try apply prefix_nil.
  - destruct (lookup_lt_is_Some_2 (words (t_data th)) (t_i th) ltac:(lia)) as [w Hw].
    rewrite (drop_S _ _ _ Hw). simpl. unfold item_events.
    destruct (is_chaos_mode (t_data th)); simpl; [apply prefix_nil|].
    apply prefix_cons, prefix_nil.
  - destruct (lookup_lt_is_Some_2 (words (t_data th)) (t_i th) ltac:(lia)) as [w Hw].
    rewrite Hw, (drop_S _ _ _ Hw). simpl. unfold item_events.
    destruct (is_chaos_mode (t_data th)); simpl.
    + apply prefix_cons, prefix_nil.
    + do 2 apply prefix_cons. apply prefix_nil.
Qed.

Lemma events_prefix s t data :
  local_inv td s -> td !! t = Some data ->
  events_of t (trace s) `prefix_of` share_events data.
Proof.
  intros Hloc Hd. rewrite (li_events _ _ Hloc).
  destruct (threads s !! t) as [th|] eqn:Hth; [|apply prefix_nil].
  pose proof (li_data _ _ Hloc _ _ Hth) as Hd'. rewrite Hd in Hd'.
  injection Hd' as ->.
  apply thread_events_prefix; [|by eapply li_pc].
  by destruct (td_wf t _ Hd) as (_ & _ & _ & _ & ?).
Qed.

Lemma events_outside s t :
  local_inv td s -> length td <= t -> events_of t (trace s) = [].
Proof.
  intros Hloc Ht. rewrite (li_events _ _ Hloc).
  rewrite lookup_ge_None_2; [done|]. pose proof (li_len _ _ Hloc). lia.
Qed.

Lemma completed_threads s t data :
  local_inv td s -> completed td s -> td !! t = Some data ->
  threads s !! t = Some (mk_thread data (word_count data) Lret).
Proof.
  intros Hloc Hc Hd. unfold completed in Hc.
  pose proof (li_len _ _ Hloc). pose proof (li_joined _ _ Hloc).
  pose proof (lookup_lt_Some _ _ _ Hd) as Ht.
  destruct (lookup_lt_is_Some_2 (threads s) t ltac:(lia)) as [th Hth].
  rewrite Hth. pose proof (li_data _ _ Hloc _ _ Hth) as Hd'.
  rewrite Hd in Hd'. injection Hd' as Hdata.
  pose proof (li_joined_ret _ _ Hloc t th ltac:(lia) Hth) as Hpc.
  pose proof (li_pc _ _ Hloc _ _ Hth) as Hok. unfold pc_ok in Hok.
  rewrite Hpc in Hok. destruct th as [d i pc]. simpl in *. by subst.
Qed.

Lemma completed_events s t data :
  local_inv td s -> completed td s -> td !! t = Some data ->
  events_of t (trace s) = share_events data.
Proof.
  intros Hloc Hc Hd. rewrite (li_events _ _ Hloc).
  rewrite (completed_threads s t data Hloc Hc Hd).
  unfold thread_events, share_events. simpl.
  destruct (td_wf t _ Hd) as (_ & _ & _ & _ & ->).
  by rewrite take_ge, app_nil_r.
Qed.

Lemma emits_tid_bound s x :
  local_inv td s -> x ∈ emits (trace s) -> x.1 < length td.
Proof.
  intros Hloc Hx. destruct (decide (x.1 < length td)) as [|Hge]; [done|].
  exfalso. assert (x ∈ filter (fun y => y.1 = x.1) (emits (trace s))) as Hin
    by (by apply list_elem_of_filter).
  rewrite <- (emits_events_of (x.1) (trace s)) in Hin.
  rewrite (events_outside s (x.1) Hloc) in Hin by lia.
  by apply elem_of_nil in Hin.
Qed.

(** Every word of every share is printed exactly once. *)
Lemma completed_emits_perm s :
  local_inv td s -> completed td s ->
  (emits (trace s)).*2 ≡ₚ concat (words <$> td).
Proof.
  intros Hloc Hc.
  rewrite <- (bucket_perm fst snd (length td) (emits (trace s)))
    by (intros x Hx; by apply (emits_tid_bound s)).
  assert ((fun t => (filter (fun x => x.1 = t) (emits (trace s))).*2) <$> seq 0 (length td)
          = words <$> td) as ->; [|done].
  apply list_eq. intros t. rewrite !list_lookup_fmap.
  destruct (td !! t) as [data|] eqn:Hd.
  - rewrite lookup_seq_lt by (by eapply lookup_lt_Some). simpl. f_equal.
    rewrite <- emits_events_of, (completed_events s t data Hloc Hc Hd).
    rewrite emits_share_events, <- list_fmap_compose. apply list_fmap_id.
  - by rewrite lookup_seq_ge by (by apply lookup_ge_None_1).
Qed.
End Completed.

(** ** The rotation with drop-outs, as long as nobody has dropped out *)

Lemma filter_all {A} (P : A -> Prop) `{forall x, Decision (P x)} (l : list A) :
  Forall P l -> filter P l = l.
Proof.
  induction 1 as [|x l Hx _ IH]; [done|].
  rewrite filter_cons, IH. by destruct (decide (P x)).
Qed.

Lemma mod_seq n r len :
  len <= n -> (fun j => j mod n) <$> seq (n * r) len = seq 0 len.
Proof.
  intros Hlen. apply list_eq. intros i. rewrite list_lookup_fmap.
  destruct (decide (i < len)) as [Hlt|Hge].
  - rewrite !lookup_seq_lt by done. simpl. f_equal.
    by destruct (divmod_unique n r i ltac:(lia)) as [_ ->].
  - by rewrite !lookup_seq_ge by lia.
Qed.

Lemma flat_map_ext_Forall {A B} (f g : A -> list B) (l : list A) :
  Forall (fun x => f x = g x) l -> flat_map f l = flat_map g l.
Proof. induction 1 as [|x l Hx _ IH]; [done|]. simpl. by rewrite Hx, IH. Qed.

Lemma full_rounds_S n r : full_rounds n (S r) = full_rounds n r ++ seq 0 n.
Proof.
  unfold full_rounds. rewrite seq_S, flat_map_app. simpl. by rewrite app_nil_r.
Qed.

Lemma rotation_full n r : rotation n (n * r) = full_rounds n r.
Proof.
  induction r as [|r IH]; [by rewrite Nat.mul_0_r|].
  replace (n * S r) with (n * r + n) by lia.
  unfold rotation in *. rewrite seq_app, fmap_app, IH, full_rounds_S. f_equal.
  by apply mod_seq.
Qed.

Lemma rotation_split n r p :
  p <= n -> rotation n (n * r + p) = full_rounds n r ++ seq 0 p.
Proof.
  intros Hp. rewrite <- rotation_full. unfold rotation.
  rewrite seq_app, fmap_app. f_equal. by apply mod_seq.
Qed.

Lemma full_rounds_length n r : length (full_rounds n r) = n * r.
Proof.
  pose proof (rotation_split n r 0 ltac:(lia)) as Hs. simpl in Hs.
  rewrite app_nil_r in Hs. rewrite <- Hs. unfold rotation.
  rewrite length_fmap, length_seq. lia.
Qed.

Section Skipping.
Variable sizes : list nat.
Hypothesis sizes_pos : 0 < length sizes.

Local Abbreviation n := (length sizes).

Lemma skipping_take k :
  (forall j, j < k -> j / n < sizes !!! (j mod n)) ->
  take k (rotation_skipping sizes) = rotation n k.
Proof.
  intros Hin.
  pose proof (Nat.div_mod_eq k n) as Hk.
  pose proof (Nat.mod_upper_bound k n ltac:(lia)) as Hp.
  set (r0 := k / n) in *. set (p0 := k mod n) in *.
  assert (forall r t, t < n -> n * r + t < k -> r < sizes !!! t) as Hhave.
  { intros r t Ht Hlt. specialize (Hin _ Hlt).
    destruct (divmod_unique n r t Ht) as [Hq Hr]. by rewrite Hq, Hr in Hin. }
  assert (forall r, r < r0 -> rotation_round sizes r = seq 0 n) as Hfull.
  { intros r Hr. unfold rotation_round. apply filter_all.
    apply Forall_seq. intros t Ht. apply Hhave; [lia|nia]. }
  assert (r0 + (if decide (p0 = 0) then 0 else 1) <= max_list sizes) as Hmax.
  { destruct (decide (k = 0)) as [->|Hk0].
    { assert (r0 = 0) as -> by (subst r0; apply Nat.Div0.div_0_l).
      assert (p0 = 0) as -> by (subst p0; apply Nat.Div0.mod_0_l). simpl. lia. }
    assert (sizes !!! 0 <= max_list sizes) as Hle.
    { apply max_list_elem_of_le, list_elem_of_lookup_total_2. lia. }
    destruct (decide (p0 = 0)) as [Hp0|Hp0].
    - pose proof (Hhave (r0 - 1) 0 ltac:(lia) ltac:(nia)). lia.
    - pose proof (Hhave r0 0 ltac:(lia) ltac:(lia)). lia. }
  unfold rotation_skipping.
  replace (max_list sizes) with (r0 + (max_list sizes - r0)) by lia.
  rewrite seq_app, flat_map_app. simpl.
  assert (flat_map (rotation_round sizes) (seq 0 r0) = full_rounds n r0) as ->.
  { unfold full_rounds. apply flat_map_ext_Forall, Forall_seq.
    intros r Hr. apply Hfull. lia. }
  rewrite Hk, rotation_split by lia.
  destruct (decide (p0 = 0)) as [Hp0|Hp0].
  - rewrite Hp0, Nat.add_0_r, app_nil_r. simpl.
    apply take_app_length'. by rewrite full_rounds_length.
  - destruct (max_list sizes - r0) as [|d] eqn:Hd; [lia|]. simpl.
    assert (rotation_round sizes r0
            = seq 0 p0 ++ filter (fun t => r0 < sizes !!! t) (seq p0 (n - p0))) as ->.
    { unfold rotation_round.
      replace n with (p0 + (n - p0)) at 1 by lia.
      rewrite seq_app, filter_app. simpl. f_equal.
      apply filter_all, Forall_seq. intros t Ht. apply Hhave; lia. }
    rewrite <- !app_assoc, app_assoc.
    apply take_app_length'. rewrite length_app, full_rounds_length, length_seq. lia.
Qed.
End Skipping.

(** ** Reasoning about procedures that exit on the first failed call *)

Lemma fail_fast_bind {A B} (c : proc A) (f : A -> proc B) w k1 k2 Q R :
  fail_fast c w k1 Q ->
  (forall a w', Q a w' -> after w k1 w' -> fail_fast (f a) w' k2 R) ->
  fail_fast (bind c f) w (k1 + k2) R.
Proof.
  intros [Hok Hfail] Hf. split.
  - intros Hg. destruct Hok as (a & w' & Hc & HQ & Haft).
    { intros j Hj. apply Hg. lia. }
    destruct (Hf a w' HQ Haft) as [Hok2 _].
    destruct Haft as (Hcalls & Hor & Hsch & Herr).
    destruct Hok2 as (b & w'' & Hfa & HR & (Hcalls2 & Hor2 & Hsch2 & Herr2)).
    { intros j Hj. rewrite Hor, Hcalls, <- Nat.add_assoc. apply Hg. lia. }
    exists b, w''. unfold bind, after. rewrite Hc.
    split_and!; try done; try congruence. lia.
  - intros j Hj Hg Hbad. destruct (decide (j < k1)) as [Hlt|Hge].
    + destruct (Hfail j Hlt Hg Hbad) as (w' & msg & Hc & Hcalls & Herr).
      exists w', msg. unfold bind. by rewrite Hc.
    + destruct Hok as (a & w' & Hc & HQ & Haft).
      { intros i Hi. apply Hg. lia. }
      destruct (Hf a w' HQ Haft) as [_ Hfail2].
      destruct Haft as (Hcalls & Hor & Hsch & Herr).
      destruct (Hfail2 (j - k1)) as (w'' & msg & Hfa & Hcalls2 & Herr2).
      * lia.
      * intros i Hi. rewrite Hor, Hcalls, <- Nat.add_assoc. apply Hg. lia.
      * rewrite Hor, Hcalls, <- Nat.add_assoc. by replace (k1 + (j - k1)) with j by lia.
      * exists w'', msg. unfold bind. rewrite Hc. split_and!; [done|lia|congruence].
Qed.

Lemma fail_fast_weaken {A} (c : proc A) w k (Q R : A -> world -> Prop) :
  fail_fast c w k Q -> (forall a w', Q a w' -> after w k w' -> R a w') ->
  fail_fast c w k R.
Proof.
  intros [Hok Hfail] HQR. split; [|done].
  intros Hg. destruct (Hok Hg) as (a & w' & Hc & HQ & Haft). eauto 10.
Qed.

(** A step that cannot fail. *)
Lemma fail_fast_pure {A} (c : proc A) w a w' (Q : A -> world -> Prop) :
  c w = Ret a w' -> after w 0 w' -> Q a w' -> fail_fast c w 0 Q.
Proof.
  intros Hc Haft HQ. split; [eauto 10|]. intros j Hj. lia.
Qed.

Lemma fail_fast_checked msg w :
  fail_fast (checked msg) w 1 (fun _ w' => same_data w w').
Proof.
  split.
  - intros Hg. specialize (Hg 0 ltac:(lia)). rewrite Nat.add_0_r in Hg.
    eexists tt, _. unfold checked, bind, lib_call. rewrite Hg. simpl.
    split_and!; try done. unfold after. simpl. split_and!; try done. lia.
  - intros j Hj _ Hbad. assert (j = 0) as -> by lia. rewrite Nat.add_0_r in Hbad.
    eexists _, msg. unfold checked, bind, lib_call, perror, exit. rewrite Hbad. simpl.
    split_and!; [reflexivity|simpl; lia|done].
Qed.

Lemma fail_fast_for_each {A} (body : A -> proc unit) (I : world -> Prop) k l :
  forall w,
  (forall x w0, x ∈ l -> I w0 -> fail_fast (body x) w0 k (fun _ w1 => I w1)) ->
  I w ->
  fail_fast (for_each l body) w (length l * k) (fun _ w' => I w').
Proof.
  induction l as [|x l IH]; intros w Hbody HI.
  - simpl. apply (fail_fast_pure _ w tt w); [done| |done].
    unfold after. split_and!; [lia|done..].
  - simpl. eapply fail_fast_bind.
    + apply Hbody; [by left|done].
    + intros [] w' HI' _. apply IH; [|done].
      intros y w0 Hy. apply Hbody. by right.
Qed.

Lemma fail_fast_ext {A} (c c' : proc A) w k k' Q :
  c w = c' w -> k = k' -> fail_fast c' w k' Q -> fail_fast c w k Q.
Proof. intros Hc -> H. unfold fail_fast in *. by rewrite Hc. Qed.

Lemma after_0 w : after w 0 w.
Proof. unfold after. split_and!; [lia|done..]. Qed.

(** ** The procedures of the program *)

Lemma token_loop_ok tokens : forall w,
  length (w_all_words w) + length tokens <= w_total_words w ->
  fail_fast (token_loop tokens) w (length tokens)
    (fun _ w' => w_all_words w' = w_all_words w ++ tokens
                 /\ w_total_words w' = w_total_words w
                 /\ w_semaphores w' = w_semaphores w
                 /\ w_trace w' = w_trace w).
Proof.
  induction tokens as [|token tokens IH]; intros w Hlen.
  - apply (fail_fast_pure _ w tt w); [done|apply after_0|].
    by rewrite app_nil_r.
  - simpl in Hlen.
    eapply (fail_fast_ext _
             (checked "strdup failed" ;;;
              set_words (w_all_words w ++ [token]) (w_total_words w) ;;;
              token_loop tokens) _ _ (1 + (0 + length tokens))); [| done |].
    { simpl. destruct (Nat.ltb_spec (length (w_all_words w)) (w_total_words w)); [done|lia]. }
    eapply fail_fast_bind; [apply fail_fast_checked|].
    intros [] w1 (Htr1 & Hs1 & Hw1 & Ht1) _.
    eapply fail_fast_bind.
    + eapply (fail_fast_pure _ w1 tt _ (fun _ w2 =>
                w_all_words w2 = w_all_words w ++ [token]
                /\ w_total_words w2 = w_total_words w
                /\ w_semaphores w2 = w_semaphores w
                /\ w_trace w2 = w_trace w)); [done| |done].
      unfold after. simpl. split_and!; [lia|done..].
    + intros [] w2 (Hw2 & Ht2 & Hs2 & Htr2) _.
      eapply fail_fast_weaken.
      * apply IH. rewrite Hw2, Ht2, length_app. simpl. lia.
      * intros [] w3 (Hw3 & Ht3 & Hs3 & Htr3) _.
        rewrite Hw3, Hw2, <- app_assoc. split_and!; try done; congruence.
Qed.

Lemma paragraph_total : count_spaces paragraph 0 + 1 = 33.
Proof. vm_compute. reflexivity. Qed.

Lemma paragraph_tokens : length (strtok_all None paragraph) = 33.
Proof. vm_compute. reflexivity. Qed.

Lemma split_body_ok total tokens w :
  length tokens <= total ->
  fail_fast (set_words [] total ;;;
             checked "malloc failed" ;;;
             checked "strdup failed" ;;;
             token_loop tokens ;;;
             ret total) w (2 + length tokens)
    (fun a w' => a = total /\ w_all_words w' = tokens
                 /\ w_total_words w' = total
                 /\ w_semaphores w' = w_semaphores w
                 /\ w_trace w' = w_trace w).
Proof.
  intros Hlen.
  eapply (fail_fast_ext _ _ _ _ (0 + (1 + (1 + (length tokens + 0))))); [done|lia|].
  eapply fail_fast_bind.
  { eapply (fail_fast_pure _ w tt _ (fun _ w1 =>
              w_all_words w1 = [] /\ w_total_words w1 = total
              /\ w_semaphores w1 = w_semaphores w /\ w_trace w1 = w_trace w));
      [done| |done].
    unfold after. cbn [w_calls w_oracle w_sched w_stderr]. split_and!; [lia|done..]. }
  intros [] w1 (Hw1 & Ht1 & Hs1 & Htr1) _.
  eapply fail_fast_bind; [apply fail_fast_checked|].
  intros [] w2 (Htr2 & Hs2 & Hw2 & Ht2) _.
  eapply fail_fast_bind; [apply fail_fast_checked|].
  intros [] w3 (Htr3 & Hs3 & Hw3 & Ht3) _.
  eapply fail_fast_bind.
  { apply token_loop_ok. rewrite Hw3, Hw2, Hw1, Ht3, Ht2, Ht1. cbn [length]. lia. }
  intros [] w4 (Hw4 & Ht4 & Hs4 & Htr4) _.
  apply (fail_fast_pure _ w4 total w4); [done|apply after_0|].
  rewrite Hw4, Hw3, Hw2, Hw1. split_and!; [done|done|congruence..].
Qed.

Lemma split_paragraph_into_words_ok w :
  fail_fast split_paragraph_into_words w 35
    (fun a w' => a = 33 /\ w_all_words w' = strtok_all None paragraph
                 /\ w_total_words w' = 33
                 /\ w_semaphores w' = w_semaphores w
                 /\ w_trace w' = w_trace w).
Proof.
  pose proof (split_body_ok 33 (strtok_all None paragraph) w) as H.
  rewrite paragraph_tokens in H. specialize (H (Nat.le_refl 33)).
  unfold split_paragraph_into_words. rewrite paragraph_total. exact H.
Qed.

Section RingProcs.
Variable n : nat.

Lemma lookup_foldl_insert (l : list nat) : forall (s : list sem_t) i,
  foldl (fun s j => <[j := init_value j]> s) s l !! i
  = if decide (i ∈ l) then (if decide (i < length s) then Some (init_value i) else None)
    else s !! i.
Proof.
  induction l as [|x l IH]; intros s i; simpl.
  - destruct (decide (i ∈ [])) as [Hin|]; [by apply elem_of_nil in Hin|done].
  - rewrite IH, length_insert.
    destruct (decide (i ∈ x :: l)) as [Hin|Hnin], (decide (i ∈ l)) as [Hin'|Hnin'];
      try done.
    + apply elem_of_cons in Hin as [->|?]; [|done].
      destruct (decide (x < length s)).
      * by rewrite list_lookup_insert_eq.
      * apply lookup_ge_None_2. rewrite length_insert. lia.
    + destruct Hnin. by right.
    + rewrite list_lookup_insert_ne; [done|]. intros ->. apply Hnin. by left.
Qed.

Lemma init_fold (s : list sem_t) :
  length s = n ->
  foldl (fun s j => <[j := init_value j]> s) s (seq 0 n) = ring_init n.
Proof.
  intros Hlen. apply list_eq. intros i. rewrite lookup_foldl_insert.
  unfold ring_init. rewrite list_lookup_fmap.
  destruct (decide (i ∈ seq 0 n)) as [Hin|Hnin].
  - apply elem_of_seq in Hin. destruct (decide (i < length s)); [|lia].
    by rewrite lookup_seq_lt by lia.
  - rewrite elem_of_seq in Hnin. rewrite lookup_seq_ge by lia.
    apply lookup_ge_None_2. lia.
Qed.

Lemma init_loop_ok (l : list nat) : forall w,
  fail_fast
    (for_each l (fun i =>
       do ok <- lib_call ;
       if ok : bool
       then (fun w => set_semaphores
                        (<[i := sem_init (if i =? 0 then 1 else 0)]> (w_semaphores w)) w)
       else (perror "sem_init failed" ;;; exit EXIT_FAILURE)))
    w (length l)
    (fun _ w' => w_semaphores w'
                 = foldl (fun s j => <[j := init_value j]> s) (w_semaphores w) l
                 /\ w_all_words w' = w_all_words w
                 /\ w_total_words w' = w_total_words w
                 /\ w_trace w' = w_trace w).
Proof.
  induction l as [|i l IH]; intros w.
  - apply (fail_fast_pure _ w tt w); [done|apply after_0|done].
  - simpl. eapply (fail_fast_ext _ _ _ _ (1 + length l)); [done|done|].
    eapply fail_fast_bind.
    + instantiate (1 := fun _ w1 =>
        w_semaphores w1 = <[i := init_value i]> (w_semaphores w)
        /\ w_all_words w1 = w_all_words w /\ w_total_words w1 = w_total_words w
        /\ w_trace w1 = w_trace w).
      split.
      * intros Hg. specialize (Hg 0 ltac:(lia)). rewrite Nat.add_0_r in Hg.
        eexists tt, _. unfold bind, lib_call, set_semaphores. rewrite Hg. simpl.
        split_and!; try done. unfold after. simpl. split_and!; [lia|done..].
      * intros j Hj _ Hbad. assert (j = 0) as -> by lia.
        rewrite Nat.add_0_r in Hbad.
        eexists _, "sem_init failed"%string.
        unfold bind, lib_call, perror, exit. rewrite Hbad. simpl.
        split_and!; [reflexivity|simpl; lia|done].
    + intros [] w1 (Hs1 & Hw1 & Ht1 & Htr1) _.
      eapply fail_fast_weaken; [apply IH|].
      intros [] w2 (Hs2 & Hw2 & Ht2 & Htr2) _.
      rewrite Hs2, Hs1. split_and!; try done; congruence.
Qed.

Lemma init_semaphores_ok w :
  length (w_semaphores w) = n ->
  fail_fast (init_semaphores n) w n
    (fun _ w' => w_semaphores w' = ring_init n
                 /\ w_all_words w' = w_all_words w
                 /\ w_total_words w' = w_total_words w
                 /\ w_trace w' = w_trace w).
Proof.
  intros Hlen. unfold init_semaphores.
  eapply (fail_fast_ext _ _ _ _ (length (seq 0 n))); [done|by rewrite length_seq|].
  eapply fail_fast_weaken; [apply init_loop_ok|].
  intros [] w' (Hs & Hw & Ht & Htr) _. by rewrite Hs, init_fold.
Qed.

Lemma destroy_fold_length (l : list nat) : forall s : list sem_t,
  length (foldl (fun s j => alter sem_destroy j s) s l) = length s.
Proof.
  induction l as [|x l IH]; intros s; simpl; [done|].
  by rewrite IH, length_alter.
Qed.

Lemma destroy_loop_ok (l : list nat) : forall w,
  fail_fast
    (for_each l (fun i => fun w => set_semaphores (alter sem_destroy i (w_semaphores w)) w))
    w 0
    (fun _ w' => w_semaphores w'
                 = foldl (fun s j => alter sem_destroy j s) (w_semaphores w) l
                 /\ w_all_words w' = w_all_words w
                 /\ w_total_words w' = w_total_words w
                 /\ w_trace w' = w_trace w).
Proof.
  induction l as [|i l IH]; intros w.
  - apply (fail_fast_pure _ w tt w); [done|apply after_0|done].
  - simpl. eapply (fail_fast_ext _ _ _ _ (0 + 0)); [done|done|].
    eapply fail_fast_bind.
    + eapply (fail_fast_pure _ w tt _ (fun _ w1 =>
        w_semaphores w1 = alter sem_destroy i (w_semaphores w)
        /\ w_all_words w1 = w_all_words w /\ w_total_words w1 = w_total_words w
        /\ w_trace w1 = w_trace w)); [done| |done].
      unfold after. simpl. split_and!; [lia|done..].
    + intros [] w1 (Hs1 & Hw1 & Ht1 & Htr1) _.
      eapply fail_fast_weaken; [apply IH|].
      intros [] w2 (Hs2 & Hw2 & Ht2 & Htr2) _.
      rewrite Hs2, Hs1. split_and!; try done; congruence.
Qed.

Lemma destroy_semaphores_ok w :
  fail_fast (destroy_semaphores n) w 0
    (fun _ w' => length (w_semaphores w') = length (w_semaphores w)
                 /\ w_all_words w' = w_all_words w
                 /\ w_total_words w' = w_total_words w
                 /\ w_trace w' = w_trace w).
Proof.
  unfold destroy_semaphores.
  eapply fail_fast_weaken; [apply destroy_loop_ok|].
  intros [] w' (Hs & Hw & Ht & Htr) _. by rewrite Hs, destroy_fold_length.
Qed.

Lemma reset_semaphores_ok w :
  length (w_semaphores w) = n ->
  fail_fast (reset_semaphores n) w n
    (fun _ w' => w_semaphores w' = ring_init n
                 /\ w_all_words w' = w_all_words w
                 /\ w_total_words w' = w_total_words w
                 /\ w_trace w' = w_trace w).
Proof.
  intros Hlen. unfold reset_semaphores.
  eapply (fail_fast_ext _ _ _ _ (0 + n)); [done|done|].
  eapply fail_fast_bind; [apply destroy_semaphores_ok|].
  intros [] w1 (Hl1 & Hw1 & Ht1 & Htr1) _.
  eapply fail_fast_weaken; [apply init_semaphores_ok; congruence|].
  intros [] w2 (Hs2 & Hw2 & Ht2 & Htr2) _. split_and!; try done; congruence.
Qed.
End RingProcs.

(** ** Running the threads *)

Lemma run_threads_ok mode td w (Inv : state -> Prop) :
  ring_wf mode td ->
  (forall s, Inv s -> local_inv td s) ->
  (forall a s s', Inv s -> step td a s = Some s' -> Inv s') ->
  (forall s, Inv s -> ~ completed td s -> exists a s', step td a s = Some s') ->
  Inv (start (w_semaphores w)) ->
  fail_fast (run_threads mode td) w (length td * 2)
    (fun _ w' => exists s,
       reachable td (w_semaphores w) s /\ completed td s /\ Inv s
       /\ w_semaphores w' = semaphores s
       /\ w_trace w' = w_trace w ++ trace s
       /\ w_all_words w' = w_all_words w
       /\ w_total_words w' = w_total_words w).
Proof.
  intros Hwf Hloc Hstep Hprog Hinit. unfold run_threads.
  eapply (fail_fast_ext _ _ _ _ (length td * 2 + 0)); [done|lia|].
  eapply fail_fast_bind.
  - apply (fail_fast_for_each _ (fun w0 => same_data w w0 /\ w_sched w0 = w_sched w)).
    + intros data w0 _ [(Htr0 & Hs0 & Hw0 & Ht0) Hsch0].
      eapply (fail_fast_ext _ _ _ _ (1 + 1)); [done|done|].
      eapply fail_fast_bind; [apply fail_fast_checked|].
      intros [] w1 (Htr1 & Hs1 & Hw1 & Ht1) (_ & _ & Hsch1 & _).
      eapply fail_fast_weaken; [apply fail_fast_checked|].
      intros [] w2 (Htr2 & Hs2 & Hw2 & Ht2) (_ & _ & Hsch2 & _).
      unfold same_data. split_and!; congruence.
    + by unfold same_data.
  - intros [] w1 [(Htr1 & Hs1 & Hw1 & Ht1) Hsch1] _.
    set (s0 := start (w_semaphores w1)).
    set (s := run td (w_sched w1 mode) (measure td s0) 0 s0).
    destruct (run_completes td Inv Hloc Hstep Hprog
                (w_sched w1 mode) (measure td s0) 0 s0) as (Hc & Hi & Hsteps).
    { subst s0. by rewrite Hs1. }
    { done. }
    fold s in Hc, Hi, Hsteps.
    eapply (fail_fast_pure _ w1 tt); [| |exists s; split_and!].
    + simpl. fold s0. fold s. unfold completed in Hc. rewrite Hc, Nat.eqb_refl. done.
    + unfold after. simpl. split_and!; [lia|done..].
    + rewrite <- Hs1. eexists. exact Hsteps.
    + done.
    + done.
    + done.
    + simpl. by rewrite Htr1.
    + done.
    + done.
Qed.

Section PrintParagraph.
Variable n : nat.
Hypothesis n_pos : 0 < n.

Lemma run_threads_spec mode td w :
  length td = n -> ring_wf mode td -> balanced (w_total_words w) td ->
  length (w_semaphores w) = n ->
  (mode = false -> w_semaphores w = ring_init n) ->
  fail_fast (run_threads mode td) w (n * 2)
    (fun _ w' => length (w_semaphores w') = n
                 /\ (mode = false ->
                     w_semaphores w' = token_at n (w_total_words w mod n))
                 /\ (mode = true -> w_semaphores w' = w_semaphores w)
                 /\ w_all_words w' = w_all_words w
                 /\ w_total_words w' = w_total_words w).
Proof.
  intros Hlen Hwf Hbal Hsl Hring. rewrite <- Hlen at 1. destruct mode.
  - eapply fail_fast_weaken.
    + apply (run_threads_ok true td w (chaos_inv td (w_semaphores w))); [done| | | |].
      * by intros s [? _].
      * by apply chaos_inv_step.
      * by apply chaos_progress.
      * apply chaos_inv_start.
    + intros [] w' (s & _ & _ & (_ & Hs & _) & Hs' & _ & Hw & Ht) _.
      split_and!; try done; congruence.
  - assert (0 < length td) as Hpos by lia.
    specialize (Hring eq_refl).
    eapply fail_fast_weaken.
    + apply (run_threads_ok false td w (sync_inv td)); [done| | | |].
      * by intros s [? _].
      * by apply sync_inv_step.
      * by apply (sync_progress td Hwf Hpos (w_total_words w)).
      * rewrite Hring, <- Hlen. by apply sync_inv_start.
    + intros [] w' (s & _ & Hc & Hi & Hs' & _ & Hw & Ht) _.
      destruct (sync_completed td Hpos (w_total_words w) Hbal s Hi Hc) as [Hs _].
      rewrite Hlen in Hs. rewrite Hs', Hs, token_at_length. done.
Qed.

Lemma strided_print_paragraph_spec : print_paragraph_spec n (Strided.print_paragraph n).
Proof.
  intros mode w Hwords Hsl Hring. unfold Strided.print_paragraph.
  eapply (fail_fast_ext _
           (run_threads mode (strided_data n (w_all_words w) mode <$> seq 0 n)));
    [|done|].
  { rewrite Hwords, Nat.eqb_refl. by rewrite strided_thread_data. }
  apply run_threads_spec; try done.
  - by rewrite length_fmap, length_seq.
  - by apply strided_ring_wf.
  - rewrite <- Hwords. apply strided_balanced.
Qed.

Lemma blocked_print_paragraph_spec : print_paragraph_spec n (Blocked.print_paragraph n).
Proof.
  intros mode w Hwords Hsl Hring. unfold Blocked.print_paragraph.
  eapply (fail_fast_ext _
           (run_threads mode (blocked_data n (w_all_words w) mode <$> seq 0 n)));
    [|done|].
  { rewrite Hwords, Nat.eqb_refl. by rewrite blocked_thread_data. }
  apply run_threads_spec; try done.
  - by rewrite length_fmap, length_seq.
  - by apply blocked_ring_wf.
  - rewrite <- Hwords. apply blocked_balanced.
Qed.

Lemma main_of_ok pp w :
  print_paragraph_spec n pp ->
  length (w_semaphores w) = n ->
  fail_fast (main_of n pp) w (main_calls n) (fun a _ => a = 0%Z).
Proof.
  intros Hpp Hsl. unfold main_of, main_calls.
  eapply (fail_fast_ext _ _ _ _ (35 + (n + (n * 2 + (n + (n * 2 + (0 + (0 + 0))))))));
    [done|lia|].
  eapply fail_fast_bind; [apply split_paragraph_into_words_ok|].
  intros a1 w1 (_ & Hw1 & Ht1 & Hs1 & _) _.
  eapply fail_fast_bind; [apply init_semaphores_ok; congruence|].
  intros [] w2 (Hs2 & Hw2 & Ht2 & _) _.
  eapply fail_fast_bind.
  { apply (Hpp false).
    - rewrite Hw2, Ht2, Hw1, Ht1. apply paragraph_tokens.
    - rewrite Hs2. unfold ring_init. by rewrite length_fmap, length_seq.
    - done. }
  intros [] w3 (Hl3 & _ & _ & Hw3 & Ht3) _.
  eapply fail_fast_bind; [by apply reset_semaphores_ok|].
  intros [] w4 (Hs4 & Hw4 & Ht4 & _) _.
  eapply fail_fast_bind.
  { apply (Hpp true).
    - rewrite Hw4, Ht4, Hw3, Ht3, Hw2, Ht2, Hw1, Ht1. apply paragraph_tokens.
    - rewrite Hs4. unfold ring_init. by rewrite length_fmap, length_seq.
    - done. }
  intros [] w5 _ _.
  eapply fail_fast_bind; [apply destroy_semaphores_ok|].
  intros [] w6 _ _.
  eapply fail_fast_bind.
  { eapply (fail_fast_pure free_words w6 tt _ (fun _ _ => True)); [reflexivity| |done].
    unfold after. cbn [w_calls w_oracle w_sched w_stderr]. split_and!; [lia|done..]. }
  intros [] w7 _ _.
  by apply (fail_fast_pure _ w7 0%Z w7); [|apply after_0|].
Qed.
End PrintParagraph.

(** ** The argument blocks either revision builds *)

Lemma words_strided n ws mode :
  words <$> (strided_data n ws mode <$> seq 0 n) = strided_share n ws <$> seq 0 n.
Proof. rewrite <- list_fmap_compose. by apply list_fmap_ext. Qed.

Lemma words_blocked n ws mode :
  words <$> (blocked_data n ws mode <$> seq 0 n) = blocked_share n ws <$> seq 0 n.
Proof. rewrite <- list_fmap_compose. by apply list_fmap_ext. Qed.

Lemma partitioned_inv n ws mode td :
  0 < n -> partitioned n ws mode td ->
  td = strided_data n ws mode <$> seq 0 n \/ td = blocked_data n ws mode <$> seq 0 n.
Proof.
  intros Hn [H|H].
  - left. rewrite strided_thread_data in H by done. by injection H.
  - right. rewrite blocked_thread_data in H by done. by injection H.
Qed.

Lemma partitioned_facts n ws mode td :
  0 < n -> partitioned n ws mode td ->
  length td = n /\ ring_wf mode td /\ balanced (length ws) td
  /\ concat (words <$> td) ≡ₚ ws.
Proof.
  intros Hn Hp. destruct (partitioned_inv n ws mode td Hn Hp) as [-> | ->].
  - split_and!.
    + by rewrite length_fmap, length_seq.
    + by apply strided_ring_wf.
    + apply strided_balanced.
    + rewrite words_strided. by apply strided_shares_perm.
  - split_and!.
    + by rewrite length_fmap, length_seq.
    + by apply blocked_ring_wf.
    + apply blocked_balanced.
    + rewrite words_blocked. by rewrite blocked_shares_concat.
Qed.

Lemma balanced_sum n m td :
  0 < n -> length td = n -> balanced m td ->
  sum_list_with word_count td = m.
Proof.
  intros Hn Hlen Hbal.
  assert (word_count <$> td = share_size n m <$> seq 0 n) as Heq.
  { apply list_eq. intros t. rewrite !list_lookup_fmap.
    destruct (td !! t) as [data|] eqn:Hd.
    - rewrite lookup_seq_lt by (apply lookup_lt_Some in Hd; lia). simpl.
      by rewrite (Hbal _ _ Hd), Hlen.
    - rewrite lookup_seq_ge; [done|]. apply lookup_ge_None_1 in Hd. lia. }
  transitivity (sum_list (word_count <$> td)).
  - clear. induction td; simpl; [done|]. by rewrite IHtd.
  - rewrite Heq, share_size_sum by lia. by apply block_offset_full.
Qed.

Lemma balanced_measure n m td sems :
  0 < n -> length td = n -> balanced m td ->
  measure td (start sems) = 4 * m + 3 * n.
Proof.
  intros Hn Hlen Hbal. rewrite measure_start, Hlen.
  assert (sum_list_with data_measure td = 4 * sum_list_with word_count td + 2 * length td)
    as ->.
  { clear. induction td as [|d td IH]; simpl; [done|]. unfold data_measure at 1. lia. }
  rewrite (balanced_sum n m td) by done. lia.
Qed.

Lemma sum_list_with_ext {A} (f g : A -> nat) (l : list A) :
  Forall (fun x => f x = g x) l -> sum_list_with f l = sum_list_with g l.
Proof. induction 1 as [|x l Hx _ IH]; simpl; [done|]. by rewrite Hx, IH. Qed.

Lemma even_split_of n m mode td :
  0 < n -> length td = n -> ring_wf mode td -> balanced m td -> even_split n m td.
Proof.
  intros Hn Hlen Hwf Hbal. split_and!; [done| |].
  - intros t data Hd. destruct (Hwf _ _ Hd) as (_ & _ & _ & _ & Hwc).
    split; [done|]. rewrite <- Hwc, (Hbal _ _ Hd), Hlen. done.
  - rewrite <- (balanced_sum n m td Hn Hlen Hbal).
    apply sum_list_with_ext, Forall_lookup. intros t data Hd.
    by destruct (Hwf _ _ Hd) as (_ & _ & _ & _ & ->).
Qed.

Lemma strided_rotation_item n ws mode j w :
  0 < n -> ws !! j = Some w ->
  rotation_item (strided_data n ws mode <$> seq 0 n) j = Some (j mod n, w).
Proof.
  intros Hn Hj. unfold rotation_item. rewrite length_fmap, length_seq.
  pose proof (Nat.mod_upper_bound j n ltac:(lia)) as Hlt.
  pose proof (Nat.div_mod_eq j n) as Hdm.
  rewrite list_lookup_fmap, lookup_seq_lt by done. simpl.
  rewrite strided_share_lookup by done.
  assert (j mod n + n * (j / n) = j) as Hpos by lia.
  assert (j / n < share_size n (length ws) (j mod n)) as Hsz.
  { apply share_size_lt; [done..|]. rewrite Hpos. by eapply lookup_lt_Some. }
  destruct (Nat.ltb_spec (j / n) (share_size n (length ws) (j mod n))); [|lia].
  by rewrite Hpos, Hj.
Qed.

Lemma run_to_completion n ws mode td sched :
  0 < n -> partitioned n ws mode td ->
  let s := run td sched (4 * length ws + 3 * n) 0 (start (ring_init n)) in
  completed td s /\ reachable td (ring_init n) s.
Proof.
  intros Hn Hp s.
  destruct (partitioned_facts n ws mode td Hn Hp) as (Hlen & Hwf & Hbal & _).
  assert (0 < length td) as Hpos by lia.
  assert (measure td (start (ring_init n)) = 4 * length ws + 3 * n) as Hm
    by (by apply balanced_measure).
  split; [|apply run_reachable]. subst s. destruct mode.
  - destruct (run_completes td (chaos_inv td (ring_init n))
                (fun s H => proj1 H) (chaos_inv_step td Hwf (ring_init n))
                (chaos_progress td Hwf (ring_init n))
                sched (4 * length ws + 3 * n) 0 (start (ring_init n)))
      as (Hc & _ & _); [apply chaos_inv_start|lia|done].
  - destruct (run_completes td (sync_inv td)
                (fun s H => proj1 H) (sync_inv_step td Hwf Hpos)
                (sync_progress td Hwf Hpos (length ws) Hbal)
                sched (4 * length ws + 3 * n) 0 (start (ring_init n)))
      as (Hc & _ & _); [|lia|done].
    rewrite <- Hlen. by apply sync_inv_start.
Qed.

Lemma sync_completed_emits td m s x :
  ring_wf false td -> 0 < length td -> balanced m td ->
  reachable td (ring_init (length td)) s -> completed td s ->
  rotation_item td <$> seq 0 m = Some <$> x ->
  emits (trace s) = x.
Proof.
  intros Hwf Hpos Hbal Hs Hc Hx.
  pose proof (sync_inv_reachable td Hwf Hpos s Hs) as Hinv.
  destruct (sync_completed td Hpos m Hbal s Hinv Hc) as [_ Hcount].
  pose proof (sync_emits td s Hinv) as Hem. rewrite Hcount, Hx in Hem.
  by apply (inj (fmap Some)) in Hem.
Qed.

Lemma first_failure_None oracle k :
  first_failure oracle k = None -> forall j, j < k -> oracle j = true.
Proof.
  unfold first_failure. intros Hf j Hj.
  destruct (list_find _ _) as [[i x]|] eqn:Hfind; [done|].
  apply list_find_None in Hfind. rewrite Forall_lookup in Hfind.
  specialize (Hfind j j (lookup_seq_lt 0 k j Hj)). by destruct (oracle j).
Qed.

Lemma first_failure_Some oracle k j :
  first_failure oracle k = Some j ->
  j < k /\ oracle j = false /\ forall i, i < j -> oracle i = true.
Proof.
  unfold first_failure. intros Hf.
  destruct (list_find _ _) as [[i x]|] eqn:Hfind; [|done].
  simpl in Hf. injection Hf as ->.
  apply list_find_Some in Hfind as (Hl & Hx & Hbefore).
  apply lookup_seq in Hl as [-> Hlt]. simpl in *. split_and!; [done..|].
  intros i Hi. specialize (Hbefore i i (lookup_seq_lt 0 k i ltac:(lia)) Hi).
  by destruct (oracle i).
Qed.

Lemma fail_fast_exits (c : proc Z) oracle sched k :
  fail_fast c (boot oracle sched) k (fun a _ => a = 0%Z) ->
  exits_fail_fast oracle k (c (boot oracle sched)).
Proof.
  intros [Hok Hfail]. unfold exits_fail_fast.
  destruct (first_failure oracle k) as [j|] eqn:Hf.
  - destruct (first_failure_Some oracle k j Hf) as (Hj & Hbad & Hbefore).
    destruct (Hfail j Hj) as (w' & msg & Hc & Hcalls & Herr).
    { intros i Hi. simpl. by apply Hbefore. }
    { done. }
    rewrite Hc. simpl in *. split_and!; eauto.
  - destruct Hok as (a & w' & Hc & -> & (Hcalls & _ & _ & Herr)).
    { intros j Hj. simpl. by apply (first_failure_None oracle k). }
    rewrite Hc. simpl in *. split_and!; eauto.
Qed.

(** ** The claims *)

(** C1. Take any ring of N >= 1 workers in synchronized mode, with shares
    of any sizes, started from the initial ring.  In every state any
    interleaving can reach: the worker ids of the lines printed so far are
    0,1,...,N-1,0,1,... cut to the number of lines printed; this is also
    the rotation in which a worker is skipped once its share is used up,
    cut to the same length; and at most one worker is between its
    [sem_wait] and its [sem_post]. *)
Theorem rotation_law (td : list thread_data_t) (s : state) :
  ring_wf false td -> 0 < length td ->
  reachable td (ring_init (length td)) s ->
  let ids := (emits (trace s)).*1 in
  ids = rotation (length td) (length ids)
  /\ ids = take (length ids)
                (rotation_skipping ((fun data => length (words data)) <$> td))
  /\ (forall t1 t2 th1 th2,
        threads s !! t1 = Some th1 -> threads s !! t2 = Some th2 ->
        in_critical th1 = true -> in_critical th2 = true -> t1 = t2).
Proof.
  intros Hwf Hpos Hreach ids.
  pose proof (sync_inv_reachable td Hwf Hpos s Hreach) as Hinv.
  assert (ids = rotation (length td) (length ids)) as Hrot.
  { subst ids. rewrite length_fmap. by apply sync_rotation. }
  split_and!; [done| |].
  - rewrite Hrot at 1. symmetry.
    set (sizes := (fun data => length (words data)) <$> td).
    assert (length sizes = length td) as Hlen by (subst sizes; by rewrite length_fmap).
    rewrite <- Hlen. apply skipping_take; [lia|].
    intros j Hj. subst ids. rewrite length_fmap in Hj.
    destruct (lookup_lt_is_Some_2 (emits (trace s)) j Hj) as [x Hx].
    pose proof (sync_emit_at td s j x Hinv Hx) as Hitem.
    destruct (rotation_item_inv td j x Hitem) as (_ & data & Hd & Hw).
    rewrite Hlen. apply lookup_lt_Some in Hw.
    assert (sizes !! (j mod length td) = Some (length (words data))) as Hs
      by (subst sizes; by rewrite list_lookup_fmap, Hd).
    by rewrite (list_lookup_total_correct _ _ _ Hs).
  - intros t1 t2 th1 th2. by apply (sync_mutex td s).
Qed.

Lemma rotation_law_witness :
  let td := example_strided in
  let s := run td (fun k => 3 * k + 1) 17 0 (start (ring_init 2)) in
  let ids := (emits (trace s)).*1 in
  ids = rotation 2 (length ids)
  /\ ids = take (length ids)
                (rotation_skipping ((fun data => length (words data)) <$> td))
  /\ (forall t1 t2 th1 th2,
        threads s !! t1 = Some th1 -> threads s !! t2 = Some th2 ->
        in_critical th1 = true -> in_critical th2 = true -> t1 = t2).
Proof.
  intros td s.
  apply (rotation_law td s).
  - apply (strided_ring_wf 2 example_words false). lia.
  - simpl. lia.
  - apply (run_reachable td (ring_init 2)).
Defined.

(** C2. For every sequence of M items and every worker count N >= 1, each
    revision of the partitioner yields (without running out of fuel and
    without reading outside [all_words]) exactly N argument blocks; share
    [t] has [M / N] items, plus one when [t < M mod N]; [word_count] is the
    number of words in the share; the sizes add up to M.  This covers
    M < N and M = 0, and being a function the result is determined by the
    input. *)
Theorem partition_sizes (n : nat) (ws : list string) (mode : bool) :
  0 < n ->
  exists tdS tdB,
    Strided.thread_data n ws mode = Some tdS
    /\ Blocked.thread_data n ws mode = Some tdB
    /\ even_split n (length ws) tdS
    /\ even_split n (length ws) tdB.
Proof.
  intros Hn. eexists _, _. split_and!.
  - by apply strided_thread_data.
  - by apply blocked_thread_data.
  - apply (even_split_of _ _ mode); [done| | |].
    + by rewrite length_fmap, length_seq.
    + by apply strided_ring_wf.
    + apply strided_balanced.
  - apply (even_split_of _ _ mode); [done| | |].
    + by rewrite length_fmap, length_seq.
    + by apply blocked_ring_wf.
    + apply blocked_balanced.
Qed.

Lemma partition_sizes_witness :
  0 < 5 /\
  exists tdS tdB,
    Strided.thread_data 5 example_words false = Some tdS
    /\ Blocked.thread_data 5 example_words false = Some tdB
    /\ even_split 5 (length example_words) tdS
    /\ even_split 5 (length example_words) tdB.
Proof. split; [lia|]. apply (partition_sizes 5 example_words false). lia. Defined.

(** C3, as stated, fails on the first revision, on the program's own
    input: with [NUM_THREADS = 5] and the 33 words of the paragraph, worker
    0 gets the words at positions 0, 5, 10, ..., 30, which are not
    adjacent, and the shares concatenated in worker order are not the
    paragraph. *)
Lemma strided_shares_not_contiguous :
  exists td data,
    Strided.thread_data NUM_THREADS (strtok_all None paragraph) false = Some td
    /\ td !! 0 = Some data
    /\ words data = ["Computer"; "of"; "Computer"; "to"; "is"; "of"; "from"]
    /\ take 2 (strtok_all None paragraph) = ["Computer"; "science"]
    /\ concat (words <$> td) <> strtok_all None paragraph.
Proof.
  eexists _, _. split_and!.
  - vm_compute. reflexivity.
  - reflexivity.
  - reflexivity.
  - vm_compute. reflexivity.
  - vm_compute. discriminate.
Qed.

(** C3, amended. For every sequence of M items and every N >= 1, in both
    revisions every share is a subsequence of the input in the original
    order and the shares together hold every item exactly once.  In the
    second revision (blocks) share [t] is the run of [word_count] items
    starting at [block_offset n M t], and the shares concatenated in
    worker order are the input.  In the first revision (strided) item [k]
    of share [t] is the input item at position [t + N * k], so it is
    reading the shares round-robin (item [j / N] of share [j mod N] at
    step [j]) that gives back the input. *)
Theorem partition_exact (n : nat) (ws : list string) (mode : bool) :
  0 < n ->
  exists tdS tdB,
    Strided.thread_data n ws mode = Some tdS
    /\ Blocked.thread_data n ws mode = Some tdB
    /\ concat (words <$> tdS) ≡ₚ ws
    /\ concat (words <$> tdB) ≡ₚ ws
    /\ (forall t data, tdS !! t = Some data \/ tdB !! t = Some data ->
          words data `sublist_of` ws)
    /\ concat (words <$> tdB) = ws
    /\ (forall t data, tdB !! t = Some data ->
          words data = take (word_count data) (drop (block_offset n (length ws) t) ws))
    /\ (forall t data k, tdS !! t = Some data ->
          words data !! k = if k <? word_count data then ws !! (t + n * k) else None)
    /\ (forall j w, ws !! j = Some w -> rotation_item tdS j = Some (j mod n, w)).
Proof.
  intros Hn. eexists _, _. split_and!.
  - by apply strided_thread_data.
  - by apply blocked_thread_data.
  - rewrite words_strided. by apply strided_shares_perm.
  - rewrite words_blocked. by rewrite blocked_shares_concat.
  - intros t data [Hd|Hd]; rewrite list_lookup_fmap in Hd;
      destruct (seq 0 n !! t) as [t'|] eqn:Ht; try done;
      apply lookup_seq in Ht as [-> Ht]; simpl in Hd; injection Hd as <-; simpl.
    + rewrite strided_share_fmap by done.
      rewrite <- (fmap_lookup_seq ws) at 2.
      apply fmap_sublist, sublist_filter.
    + unfold blocked_share. etransitivity; [apply sublist_take|apply sublist_drop].
  - rewrite words_blocked. by apply blocked_shares_concat.
  - intros t data Hd. rewrite list_lookup_fmap in Hd.
    destruct (seq 0 n !! t) as [t'|] eqn:Ht; [|done].
    apply lookup_seq in Ht as [-> Ht]. simpl in Hd. by injection Hd as <-.
  - intros t data k Hd. rewrite list_lookup_fmap in Hd.
    destruct (seq 0 n !! t) as [t'|] eqn:Ht; [|done].
    apply lookup_seq in Ht as [-> Ht]. simpl in Hd. injection Hd as <-. simpl.
    by apply strided_share_lookup.
  - intros j w Hj. by apply strided_rotation_item.
Qed.

Lemma partition_exact_witness :
  0 < 3 /\
  exists tdS tdB,
    Strided.thread_data 3 example_words true = Some tdS
    /\ Blocked.thread_data 3 example_words true = Some tdB
    /\ concat (words <$> tdS) ≡ₚ example_words
    /\ concat (words <$> tdB) ≡ₚ example_words
    /\ (forall t data, tdS !! t = Some data \/ tdB !! t = Some data ->
          words data `sublist_of` example_words)
    /\ concat (words <$> tdB) = example_words
    /\ (forall t data, tdB !! t = Some data ->
          words data
          = take (word_count data)
                 (drop (block_offset 3 (length example_words) t) example_words))
    /\ (forall t data k, tdS !! t = Some data ->
          words data !! k
          = if k <? word_count data then example_words !! (t + 3 * k) else None)
    /\ (forall j w, example_words !! j = Some w ->
          rotation_item tdS j = Some (j mod 3, w)).
Proof. split; [lia|]. apply (partition_exact 3 example_words true). lia. Defined.

(** C4, as stated, fails on the second revision: with two workers and the
    words alpha, beta, gamma, delta the shares are [alpha, beta] and
    [gamma, delta], and a completed synchronized run has printed alpha,
    gamma, beta, delta. *)
Lemma blocked_example_differs :
  exists td,
    Blocked.thread_data 2 example_words false = Some td
    /\ words <$> td <> [["alpha"; "gamma"]; ["beta"; "delta"]]
    /\ exists s,
         reachable td (ring_init 2) s /\ completed td s
         /\ (emits (trace s)).*2 <> example_words.
Proof.
  exists example_blocked. split_and!; [reflexivity|discriminate|].
  exists (run example_blocked (fun k => k) 22 0 (start (ring_init 2))).
  split_and!; [apply run_reachable|by vm_compute|vm_compute; discriminate].
Qed.

(** C4, amended. With two workers and the words alpha, beta, gamma, delta:
    the first revision (strided) gives worker 0 alpha and gamma and worker 1
    beta and delta, and every completed synchronized run prints alpha,
    beta, gamma, delta; the second revision (blocks) gives worker 0 alpha
    and beta and worker 1 gamma and delta, and every completed
    synchronized run prints alpha, gamma, beta, delta.  In both, the run
    completes under every scheduler. *)
Theorem example_four_items :
  Strided.thread_data 2 example_words false = Some example_strided
  /\ Blocked.thread_data 2 example_words false = Some example_blocked
  /\ words <$> example_strided = [["alpha"; "gamma"]; ["beta"; "delta"]]
  /\ words <$> example_blocked = [["alpha"; "beta"]; ["gamma"; "delta"]]
  /\ (forall s, reachable example_strided (ring_init 2) s ->
        completed example_strided s ->
        emits (trace s) = [(0, "alpha"); (1, "beta"); (0, "gamma"); (1, "delta")])
  /\ (forall s, reachable example_blocked (ring_init 2) s ->
        completed example_blocked s ->
        emits (trace s) = [(0, "alpha"); (1, "gamma"); (0, "beta"); (1, "delta")])
  /\ (forall sched,
        completed example_strided (run example_strided sched 22 0 (start (ring_init 2))))
  /\ (forall sched,
        completed example_blocked (run example_blocked sched 22 0 (start (ring_init 2)))).
Proof.
  assert (partitioned 2 example_words false example_strided) as HpS by (left; reflexivity).
  assert (partitioned 2 example_words false example_blocked) as HpB by (right; reflexivity).
  destruct (partitioned_facts 2 example_words false _ ltac:(lia) HpS) as (_ & HwfS & HbalS & _).
  destruct (partitioned_facts 2 example_words false _ ltac:(lia) HpB) as (_ & HwfB & HbalB & _).
  split_and!; [reflexivity..| | | |].
  - intros s Hs Hc.
    apply (sync_completed_emits example_strided 4 s);
      [done|simpl; lia|done|done|done|by vm_compute].
  - intros s Hs Hc.
    apply (sync_completed_emits example_blocked 4 s);
      [done|simpl; lia|done|done|done|by vm_compute].
  - intros sched.
    by apply (run_to_completion 2 example_words false example_strided sched ltac:(lia) HpS).
  - intros sched.
    by apply (run_to_completion 2 example_words false example_blocked sched ltac:(lia) HpB).
Qed.

(** C5. Whatever the N semaphores hold (counts left by a run in either
    mode, or nothing yet), when the [sem_init] calls succeed both
    [init_semaphores] and [reset_semaphores] return with semaphore 0 at 1
    and every other semaphore at 0. *)
Theorem ring_reset (n : nat) (w : world) :
  length (w_semaphores w) = n -> grants w n ->
  exists w1 w2,
    init_semaphores n w = Ret tt w1
    /\ reset_semaphores n w = Ret tt w2
    /\ w_semaphores w1 = ring_init n
    /\ w_semaphores w2 = ring_init n
    /\ forall i, i < n -> ring_init n !! i = Some (Sem (if i =? 0 then 1 else 0)).
Proof.
  intros Hlen Hg.
  destruct (init_semaphores_ok n w Hlen) as [Hinit _].
  destruct (reset_semaphores_ok n w Hlen) as [Hreset _].
  destruct (Hinit Hg) as ([] & w1 & Hr1 & (Hs1 & _) & _).
  destruct (Hreset Hg) as ([] & w2 & Hr2 & (Hs2 & _) & _).
  exists w1, w2. split_and!; try done.
  intros i Hi. unfold ring_init. by rewrite list_lookup_fmap, lookup_seq_lt.
Qed.

Lemma ring_reset_witness :
  exists w1 w2,
    init_semaphores 5 used_world = Ret tt w1
    /\ reset_semaphores 5 used_world = Ret tt w2
    /\ w_semaphores w1 = ring_init 5
    /\ w_semaphores w2 = ring_init 5
    /\ forall i, i < 5 -> ring_init 5 !! i = Some (Sem (if i =? 0 then 1 else 0)).
Proof.
  apply (ring_reset 5 used_world).
  - reflexivity.
  - intros j Hj. reflexivity.
Defined.

(** C6. For every N >= 1 and every sequence of M >= 0 items, with the
    argument blocks of either revision, a synchronized run from the
    initial ring cannot deadlock and cannot go on forever: a state that is
    not the end always has a step; every interleaving of [k] steps leaves
    exactly [4 * M + 3 * N - k] steps to go; so under every scheduler the
    run reaches the state in which [print_paragraph] has joined all N
    threads.  There every worker has returned with its loop counter at
    [word_count], having done for each item of its share, the last one
    included, one wait, the print and one post on the next semaphore. *)
Theorem synchronized_run_terminates (n : nat) (ws : list string)
    (td : list thread_data_t) :
  0 < n -> partitioned n ws false td ->
  let s0 := start (ring_init n) in
  let bound := 4 * length ws + 3 * n in
  (forall s, reachable td (ring_init n) s -> ~ completed td s ->
     exists a s', step td a s = Some s')
  /\ (forall k s, steps td k s0 s -> k + measure td s = bound)
  /\ (forall sched, completed td (run td sched bound 0 s0))
  /\ (forall s, reachable td (ring_init n) s -> completed td s ->
        joined s = n
        /\ forall t data, td !! t = Some data ->
             threads s !! t = Some (mk_thread data (word_count data) Lret)
             /\ events_of t (trace s)
                = flat_map (fun w => [EvWait t t; EvPrint t w; EvPost t ((t + 1) mod n)])
                           (words data)).
Proof.
  intros Hn Hp s0 bound.
  destruct (partitioned_facts n ws false td Hn Hp) as (Hlen & Hwf & Hbal & _).
  assert (0 < length td) as Hpos by lia.
  assert (measure td s0 = bound) as Hm by (by apply balanced_measure).
  assert (forall s, reachable td (ring_init n) s -> sync_inv td s) as Hinv.
  { intros s Hs. apply sync_inv_reachable; [done..|]. by rewrite Hlen. }
  split_and!.
  - intros s Hs Hnc. by apply (sync_progress td Hwf Hpos (length ws) Hbal s (Hinv s Hs)).
  - intros k s Hs. rewrite <- Hm. symmetry.
    apply (measure_steps td false Hwf); [apply local_inv_start|done].
  - intros sched.
    destruct (run_completes td (sync_inv td)
                (fun s H => proj1 H) (sync_inv_step td Hwf Hpos)
                (sync_progress td Hwf Hpos (length ws) Hbal)
                sched bound 0 s0) as (Hc & _ & _); [|lia|done].
    subst s0. rewrite <- Hlen. by apply sync_inv_start.
  - intros s Hs Hc. destruct (Hinv s Hs) as [Hloc _].
    split; [by rewrite <- Hlen|].
    intros t data Hd. split; [by apply (completed_threads td s)|].
    rewrite (completed_events td false Hwf s t data Hloc Hc Hd).
    destruct (Hwf t data Hd) as (Hid & Hsw & Hss & Hmode & Hwc).
    unfold share_events. apply flat_map_ext. intros w. unfold item_events.
    by rewrite Hid, Hsw, Hss, Hmode, Hlen.
Qed.

Lemma synchronized_run_terminates_witness :
  let td := example_strided in
  let s0 := start (ring_init 2) in
  let bound := 4 * length example_words + 3 * 2 in
  (forall s, reachable td (ring_init 2) s -> ~ completed td s ->
     exists a s', step td a s = Some s')
  /\ (forall k s, steps td k s0 s -> k + measure td s = bound)
  /\ (forall sched, completed td (run td sched bound 0 s0))
  /\ (forall s, reachable td (ring_init 2) s -> completed td s ->
        joined s = 2
        /\ forall t data, td !! t = Some data ->
             threads s !! t = Some (mk_thread data (word_count data) Lret)
             /\ events_of t (trace s)
                = flat_map (fun w => [EvWait t t; EvPrint t w; EvPost t ((t + 1) mod 2)])
                           (words data)).
Proof.
  intros td.
  apply (synchronized_run_terminates 2 example_words td).
  - lia.
  - left. reflexivity.
Defined.

(** C7. For every N >= 1, every sequence of M items, both revisions and
    both modes: a run from the initial ring completes under every
    scheduler, and in every completed run the words printed are, as a
    multiset, the M input words: none is dropped, none is printed twice. *)
Theorem emitted_exactly_once (n : nat) (ws : list string) (mode : bool)
    (td : list thread_data_t) :
  0 < n -> partitioned n ws mode td ->
  (forall sched,
     completed td (run td sched (4 * length ws + 3 * n) 0 (start (ring_init n))))
  /\ (forall s, reachable td (ring_init n) s -> completed td s ->
        (emits (trace s)).*2 ≡ₚ ws
        /\ length (emits (trace s)) = length ws).
Proof.
  intros Hn Hp.
  destruct (partitioned_facts n ws mode td Hn Hp) as (Hlen & Hwf & Hbal & Hperm).
  split.
  - intros sched. by apply (run_to_completion n ws mode td sched Hn Hp).
  - intros s Hs Hc.
    pose proof (local_inv_reachable td mode Hwf _ s Hs) as Hloc.
    assert ((emits (trace s)).*2 ≡ₚ ws) as Hw
      by (by rewrite (completed_emits_perm td mode Hwf s Hloc Hc)).
    split; [done|]. apply Permutation_length in Hw. by rewrite length_fmap in Hw.
Qed.

Lemma emitted_exactly_once_witness :
  let td := blocked_data 3 example_words true <$> seq 0 3 in
  (forall sched,
     completed td (run td sched (4 * length example_words + 3 * 3) 0 (start (ring_init 3))))
  /\ (forall s, reachable td (ring_init 3) s -> completed td s ->
        (emits (trace s)).*2 ≡ₚ example_words
        /\ length (emits (trace s)) = length example_words).
Proof.
  intros td.
  apply (emitted_exactly_once 3 example_words true td).
  - lia.
  - right. reflexivity.
Defined.

(** C8. With [NUM_THREADS = 5] and the paragraph of 33 words the program
    makes up to 65 fallible calls: the [malloc] and 34 [strdup] of the
    split, 5 [sem_init], a [malloc] and a [pthread_create] per thread and
    run, 5 more [sem_init] at the reset.  In both revisions, under every
    scheduler: if none fails both runs complete and [main] returns 0 with
    nothing on the error stream; if call [j] is the first to fail the
    process exits with [EXIT_FAILURE], which is not 0, having written one
    diagnostic and made no further call. *)
Theorem main_exit_status (oracle : nat -> bool) (sched : bool -> nat -> nat) :
  exits_fail_fast oracle 65 (Strided.main NUM_THREADS (boot oracle sched))
  /\ exits_fail_fast oracle 65 (Blocked.main NUM_THREADS (boot oracle sched))
  /\ EXIT_FAILURE <> 0%Z.
Proof.
  split_and!; [| |done].
  - apply (fail_fast_exits (main_of NUM_THREADS (Strided.print_paragraph NUM_THREADS))).
    apply (main_of_ok NUM_THREADS ltac:(unfold NUM_THREADS; lia)); [|done].
    apply strided_print_paragraph_spec. unfold NUM_THREADS. lia.
  - apply (fail_fast_exits (main_of NUM_THREADS (Blocked.print_paragraph NUM_THREADS))).
    apply (main_of_ok NUM_THREADS ltac:(unfold NUM_THREADS; lia)); [|done].
    apply blocked_print_paragraph_spec. unfold NUM_THREADS. lia.
Qed.

Example main_all_calls_succeed :
  exit_status (Blocked.main NUM_THREADS (boot (fun _ => true) (fun _ k => 3 * k + 1)))
  = Some 0%Z.
Proof. vm_compute. reflexivity. Qed.

Example main_sem_init_fails_at_reset :
  let o := Strided.main NUM_THREADS
             (boot (fun j => negb (j =? 50)) (fun _ k => 3 * k + 1)) in
  exit_status o = Some 1%Z
  /\ w_stderr (final_world o) = ["sem_init failed"]
  /\ w_calls (final_world o) = 51.
Proof. vm_compute. done. Qed.

(** C9. For every N >= 1 and every sequence of M items, with the argument
    blocks of either revision: when a synchronized run from the initial
    ring has completed, semaphore [M mod N] holds 1 and every other
    semaphore holds 0; this is the initial ring exactly when N divides M;
    and for M >= 1 the worker that printed last, worker [(M - 1) mod N],
    is the one whose [sem_signal] is semaphore [M mod N]. *)
Theorem final_gate_configuration (n : nat) (ws : list string)
    (td : list thread_data_t) (s : state) :
  0 < n -> partitioned n ws false td ->
  reachable td (ring_init n) s -> completed td s ->
  semaphores s = token_at n (length ws mod n)
  /\ (forall i, i < n ->
        semaphores s !! i = Some (Sem (if i =? length ws mod n then 1 else 0)))
  /\ (semaphores s = ring_init n <-> (n | length ws))
  /\ (1 <= length ws ->
      exists data w,
        last (emits (trace s)) = Some ((length ws - 1) mod n, w)
        /\ td !! ((length ws - 1) mod n) = Some data
        /\ sem_signal data = length ws mod n).
Proof.
  intros Hn Hp Hs Hc.
  destruct (partitioned_facts n ws false td Hn Hp) as (Hlen & Hwf & Hbal & _).
  assert (0 < length td) as Hpos by lia.
  assert (sync_inv td s) as Hinv.
  { apply sync_inv_reachable; [done..|]. by rewrite Hlen. }
  destruct (sync_completed td Hpos (length ws) Hbal s Hinv Hc) as [Hsem Hcount].
  rewrite Hlen in Hsem.
  pose proof (Nat.mod_upper_bound (length ws) n ltac:(lia)) as Hrem.
  split_and!.
  - done.
  - intros i Hi. rewrite Hsem, token_at_lookup.
    by destruct (Nat.ltb_spec i n); [|lia].
  - rewrite Hsem. split.
    + intros Heq. apply (f_equal (fun l => l !! (length ws mod n))) in Heq.
      unfold ring_init in Heq. rewrite token_at_lookup, list_lookup_fmap in Heq.
      rewrite lookup_seq_lt in Heq by done.
      destruct (Nat.ltb_spec (length ws mod n) n); [|lia].
      rewrite Nat.eqb_refl in Heq. simpl in Heq.
      destruct (Nat.eqb_spec (length ws mod n) 0) as [H0|]; [|done].
      apply Nat.Lcm0.mod_divide. done.
    + intros Hdiv. apply Nat.Lcm0.mod_divide in Hdiv. by rewrite Hdiv.
  - intros Hm. rewrite last_lookup, Hcount.
    destruct (lookup_lt_is_Some_2 (emits (trace s)) (pred (length ws)) ltac:(lia))
      as [x Hx].
    pose proof (sync_emit_at td s _ x Hinv Hx) as Hitem.
    destruct (rotation_item_inv td _ x Hitem) as (Hx1 & data & Hd & Hw).
    rewrite Hlen in Hx1, Hd.
    replace (pred (length ws)) with (length ws - 1) in * by lia.
    exists data, x.2. split_and!.
    + rewrite Hx. f_equal. destruct x as [x1 x2]. simpl in *. by subst.
    + done.
    + destruct (Hwf _ _ Hd) as (_ & _ & -> & _). rewrite Hlen.
      rewrite Nat.Div0.add_mod_idemp_l. f_equal. lia.
Qed.

Lemma final_gate_configuration_witness :
  let ws := three_words in
  let td3 := strided_data 2 ws false <$> seq 0 2 in
  let s := run td3 (fun k => k) 18 0 (start (ring_init 2)) in
  semaphores s = token_at 2 (length ws mod 2)
  /\ (forall i, i < 2 ->
        semaphores s !! i = Some (Sem (if i =? length ws mod 2 then 1 else 0)))
  /\ (semaphores s = ring_init 2 <-> (2 | length ws))
  /\ (1 <= length ws ->
      exists data w,
        last (emits (trace s)) = Some ((length ws - 1) mod 2, w)
        /\ td3 !! ((length ws - 1) mod 2) = Some data
        /\ sem_signal data = length ws mod 2).
Proof.
  intros ws td3 s.
  apply (final_gate_configuration 2 ws td3 s).
  - lia.
  - left. reflexivity.
  - apply (run_reachable td3 (ring_init 2)).
  - reflexivity.
Defined.

(** C10. In either mode and from any ring, whatever the shares: in every
    reachable state the events of worker [t] are a beginning of what its
    share prescribes, item by item: in synchronized mode one [sem_wait] on
    its own semaphore, the print, one [sem_post] on the next semaphore; in
    unsynchronized mode the print alone.  So a worker with an empty share
    has no event at all, no worker has a gate operation beyond those of its
    items, and when the run has completed the events are exactly the
    prescribed ones. *)
Theorem gate_operations (mode : bool) (td : list thread_data_t) (sems : list sem_t)
    (s : state) (t : nat) (data : thread_data_t) :
  ring_wf mode td -> reachable td sems s -> td !! t = Some data ->
  share_events data
  = flat_map (fun w => if mode then [EvPrint t w]
                       else [EvWait t t; EvPrint t w; EvPost t ((t + 1) mod length td)])
             (words data)
  /\ events_of t (trace s) `prefix_of` share_events data
  /\ (words data = [] -> events_of t (trace s) = [])
  /\ (completed td s -> events_of t (trace s) = share_events data)
  /\ (forall t', length td <= t' -> events_of t' (trace s) = []).
Proof.
  intros Hwf Hreach Hd.
  pose proof (local_inv_reachable td mode Hwf sems s Hreach) as Hloc.
  pose proof (events_prefix td mode Hwf s t data Hloc Hd) as Hpre.
  destruct (Hwf t data Hd) as (Hid & Hsw & Hss & Hmode & Hwc).
  split_and!.
  - unfold share_events. apply flat_map_ext. intros w. unfold item_events.
    rewrite Hid, Hsw, Hss, Hmode. by destruct mode.
  - done.
  - intros Hnil. unfold share_events in Hpre. rewrite Hnil in Hpre.
    by apply prefix_nil_inv.
  - intros Hc. by apply (completed_events td mode Hwf).
  - intros t' Ht'. by apply (events_outside td s).
Qed.

Lemma gate_operations_witness :
  let td := example_blocked in
  let s := run td (fun k => 5 * k + 2) 13 0 (start (ring_init 2)) in
  share_events (blocked_data 2 example_words false 1)
  = flat_map (fun w => [EvWait 1 1; EvPrint 1 w; EvPost 1 ((1 + 1) mod length td)])
             (words (blocked_data 2 example_words false 1))
  /\ events_of 1 (trace s) `prefix_of` share_events (blocked_data 2 example_words false 1)
  /\ (words (blocked_data 2 example_words false 1) = [] -> events_of 1 (trace s) = [])
  /\ (completed td s ->
      events_of 1 (trace s) = share_events (blocked_data 2 example_words false 1))
  /\ (forall t', length td <= t' -> events_of t' (trace s) = []).
Proof.
  intros td s.
  apply (gate_operations false td (ring_init 2) s 1 (blocked_data 2 example_words false 1)).
  - apply (blocked_ring_wf 2 example_words false). lia.
  - apply (run_reachable td (ring_init 2)).
  - reflexivity.
Defined.

(** * Further properties of the threads and the ring *)

(** ** The semaphores stay set up *)

Lemma ring_live_step td a s s' :
  step td a s = Some s' ->
  length (semaphores s') = length (semaphores s)
  /\ (Forall (fun x => is_live x = true) (semaphores s) ->
      Forall (fun x => is_live x = true) (semaphores s')).
Proof.
  intros Hstep%step_inv.
  destruct Hstep as [data Hd|th Hd Hjl Hth Hret|t th sems' i' pc' evs Hth Hts];
    simpl; [done..|].
  destruct Hts; simpl; try done.
  - rewrite length_insert. split; [done|]. intros Hl. by apply Forall_insert.
  - rewrite length_insert. split; [done|]. intros Hl. by apply Forall_insert.
Qed.

Lemma ring_live_reachable td sems s :
  Forall (fun x => is_live x = true) sems -> reachable td sems s ->
  length (semaphores s) = length sems
  /\ Forall (fun x => is_live x = true) (semaphores s).
Proof.
  intros Hl [k Hk]. remember (start sems) as s0 eqn:Hs0.
  induction Hk as [|k s0 s s' a _ IH Hstep]; [by subst|].
  destruct (IH Hs0) as [Hlen Hlive].
  destruct (ring_live_step td a s s' Hstep) as [Hlen' Hlive'].
  split; [congruence|by apply Hlive'].
Qed.

Lemma ring_init_live n : Forall (fun x => is_live x = true) (ring_init n).
Proof.
  apply Forall_lookup. intros i x Hx. unfold ring_init in Hx.
  rewrite list_lookup_fmap in Hx. destruct (seq 0 n !! i); [|done].
  simpl in Hx. by injection Hx as <-.
Qed.

Lemma ring_init_length n : length (ring_init n) = n.
Proof. unfold ring_init. by rewrite length_fmap, length_seq. Qed.

Lemma cannot_step_cases mode td s t th :
  ring_wf mode td -> local_inv td s ->
  length (semaphores s) = length td ->
  Forall (fun x => is_live x = true) (semaphores s) ->
  threads s !! t = Some th ->
  (t_pc th <> Lret -> t_pc th <> Lhead ->
   exists w, words (t_data th) !! t_i th = Some w)
  /\ (print_thread (semaphores s) th = None ->
      t_pc th = Lret
      \/ (mode = false /\ t_pc th = Lwait /\ semaphores s !! t = Some (Sem 0))).
Proof.
  intros Hwf Hloc Hlen' Hlive' Hth.
  pose proof (li_data _ _ Hloc _ _ Hth) as Hd.
  pose proof (li_pc _ _ Hloc _ _ Hth) as Hok.
  destruct (Hwf t (t_data th) Hd) as (Hid & Hsw & Hss & Hmode & Hwc).
  pose proof (lookup_lt_Some _ _ _ Hd) as Ht.
  assert (forall j, j < length td -> exists v, semaphores s !! j = Some (Sem v)) as Hsem.
  { intros j Hj. destruct (lookup_lt_is_Some_2 (semaphores s) j ltac:(lia)) as [x Hx].
    rewrite Forall_lookup in Hlive'. specialize (Hlive' _ _ Hx).
    destruct x as [|v]; [done|]. by exists v. }
  assert (t_pc th <> Lret -> t_pc th <> Lhead ->
          exists w, words (t_data th) !! t_i th = Some w) as Hword.
  { intros Hnr Hnh. apply lookup_lt_is_Some_2. unfold pc_ok in Hok.
    destruct (t_pc th); try done; lia. }
  split; [done|].
  unfold print_thread. unfold pc_ok in Hok.
  destruct (t_pc th) eqn:Hpc.
  - by destruct (t_i th <? word_count (t_data th)).
  - rewrite Hmode. destruct mode; [done|]. rewrite Hsw.
    destruct (Hsem t Ht) as [v Hv]. rewrite Hv. destruct v as [|v]; [|done].
    intros _. right. done.
  - destruct Hword as [w Hw]; [done..|]. by rewrite Hw.
  - rewrite Hmode. destruct mode; [done|]. rewrite Hss.
    destruct (Hsem ((t + 1) mod length td)) as [v Hv].
    { apply Nat.mod_upper_bound. lia. }
    by rewrite Hv.
  - intros _. by left.
Qed.

(** X1. In either mode, from a ring of [length td] semaphores that are all
    set up: in every reachable state the semaphores are as many and all
    set up; a thread inside a pass of its loop has its word inside its
    [words] array; and the only threads that cannot take a step are those
    that have returned and, in synchronized mode, those in [sem_wait] on
    their own semaphore while it holds 0.  So [print_thread] never reads
    [words] out of bounds and never touches a semaphore that is not
    initialised. *)
Theorem print_thread_never_faults (mode : bool) (td : list thread_data_t)
    (sems : list sem_t) (s : state) (t : nat) (th : thread) :
  ring_wf mode td -> length sems = length td ->
  Forall (fun x => is_live x = true) sems ->
  reachable td sems s -> threads s !! t = Some th ->
  length (semaphores s) = length td
  /\ Forall (fun x => is_live x = true) (semaphores s)
  /\ (t_pc th <> Lret -> t_pc th <> Lhead ->
      exists w, words (t_data th) !! t_i th = Some w)
  /\ (print_thread (semaphores s) th = None ->
      t_pc th = Lret
      \/ (mode = false /\ t_pc th = Lwait /\ semaphores s !! t = Some (Sem 0))).
Proof.
  intros Hwf Hlen Hlive Hreach Hth.
  destruct (ring_live_reachable td sems s Hlive Hreach) as [Hlen' Hlive'].
  pose proof (local_inv_reachable td mode Hwf sems s Hreach) as Hloc.
  destruct (cannot_step_cases mode td s t th Hwf Hloc ltac:(congruence) Hlive' Hth)
    as [Hword Hnone].
  split_and!; [congruence|done..].
Qed.

Lemma print_thread_never_faults_witness :
  let td := example_strided in
  let s := run td (fun k => 2 * k + 1) 9 0 (start (ring_init 2)) in
  let th := mk_thread (strided_data 2 example_words false 1) 0 Lprint in
  length (semaphores s) = length td
  /\ Forall (fun x => is_live x = true) (semaphores s)
  /\ (t_pc th <> Lret -> t_pc th <> Lhead ->
      exists w, words (t_data th) !! t_i th = Some w)
  /\ (print_thread (semaphores s) th = None ->
      t_pc th = Lret
      \/ (false = false /\ t_pc th = Lwait /\ semaphores s !! 1 = Some (Sem 0))).
Proof.
  intros td s th.
  apply (print_thread_never_faults false td (ring_init 2) s 1 th).
  - apply (strided_ring_wf 2 example_words false). lia.
  - reflexivity.
  - apply ring_init_live.
  - apply (run_reachable td (ring_init 2)).
  - reflexivity.
Defined.

(** ** One unit in the ring *)

Lemma ring_total_all_closed n : ring_total (all_closed n) = 0.
Proof.
  unfold ring_total, all_closed. induction n as [|n IH]; [done|]. simpl. by rewrite IH.
Qed.

Lemma ring_total_token_at n p : p < n -> ring_total (token_at n p) = 1.
Proof.
  intros Hp. rewrite <- (all_closed_put n p Hp). unfold ring_total.
  pose proof (sum_list_with_insert sem_value (all_closed n) p (Sem 0) (Sem 1)) as Hsum.
  pose proof (ring_total_all_closed n) as H0. unfold ring_total in H0.
  rewrite H0 in Hsum. simpl in Hsum.
  specialize (Hsum (lookup_replicate_2 n (Sem 0) p Hp)). lia.
Qed.

Lemma filter_none {A} (P : A -> Prop) `{forall x, Decision (P x)} (l : list A) :
  Forall (fun x => ~ P x) l -> filter P l = [].
Proof.
  induction 1 as [|x l Hx _ IH]; [done|].
  rewrite filter_cons, IH. by destruct (decide (P x)).
Qed.

Lemma holders_none s :
  (forall t th, threads s !! t = Some th -> in_critical th = false) -> holders s = 0.
Proof.
  intros Hall. unfold holders. rewrite filter_none; [done|].
  apply Forall_lookup. intros t th Hth. by rewrite (Hall t th Hth).
Qed.

Lemma holders_one s p th :
  threads s !! p = Some th -> in_critical th = true ->
  (forall t th', t <> p -> threads s !! t = Some th' -> in_critical th' = false) ->
  holders s = 1.
Proof.
  intros Hth Hc Hoth. unfold holders.
  rewrite <- (take_drop_middle _ _ _ Hth), filter_app, filter_cons.
  destruct (decide (in_critical th = true)); [|done].
  pose proof (lookup_lt_Some _ _ _ Hth) as Hlt.
  rewrite !filter_none; [done| |].
  - apply Forall_lookup. intros j thj Hj. rewrite lookup_drop in Hj.
    rewrite (Hoth (S p + j) thj ltac:(lia) Hj). done.
  - apply Forall_lookup. intros j thj Hj.
    apply lookup_take_Some in Hj as [Hj Hjp].
    rewrite (Hoth j thj ltac:(lia) Hj). done.
Qed.

Lemma token_at_binary n p :
  Forall (fun x => x = Sem 0 \/ x = Sem 1) (token_at n p).
Proof.
  apply Forall_lookup. intros i x Hx. rewrite token_at_lookup in Hx.
  destruct (i <? n); [|done]. injection Hx as <-.
  destruct (i =? p); [by right|by left].
Qed.

Lemma all_closed_binary n :
  Forall (fun x => x = Sem 0 \/ x = Sem 1) (all_closed n).
Proof.
  apply Forall_lookup. intros i x Hx. apply lookup_replicate in Hx as [-> _]. by left.
Qed.

(** X2. In a synchronized run from the initial ring, whatever the sizes
    of the shares: in every reachable state every semaphore holds 0 or 1,
    and the units held by the semaphores plus the number of threads
    between [sem_wait] and [sem_post] make exactly one.  The ring never
    gains or loses a unit. *)
Theorem one_token (td : list thread_data_t) (s : state) :
  ring_wf false td -> 0 < length td ->
  reachable td (ring_init (length td)) s ->
  Forall (fun x => x = Sem 0 \/ x = Sem 1) (semaphores s)
  /\ ring_total (semaphores s) + holders s = 1
  /\ (holders s = 1 -> semaphores s = all_closed (length td)).
Proof.
  intros Hwf Hpos Hreach.
  destruct (sync_inv_reachable td Hwf Hpos s Hreach)
    as [_ (r & p & c & Hp & _ & Htok & _)].
  destruct Htok as [Hs Hfree|thp Hs Hthp Hpc Hoth|thp Hs Hthp Hpc Hoth].
  - rewrite Hs, (ring_total_token_at _ _ Hp), (holders_none s Hfree).
    split_and!; [apply token_at_binary|done|done].
  - rewrite Hs, ring_total_all_closed.
    rewrite (holders_one s p thp Hthp); [|by unfold in_critical; rewrite Hpc|done].
    split_and!; [apply all_closed_binary|done|done].
  - rewrite Hs, ring_total_all_closed.
    rewrite (holders_one s p thp Hthp); [|by unfold in_critical; rewrite Hpc|done].
    split_and!; [apply all_closed_binary|done|done].
Qed.

Lemma one_token_witness :
  let td := example_strided in
  let s := run td (fun k => 2 * k + 1) 9 0 (start (ring_init 2)) in
  Forall (fun x => x = Sem 0 \/ x = Sem 1) (semaphores s)
  /\ ring_total (semaphores s) + holders s = 1
  /\ (holders s = 1 -> semaphores s = all_closed (length td)).
Proof.
  intros td s.
  apply (one_token td s).
  - apply (strided_ring_wf 2 example_words false). lia.
  - simpl. lia.
  - apply (run_reachable td (ring_init 2)).
Defined.

(** ** Shares that are not balanced: the run deadlocks *)

Lemma run_stuck td mode sched fuel :
  ring_wf mode td ->
  forall k s, local_inv td s -> measure td s <= fuel ->
    stuck td (run td sched fuel k s).
Proof.
  intros Hwf. induction fuel as [|fuel IH]; intros k s Hloc Hm; simpl.
  - intros a. destruct (step td a s) as [s'|] eqn:Hs; [|done].
    pose proof (measure_step td a s s' Hloc Hs). lia.
  - set (en := filter (fun a => can_step td s a = true) (actors td)).
    destruct (en !! (sched k mod length en)) as [a|] eqn:Ha.
    + assert (a ∈ en) as Hin by (by eapply list_elem_of_lookup_2).
      apply list_elem_of_filter in Hin as [Hcan _]. unfold can_step in Hcan.
      destruct (step td a s) as [s'|] eqn:Hs; [|done].
      pose proof (measure_step td a s s' Hloc Hs).
      apply IH; [by eapply local_inv_step|lia].
    + assert (en = []) as Hen.
      { destruct en as [|b en'] eqn:Hen; [done|]. exfalso.
        apply lookup_ge_None_1 in Ha.
        pose proof (Nat.mod_upper_bound (sched k) (length (b :: en')) ltac:(simpl; lia)).
        lia. }
      intros a. destruct (step td a s) as [s'|] eqn:Hs; [|done]. exfalso.
      assert (a ∈ en) as Hin.
      { apply list_elem_of_filter. split.
        - unfold can_step. by rewrite Hs.
        - by eapply step_actor. }
      rewrite Hen in Hin. by apply elem_of_nil in Hin.
Qed.

Lemma completed_balanced td s :
  0 < length td -> sync_inv td s -> completed td s ->
  exists m, balanced m td.
Proof.
  intros Hpos [Hloc (r & p & c & Hp & Hidx & _ & _)] Hc.
  exists (length td * r + p). intros t data Hd.
  pose proof (lookup_lt_Some _ _ _ Hd) as Ht.
  pose proof (Hidx t Ht) as Hit. unfold idx in Hit.
  rewrite (completed_threads td s t data Hloc Hc Hd) in Hit. simpl in Hit.
  unfold share_size. destruct (divmod_unique (length td) r p Hp) as [-> ->]. done.
Qed.

Lemma stuck_thread_waits td s :
  ring_wf false td -> local_inv td s ->
  length (semaphores s) = length td ->
  Forall (fun x => is_live x = true) (semaphores s) ->
  stuck td s -> ~ completed td s ->
  exists t th, threads s !! t = Some th /\ t_pc th = Lwait
               /\ semaphores s !! t = Some (Sem 0).
Proof.
  intros Hwf Hloc Hlen Hlive Hstuck Hnc. unfold completed in Hnc.
  pose proof (li_len _ _ Hloc) as Hl. pose proof (li_joined _ _ Hloc) as Hj.
  destruct (decide (length (threads s) < length td)) as [Hcr|Hall].
  { destruct (lookup_lt_is_Some_2 td _ Hcr) as [data Hd].
    specialize (Hstuck Main). simpl in Hstuck. unfold print_paragraph_step in Hstuck.
    by rewrite Hd in Hstuck. }
  destruct (decide (Forall (fun th => is_ret (t_pc th) = true) (threads s)))
    as [Hret|Hnret].
  { destruct (lookup_lt_is_Some_2 (threads s) (joined s) ltac:(lia)) as [thj Hthj].
    specialize (Hstuck Main). simpl in Hstuck. unfold print_paragraph_step in Hstuck.
    rewrite lookup_ge_None_2 in Hstuck by lia.
    destruct (Nat.ltb_spec (joined s) (length td)); [|lia].
    rewrite Hthj in Hstuck. rewrite Forall_lookup in Hret.
    by rewrite (Hret _ _ Hthj) in Hstuck. }
  apply not_Forall_Exists in Hnret; [|apply _].
  apply Exists_exists in Hnret as (th & Hin & Hnr).
  apply list_elem_of_lookup in Hin as [t Hth]. simpl in Hnr.
  exists t, th. split; [done|].
  destruct (cannot_step_cases false td s t th Hwf Hloc Hlen Hlive Hth) as [_ Hnone].
  destruct Hnone as [Hr|(_ & Hw & Hs)].
  - specialize (Hstuck (Worker t)). simpl in Hstuck. rewrite Hth in Hstuck.
    by destruct (print_thread (semaphores s) th) as [[[? ?] ?]|].
  - by rewrite Hr in Hnr.
  - done.
Qed.

(** X3. The code has no pass for a thread whose share is used up: a
    thread that has printed its last word returns.  So a synchronized run
    from the initial ring can come to its end only when the shares are
    those of an even split (the first [m mod N] threads one word more than
    the others, for some [m]); it then does so under every scheduler.
    With any other shares every run, however scheduled, ends in a state
    in which nothing can move and some thread sits in [sem_wait] on a
    semaphore that holds 0, while [print_paragraph] waits in
    [pthread_join]. *)
Theorem synchronized_needs_balance (td : list thread_data_t) :
  ring_wf false td -> 0 < length td ->
  let s0 := start (ring_init (length td)) in
  ((exists s, reachable td (ring_init (length td)) s /\ completed td s)
   <-> exists m, balanced m td)
  /\ ((exists m, balanced m td) ->
      forall sched, completed td (run td sched (measure td s0) 0 s0))
  /\ ((forall m, ~ balanced m td) ->
      forall sched,
        let s := run td sched (measure td s0) 0 s0 in
        ~ completed td s /\ stuck td s
        /\ exists t th, threads s !! t = Some th /\ t_pc th = Lwait
                        /\ semaphores s !! t = Some (Sem 0)).
Proof.
  intros Hwf Hpos s0.
  assert (forall m, balanced m td -> forall sched,
            completed td (run td sched (measure td s0) 0 s0)) as Hgo.
  { intros m Hbal sched.
    destruct (run_completes td (sync_inv td)
                (fun s H => proj1 H) (sync_inv_step td Hwf Hpos)
                (sync_progress td Hwf Hpos m Hbal)
                sched (measure td s0) 0 s0) as (Hc & _ & _);
      [by apply sync_inv_start|lia|done]. }
  split_and!.
  - split.
    + intros (s & Hs & Hc).
      by apply (completed_balanced td s Hpos (sync_inv_reachable td Hwf Hpos s Hs)).
    + intros [m Hbal].
      exists (run td (fun k => k) (measure td s0) 0 s0).
      split; [apply run_reachable|by apply (Hgo m)].
  - intros [m Hbal]. by apply (Hgo m).
  - intros Hnb sched s.
    assert (reachable td (ring_init (length td)) s) as Hreach by apply run_reachable.
    pose proof (sync_inv_reachable td Hwf Hpos s Hreach) as Hinv.
    assert (~ completed td s) as Hnc.
    { intros Hc. destruct (completed_balanced td s Hpos Hinv Hc) as [m Hm].
      by apply (Hnb m). }
    assert (stuck td s) as Hstuck.
    { apply (run_stuck td false); [done|apply local_inv_start|lia]. }
    split_and!; [done..|].
    destruct (ring_live_reachable td _ s (ring_init_live _) Hreach) as [Hlen Hlive].
    rewrite ring_init_length in Hlen.
    apply (stuck_thread_waits td s Hwf (proj1 Hinv) Hlen Hlive Hstuck Hnc).
Qed.

Lemma lopsided_wf : ring_wf false lopsided.
Proof.
  intros t data Hd. destruct t as [|[|t]]; simpl in Hd; [| |done];
    injection Hd as <-; done.
Qed.

Lemma lopsided_unbalanced m : ~ balanced m lopsided.
Proof.
  intros Hbal.
  pose proof (Hbal 0 _ eq_refl) as H0. pose proof (Hbal 1 _ eq_refl) as H1.
  unfold share_size in H0, H1. simpl word_count in H0, H1. simpl length in H0, H1.
  destruct (Nat.ltb_spec 0 (m mod 2)), (Nat.ltb_spec 1 (m mod 2)); lia.
Qed.

Lemma synchronized_needs_balance_witness :
  let td := lopsided in
  let s0 := start (ring_init (length td)) in
  (forall m, ~ balanced m td)
  /\ ((exists s, reachable td (ring_init (length td)) s /\ completed td s)
      <-> exists m, balanced m td)
  /\ ((exists m, balanced m td) ->
      forall sched, completed td (run td sched (measure td s0) 0 s0))
  /\ ((forall m, ~ balanced m td) ->
      forall sched,
        let s := run td sched (measure td s0) 0 s0 in
        ~ completed td s /\ stuck td s
        /\ exists t th, threads s !! t = Some th /\ t_pc th = Lwait
                        /\ semaphores s !! t = Some (Sem 0)).
Proof.
  intros td. split; [apply lopsided_unbalanced|].
  apply (synchronized_needs_balance td).
  - apply lopsided_wf.
  - simpl. lia.
Defined.

(** ** The order of the output of a synchronized run, revision by revision *)

Lemma strided_item_inv n ws k x :
  0 < n ->
  rotation_item (strided_data n ws false <$> seq 0 n) k = Some x ->
  x.1 = k mod n /\ ws !! k = Some x.2.
Proof.
  intros Hn Hx. apply rotation_item_inv in Hx as (Hid & data & Hd & Hw).
  rewrite length_fmap, length_seq in Hid, Hd, Hw. split; [done|].
  pose proof (Nat.mod_upper_bound k n ltac:(lia)) as Hlt.
  rewrite list_lookup_fmap, lookup_seq_lt in Hd by done. simpl in Hd.
  injection Hd as <-. simpl in Hw.
  rewrite strided_share_lookup in Hw by done.
  destruct (k / n <? share_size n (length ws) (k mod n)); [|done].
  pose proof (Nat.div_mod_eq k n).
  by replace (k mod n + n * (k / n)) with k in Hw by lia.
Qed.

Lemma blocked_item_inv n ws k x :
  0 < n ->
  rotation_item (blocked_data n ws false <$> seq 0 n) k = Some x ->
  x.1 = k mod n /\ k < length ws
  /\ ws !! blocked_order n (length ws) k = Some x.2.
Proof.
  intros Hn Hx. apply rotation_item_inv in Hx as (Hid & data & Hd & Hw).
  rewrite length_fmap, length_seq in Hid, Hd, Hw. split; [done|].
  pose proof (Nat.mod_upper_bound k n ltac:(lia)) as Hlt.
  rewrite list_lookup_fmap, lookup_seq_lt in Hd by done. simpl in Hd.
  injection Hd as <-. simpl in Hw. unfold blocked_share in Hw.
  apply lookup_take_Some in Hw as [Hw Hsz]. rewrite lookup_drop in Hw.
  split; [|done].
  apply (share_size_lt n (length ws) (k mod n) (k / n) Hn Hlt) in Hsz.
  pose proof (Nat.div_mod_eq k n). lia.
Qed.

Lemma snd_imap_mod n (ws : list string) :
  (imap (fun k w => (k mod n, w)) ws).*2 = ws.
Proof.
  apply list_eq. intros k. rewrite list_lookup_fmap, list_lookup_imap.
  by destruct (ws !! k).
Qed.

(** X4. First revision, any word list and any N >= 1: at every moment of
    a synchronized run the lines printed so far are, in order, the first
    words of the input, word [k] printed by thread [k mod N]; when the run
    has ended all the words have been printed, in their original order. *)
Theorem strided_prints_in_order (n : nat) (ws : list string)
    (td : list thread_data_t) (s : state) :
  0 < n -> Strided.thread_data n ws false = Some td ->
  reachable td (ring_init n) s ->
  emits (trace s)
  = take (length (emits (trace s))) (imap (fun k w => (k mod n, w)) ws)
  /\ (emits (trace s)).*2 `prefix_of` ws
  /\ (completed td s -> emits (trace s) = imap (fun k w => (k mod n, w)) ws).
Proof.
  intros Hn Htd Hreach. rewrite strided_thread_data in Htd by done.
  injection Htd as <-.
  set (td := strided_data n ws false <$> seq 0 n) in *.
  assert (length td = n) as Hlen by (subst td; by rewrite length_fmap, length_seq).
  pose proof (strided_ring_wf n ws false Hn) as Hwf. fold td in Hwf.
  assert (sync_inv td s) as Hinv.
  { apply sync_inv_reachable; [done|lia|by rewrite Hlen]. }
  assert (emits (trace s)
          = take (length (emits (trace s))) (imap (fun k w => (k mod n, w)) ws)) as Heq.
  { apply list_eq. intros k.
    destruct (emits (trace s) !! k) as [x|] eqn:Hk.
    - pose proof (lookup_lt_Some _ _ _ Hk) as Hlt.
      rewrite lookup_take_lt, list_lookup_imap by done.
      destruct (strided_item_inv n ws k x Hn (sync_emit_at td s k x Hinv Hk)) as [H1 H2].
      rewrite H2. simpl. destruct x as [x1 x2]. simpl in *. by rewrite H1.
    - apply lookup_ge_None_1 in Hk. by rewrite lookup_take_ge. }
  split_and!; [done| |].
  - rewrite Heq, fmap_take, snd_imap_mod. apply prefix_take.
  - intros Hc.
    destruct (sync_completed td ltac:(lia) (length ws) (strided_balanced n ws false) s Hinv Hc)
      as [_ Hcount].
    rewrite Heq, Hcount. apply take_ge. by rewrite length_imap.
Qed.

Lemma strided_prints_in_order_witness :
  let td := example_strided in
  let s := run td (fun k => 2 * k + 1) 9 0 (start (ring_init 2)) in
  emits (trace s)
  = take (length (emits (trace s))) (imap (fun k w => (k mod 2, w)) example_words)
  /\ (emits (trace s)).*2 `prefix_of` example_words
  /\ (completed td s -> emits (trace s) = imap (fun k w => (k mod 2, w)) example_words).
Proof.
  intros td s.
  apply (strided_prints_in_order 2 example_words td s).
  - lia.
  - reflexivity.
  - apply (run_reachable td (ring_init 2)).
Defined.

(** X5. Second revision, any word list of [m] words and any N >= 1: the
    line a synchronized run prints at step [k] is by thread [k mod N] and
    shows the word at position [blocked_order N m k] of the input, that
    is item [k / N] of the block of thread [k mod N]; a completed run has
    printed [m] lines.  This order is the order of the input exactly when
    N = 1 or m <= N: with more words than threads the second revision
    prints the words out of their original order. *)
Theorem blocked_print_order (n : nat) (ws : list string)
    (td : list thread_data_t) (s : state) :
  0 < n -> Blocked.thread_data n ws false = Some td ->
  reachable td (ring_init n) s ->
  (forall k x, emits (trace s) !! k = Some x ->
     x.1 = k mod n /\ k < length ws
     /\ ws !! blocked_order n (length ws) k = Some x.2)
  /\ (completed td s -> length (emits (trace s)) = length ws)
  /\ ((forall k, k < length ws -> blocked_order n (length ws) k = k)
      <-> n = 1 \/ length ws <= n).
Proof.
  intros Hn Htd Hreach. rewrite blocked_thread_data in Htd by done.
  injection Htd as <-.
  set (td := blocked_data n ws false <$> seq 0 n) in *.
  assert (length td = n) as Hlen by (subst td; by rewrite length_fmap, length_seq).
  pose proof (blocked_ring_wf n ws false Hn) as Hwf. fold td in Hwf.
  assert (sync_inv td s) as Hinv.
  { apply sync_inv_reachable; [done|lia|by rewrite Hlen]. }
  split_and!.
  - intros k x Hk. apply (blocked_item_inv n ws k x Hn).
    by apply (sync_emit_at td s k x Hinv).
  - intros Hc.
    by destruct (sync_completed td ltac:(lia) (length ws) (blocked_balanced n ws false)
                   s Hinv Hc) as [_ Hcount].
  - set (m := length ws). unfold blocked_order, block_offset. split.
    + intros Hid. destruct (decide (n = 1)) as [|Hn1]; [by left|]. right.
      destruct (decide (m <= n)) as [|Hgt]; [done|]. exfalso.
      specialize (Hid 1 ltac:(lia)).
      rewrite (Nat.mod_small 1 n), (Nat.div_small 1 n) in Hid by lia.
      pose proof (Nat.div_mod_eq m n) as Hdm.
      pose proof (Nat.mod_upper_bound m n ltac:(lia)) as Hr.
      assert (1 <= m / n) by (apply Nat.div_le_lower_bound; lia).
      nia.
    + intros [->|Hle] k Hk.
      * rewrite !Nat.mod_1_r, !Nat.div_1_r. simpl. lia.
      * rewrite (Nat.mod_small k n), (Nat.div_small k n) by lia.
        destruct (decide (m = n)) as [Heq|Hne].
        -- rewrite Heq, Nat.div_same, Nat.Div0.mod_same by lia. lia.
        -- rewrite (Nat.div_small m n), (Nat.mod_small m n) by lia. lia.
Qed.

Lemma blocked_print_order_witness :
  let td := example_blocked in
  let s := run td (fun k => 3 * k) 22 0 (start (ring_init 2)) in
  (forall k x, emits (trace s) !! k = Some x ->
     x.1 = k mod 2 /\ k < length example_words
     /\ example_words !! blocked_order 2 (length example_words) k = Some x.2)
  /\ (completed td s -> length (emits (trace s)) = length example_words)
  /\ ((forall k, k < length example_words ->
         blocked_order 2 (length example_words) k = k)
      <-> 2 = 1 \/ length example_words <= 2).
Proof.
  intros td s.
  apply (blocked_print_order 2 example_words td s).
  - lia.
  - reflexivity.
  - apply (run_reachable td (ring_init 2)).
Defined.

(** ** Unsynchronized mode does not depend on the ring *)

Lemma emits_prefix tr1 tr2 : tr1 `prefix_of` tr2 -> emits tr1 `prefix_of` emits tr2.
Proof. intros [k ->]. rewrite emits_app. by apply prefix_app_r. Qed.

(** X6. In unsynchronized mode, with the argument blocks of either
    revision and whatever the semaphore array holds (the counts left by the
    previous run, or nothing that [sem_init] has set up, or no semaphore at
    all): no step changes the array or is a semaphore operation; the lines
    each thread has printed are a beginning of its share, in the order of
    the share; and the run comes to its end under every scheduler. *)
Theorem chaos_ignores_ring (n : nat) (ws : list string)
    (td : list thread_data_t) (sems : list sem_t) :
  0 < n -> partitioned n ws true td ->
  (forall s, reachable td sems s ->
     semaphores s = sems
     /\ Forall (fun e => is_gate_op e = false) (trace s)
     /\ forall t data, td !! t = Some data ->
          filter (fun x => x.1 = t) (emits (trace s))
          `prefix_of` ((fun w => (t, w)) <$> words data))
  /\ (forall sched,
        completed td (run td sched (4 * length ws + 3 * n) 0 (start sems))).
Proof.
  intros Hn Hp.
  destruct (partitioned_facts n ws true td Hn Hp) as (Hlen & Hwf & Hbal & _).
  split.
  - intros s Hreach.
    destruct (chaos_inv_reachable td Hwf sems s Hreach) as (Hloc & Hs & Htr).
    split_and!; [done..|].
    intros t data Hd. rewrite <- emits_events_of.
    destruct (Hwf t data Hd) as (Hid & _).
    assert ((fun w => (t, w)) <$> words data = emits (share_events data)) as ->
      by (by rewrite emits_share_events, Hid).
    apply emits_prefix. by apply (events_prefix td true Hwf).
  - intros sched.
    destruct (run_completes td (chaos_inv td sems)
                (fun s H => proj1 H) (chaos_inv_step td Hwf sems)
                (chaos_progress td Hwf sems)
                sched (4 * length ws + 3 * n) 0 (start sems))
      as (Hc & _ & _); [apply chaos_inv_start| |done].
    by rewrite (balanced_measure n (length ws) td sems Hn Hlen Hbal).
Qed.

Lemma chaos_ignores_ring_witness :
  let td := strided_data 2 example_words true <$> seq 0 2 in
  let sems := [SemUninit; Sem 3] in
  (forall s, reachable td sems s ->
     semaphores s = sems
     /\ Forall (fun e => is_gate_op e = false) (trace s)
     /\ forall t data, td !! t = Some data ->
          filter (fun x => x.1 = t) (emits (trace s))
          `prefix_of` ((fun w => (t, w)) <$> words data))
  /\ (forall sched,
        completed td (run td sched (4 * length example_words + 3 * 2) 0 (start sems))).
Proof.
  intros td sems.
  apply (chaos_ignores_ring 2 example_words td sems).
  - lia.
  - left. reflexivity.
Defined.

(** ** Creation and joining *)

Lemma joins_after_creates td sems s :
  reachable td sems s -> 0 < joined s -> length td <= length (threads s).
Proof.
  intros [k Hk]. remember (start sems) as s0 eqn:Hs0.
  induction Hk as [|k s0 s s' a _ IH Hstep]; [subst; simpl; lia|].
  specialize (IH Hs0). apply step_inv in Hstep.
  destruct Hstep as [data Hd|th Hd Hjl Hth Hret|t th sems' i' pc' evs Hth Hts]; simpl.
  - rewrite length_app. simpl. intros Hj. specialize (IH Hj). lia.
  - intros _. by apply lookup_ge_None_1.
  - by rewrite length_insert.
Qed.

(** X7. In either mode and from any ring: [print_paragraph] starts to
    join only when all the threads are created, and joins them in the
    order of their indices; a thread that has been joined has returned
    with its loop counter at [word_count], has done everything its share
    prescribes and never takes another step.  So the [free] of its
    [words] array, which follows its join, comes after its last read of
    the array. *)
Theorem joined_threads_are_done (mode : bool) (td : list thread_data_t)
    (sems : list sem_t) (s : state) :
  ring_wf mode td -> reachable td sems s ->
  joined s <= length (threads s) <= length td
  /\ (0 < joined s -> length (threads s) = length td)
  /\ (forall t, t < joined s ->
        exists data, td !! t = Some data
          /\ threads s !! t = Some (mk_thread data (word_count data) Lret)
          /\ step td (Worker t) s = None
          /\ events_of t (trace s) = share_events data).
Proof.
  intros Hwf Hreach.
  pose proof (local_inv_reachable td mode Hwf sems s Hreach) as Hloc.
  pose proof (li_len _ _ Hloc) as Hl. pose proof (li_joined _ _ Hloc) as Hj.
  split_and!; [done|done| |].
  - intros Hpos. pose proof (joins_after_creates td sems s Hreach Hpos). lia.
  - intros t Ht.
    destruct (lookup_lt_is_Some_2 (threads s) t ltac:(lia)) as [th Hth].
    pose proof (li_data _ _ Hloc _ _ Hth) as Hd.
    pose proof (li_joined_ret _ _ Hloc t th Ht Hth) as Hpc.
    pose proof (li_pc _ _ Hloc _ _ Hth) as Hok. unfold pc_ok in Hok.
    rewrite Hpc in Hok.
    destruct (Hwf t _ Hd) as (_ & _ & _ & _ & Hwc).
    assert (th = mk_thread (t_data th) (word_count (t_data th)) Lret) as Heq
      by (destruct th; simpl in *; by subst).
    exists (t_data th). split_and!; [done|by rewrite Hth; f_equal| |].
    + simpl. rewrite Hth. unfold print_thread. by rewrite Hpc.
    + rewrite (li_events _ _ Hloc), Hth. unfold thread_events, share_events.
      rewrite Hpc, Hok, Hwc. simpl. by rewrite take_ge, app_nil_r.
Qed.

Lemma joined_threads_are_done_witness :
  let td := example_blocked in
  let s := run td (fun k => k) 21 0 (start (ring_init 2)) in
  joined s <= length (threads s) <= length td
  /\ (0 < joined s -> length (threads s) = length td)
  /\ (forall t, t < joined s ->
        exists data, td !! t = Some data
          /\ threads s !! t = Some (mk_thread data (word_count data) Lret)
          /\ step td (Worker t) s = None
          /\ events_of t (trace s) = share_events data).
Proof.
  intros td s.
  apply (joined_threads_are_done false td (ring_init 2) s).
  - apply (blocked_ring_wf 2 example_words false). lia.
  - apply (run_reachable td (ring_init 2)).
Defined.

(** * Splitting the paragraph *)

(** ** Counting spaces against counting tokens *)

Lemma count_spaces_acc s : forall acc, count_spaces s acc = acc + count_spaces s 0.
Proof.
  induction s as [|c s IH]; intros acc; simpl; [lia|].
  destruct (is_space c); rewrite (IH (S acc)) || rewrite (IH acc);
    rewrite ?(IH 1); lia.
Qed.

Lemma tokens_against_spaces s : forall cur,
  length (strtok_all cur s) <= count_spaces s 0 + 1
  /\ (length (strtok_all cur s) = count_spaces s 0 + 1
      <-> single_spaced_from (no_token cur) s = true).
Proof.
  induction s as [|c s IH]; intros cur.
  - destruct cur; simpl; split; try lia; split; try done; lia.
  - simpl. destruct (is_space c) eqn:Hc.
    + rewrite (count_spaces_acc s 1).
      destruct (IH None) as [Hle Hiff]. destruct cur as [t|]; simpl.
      * split; [lia|]. rewrite <- Hiff. lia.
      * split; [lia|]. split; [lia|done].
    + destruct (IH (Some (match cur with
                          | Some t => t +:+ String c EmptyString
                          | None => String c EmptyString
                          end))) as [Hle Hiff].
      split; [done|]. rewrite Hiff. by destruct cur.
Qed.

(** X8. For every text, the number of tokens that the [strtok] loop of
    [split_paragraph_into_words] finds is at most [spaces + 1], the value
    given to [total_words] and the size of [all_words]: the loop never
    stores past the end of the array, and its test [word_idx < total_words]
    never cuts a token off.  The two numbers are equal exactly when the
    text is not empty and has no space at either end and no two spaces in
    a row; for any other text some entries of [all_words] below
    [total_words] are never written. *)
Theorem total_words_covers_tokens (s : string) :
  length (strtok_all None s) <= count_spaces s 0 + 1
  /\ (length (strtok_all None s) = count_spaces s 0 + 1 <-> single_spaced s = true)
  /\ (single_spaced s = false -> length (strtok_all None s) < count_spaces s 0 + 1).
Proof.
  destruct (tokens_against_spaces s None) as [Hle Hiff].
  change (single_spaced_from (no_token None) s) with (single_spaced s) in Hiff.
  split_and!; [done..|].
  intros Hns. destruct (decide (length (strtok_all None s) = count_spaces s 0 + 1)) as [Heq|];
    [|lia].
  apply Hiff in Heq. congruence.
Qed.

(** ** Tokens are words, and splitting undoes joining *)

Lemma append_cons c (a b : string) : String c a +:+ b = String c (a +:+ b).
Proof. reflexivity. Qed.

Lemma append_nil_l (b : string) : "" +:+ b = b.
Proof. reflexivity. Qed.

Lemma append_nil_r (s : string) : s +:+ "" = s.
Proof. induction s as [|c s IH]; [done|]. by rewrite append_cons, IH. Qed.

Lemma append_assoc (a b c : string) : (a +:+ b) +:+ c = a +:+ (b +:+ c).
Proof.
  induction a as [|x a IH]; [done|]. by rewrite !append_cons, IH.
Qed.

Lemma count_spaces_append a b : forall acc,
  count_spaces (a +:+ b) acc = count_spaces b (count_spaces a acc).
Proof.
  induction a as [|x a IH]; intros acc; [done|].
  rewrite append_cons. simpl. by rewrite IH.
Qed.

Lemma is_space_eq c : is_space c = true -> c = " "%char.
Proof. unfold is_space. by intros ?%Ascii.eqb_eq. Qed.

Lemma tokens_are_words s : forall cur,
  match cur with Some t => is_word t | None => True end ->
  Forall is_word (strtok_all cur s).
Proof.
  induction s as [|c s IH]; intros cur Hcur; simpl.
  - destruct cur; [by constructor|constructor].
  - destruct (is_space c) eqn:Hc.
    + destruct cur; [constructor; [done|]|]; by apply IH.
    + apply IH. destruct cur as [t|].
      * destruct Hcur as [Hne H0]. split.
        -- by destruct t.
        -- rewrite count_spaces_append, H0. simpl. by rewrite Hc.
      * split; [done|]. simpl. by rewrite Hc.
Qed.

Lemma word_no_space c t : is_word (String c t) -> is_space c = false /\ count_spaces t 0 = 0.
Proof.
  intros [_ H0]. simpl in H0. destruct (is_space c); [|done].
  rewrite count_spaces_acc in H0. lia.
Qed.

Lemma strtok_all_word t : forall a rest,
  count_spaces t 0 = 0 ->
  strtok_all (Some a) (t +:+ rest) = strtok_all (Some (a +:+ t)) rest.
Proof.
  induction t as [|c t IH]; intros a rest H0; simpl.
  - by rewrite append_nil_r.
  - simpl in H0. destruct (is_space c) eqn:Hc.
    { rewrite count_spaces_acc in H0. lia. }
    rewrite IH by done. by rewrite append_assoc.
Qed.

Lemma strtok_all_first t rest :
  is_word t -> strtok_all None (t +:+ rest) = strtok_all (Some t) rest.
Proof.
  intros Hw. destruct t as [|c t]; [by destruct Hw|].
  destruct (word_no_space c t Hw) as [Hc H0]. simpl. rewrite Hc.
  by rewrite strtok_all_word.
Qed.

Lemma strtok_all_space t rest :
  strtok_all (Some t) (String " "%char rest) = t :: strtok_all None rest.
Proof. reflexivity. Qed.

Lemma split_of_join_from s : forall cur,
  single_spaced_from (no_token cur) s = true ->
  join_words (strtok_all cur s) = default ""%string cur +:+ s.
Proof.
  induction s as [|c s IH]; intros cur Hss.
  - destruct cur as [t|]; [|done]. simpl. by rewrite append_nil_r.
  - simpl in *. destruct (is_space c) eqn:Hc.
    + destruct cur as [t|]; [|done]. simpl in Hss.
      pose proof (IH None Hss) as Hj. simpl in Hj.
      destruct (tokens_against_spaces s None) as [_ Hiff].
      apply Hiff in Hss.
      destruct (strtok_all None s) as [|x l] eqn:Hl; [simpl in Hss; lia|].
      unfold join_words in *. simpl. simpl in Hj. rewrite Hj.
      by rewrite (is_space_eq c Hc).
    + rewrite IH by (by destruct cur). destruct cur as [t|]; simpl; [|done].
      by rewrite append_assoc.
Qed.

(** X9. For every text the tokens the [strtok] loop finds are words: none
    is empty and none holds a space.  When the text is single-spaced
    (see X8) the tokens joined by single spaces are the text again, so
    the split loses nothing but the separators. *)
Theorem split_then_join (s : string) :
  Forall is_word (strtok_all None s)
  /\ (single_spaced s = true -> join_words (strtok_all None s) = s).
Proof.
  split; [by apply tokens_are_words|].
  intros Hss. by rewrite (split_of_join_from s None Hss).
Qed.

Lemma count_spaces_join ws :
  Forall is_word ws -> count_spaces (join_words ws) 0 = length ws - 1.
Proof.
  induction 1 as [|x l Hx Hl IH]; [done|].
  unfold join_words in *. destruct l as [|y l].
  - simpl. by destruct Hx as [_ ->].
  - change (String.concat " " (x :: y :: l))
      with (x +:+ String " "%char (String.concat " " (y :: l))).
    rewrite count_spaces_append. destruct Hx as [_ ->].
    change (count_spaces (String " "%char (String.concat " " (y :: l))) 0)
      with (count_spaces (String.concat " " (y :: l)) 1).
    rewrite count_spaces_acc, IH. simpl. lia.
Qed.

(** X10. Conversely, for every list of words (non-empty, without spaces)
    the [strtok] loop run on the words joined by single spaces finds
    exactly these words, in order; and such a text always counts as many
    words as it has, unless the list is empty. *)
Theorem join_then_split (ws : list string) :
  Forall is_word ws ->
  strtok_all None (join_words ws) = ws
  /\ (ws <> [] -> count_spaces (join_words ws) 0 + 1 = length ws).
Proof.
  intros Hws.
  assert (strtok_all None (join_words ws) = ws) as Hsplit.
  { induction Hws as [|x l Hx Hl IH]; [done|].
    unfold join_words in *. destruct l as [|y l].
    - simpl. rewrite <- (append_nil_r x) at 1.
      by rewrite strtok_all_first.
    - change (String.concat " " (x :: y :: l))
        with (x +:+ " " +:+ String.concat " " (y :: l)).
      rewrite strtok_all_first by done.
      change (" " +:+ String.concat " " (y :: l))
        with (String " "%char (String.concat " " (y :: l))).
      by rewrite strtok_all_space, IH. }
  split; [done|]. intros Hne.
  rewrite (count_spaces_join ws Hws). destruct ws; [done|]. simpl. lia.
Qed.

Lemma join_then_split_witness :
  strtok_all None (join_words example_words) = example_words
  /\ (example_words <> [] ->
      count_spaces (join_words example_words) 0 + 1 = length example_words).
Proof.
  apply (join_then_split example_words).
  repeat (constructor; [split; [discriminate|reflexivity]|]). constructor.
Defined.

(** * The process, call by call *)

(** ** Reasoning with scripts *)

Lemma follows_bind {A B} (c : proc A) (f : A -> proc B) w s1 s2 Q R :
  follows c w s1 Q ->
  (forall a w', Q a w' -> after w (length s1) w' -> follows (f a) w' s2 R) ->
  follows (bind c f) w (s1 ++ s2) R.
Proof.
  intros [Hok Hfail] Hf. split.
  - rewrite length_app. intros Hg. destruct Hok as (a & w' & Hc & HQ & Haft).
    { intros j Hj. apply Hg. lia. }
    destruct (Hf a w' HQ Haft) as [Hok2 _].
    destruct Haft as (Hcalls & Hor & Hsch & Herr).
    destruct Hok2 as (b & w'' & Hfa & HR & (Hcalls2 & Hor2 & Hsch2 & Herr2)).
    { intros j Hj. rewrite Hor, Hcalls, <- Nat.add_assoc. apply Hg. lia. }
    exists b, w''. unfold bind, after. rewrite Hc.
    split_and!; try done; try congruence. lia.
  - intros j msg Hj Hg Hbad. destruct (decide (j < length s1)) as [Hlt|Hge].
    + rewrite lookup_app_l in Hj by done.
      destruct (Hfail j msg Hj Hg Hbad) as (w' & Hc & Hcalls & Herr).
      exists w'. unfold bind. by rewrite Hc.
    + rewrite lookup_app_r in Hj by lia.
      destruct Hok as (a & w' & Hc & HQ & Haft).
      { intros i Hi. apply Hg. lia. }
      destruct (Hf a w' HQ Haft) as [_ Hfail2].
      destruct Haft as (Hcalls & Hor & Hsch & Herr).
      destruct (Hfail2 (j - length s1) msg Hj) as (w'' & Hfa & Hcalls2 & Herr2).
      * intros i Hi. rewrite Hor, Hcalls, <- Nat.add_assoc. apply Hg. lia.
      * rewrite Hor, Hcalls, <- Nat.add_assoc.
        by replace (length s1 + (j - length s1)) with j by lia.
      * exists w''. unfold bind. rewrite Hc. split_and!; [done|lia|congruence].
Qed.

Lemma follows_weaken {A} (c : proc A) w s (Q R : A -> world -> Prop) :
  follows c w s Q -> (forall a w', Q a w' -> after w (length s) w' -> R a w') ->
  follows c w s R.
Proof.
  intros [Hok Hfail] HQR. split; [|done].
  intros Hg. destruct (Hok Hg) as (a & w' & Hc & HQ & Haft). eauto 10.
Qed.

Lemma follows_pure {A} (c : proc A) w a w' (Q : A -> world -> Prop) :
  c w = Ret a w' -> after w 0 w' -> Q a w' -> follows c w [] Q.
Proof.
  intros Hc Haft HQ. split; [eauto 10|]. intros j msg Hj. done.
Qed.

Lemma follows_checked msg w :
  follows (checked msg) w [msg] (fun _ w' => same_data w w').
Proof.
  split.
  - intros Hg. specialize (Hg 0 ltac:(simpl; lia)). rewrite Nat.add_0_r in Hg.
    eexists tt, _. unfold checked, bind, lib_call. rewrite Hg. simpl.
    split_and!; try done. unfold after. simpl. split_and!; try done. lia.
  - intros j m Hj _ Hbad. destruct j as [|j]; [|done]. injection Hj as <-.
    rewrite Nat.add_0_r in Hbad.
    eexists. unfold checked, bind, lib_call, perror, exit. rewrite Hbad. simpl.
    split_and!; [reflexivity|simpl; lia|done].
Qed.

Lemma follows_ext {A} (c c' : proc A) w s s' Q :
  c w = c' w -> s = s' -> follows c' w s' Q -> follows c w s Q.
Proof. intros Hc -> H. unfold follows in *. by rewrite Hc. Qed.

Lemma follows_for_each {A} (body : A -> proc unit) (I : world -> Prop) sb l :
  forall w,
  (forall x w0, x ∈ l -> I w0 -> follows (body x) w0 sb (fun _ w1 => I w1)) ->
  I w ->
  follows (for_each l body) w (concat (replicate (length l) sb)) (fun _ w' => I w').
Proof.
  induction l as [|x l IH]; intros w Hbody HI.
  - simpl. by apply (follows_pure _ w tt w); [|apply after_0|].
  - simpl. eapply follows_bind.
    + apply Hbody; [by left|done].
    + intros [] w' HI' _. apply IH; [|done].
      intros y w0 Hy. apply Hbody. by right.
Qed.

Lemma follows_fail_fast {A} (c : proc A) w s Q :
  follows c w s Q -> fail_fast c w (length s) Q.
Proof.
  intros [Hok Hfail]. split; [done|].
  intros j Hj Hg Hbad.
  destruct (lookup_lt_is_Some_2 s j Hj) as [msg Hmsg].
  destruct (Hfail j msg Hmsg Hg Hbad) as (w' & ?). by exists w', msg.
Qed.

(** ** The split *)

Lemma token_loop_follows tokens : forall w,
  length (w_all_words w) + length tokens <= w_total_words w ->
  follows (token_loop tokens) w (replicate (length tokens) "strdup failed"%string)
    (fun _ w' => w_all_words w' = w_all_words w ++ tokens
                 /\ w_total_words w' = w_total_words w
                 /\ w_semaphores w' = w_semaphores w
                 /\ w_trace w' = w_trace w).
Proof.
  induction tokens as [|token tokens IH]; intros w Hlen.
  - apply (follows_pure _ w tt w); [done|apply after_0|].
    by rewrite app_nil_r.
  - simpl in Hlen.
    eapply (follows_ext _
             (checked "strdup failed" ;;;
              set_words (w_all_words w ++ [token]) (w_total_words w) ;;;
              token_loop tokens) _ _
             (["strdup failed"%string]
              ++ ([] ++ replicate (length tokens) "strdup failed"%string))); [|done|].
    { simpl. destruct (Nat.ltb_spec (length (w_all_words w)) (w_total_words w)); [done|lia]. }
    eapply follows_bind; [apply follows_checked|].
    intros [] w1 (Htr1 & Hs1 & Hw1 & Ht1) _.
    eapply follows_bind.
    + eapply (follows_pure _ w1 tt _ (fun _ w2 =>
                w_all_words w2 = w_all_words w ++ [token]
                /\ w_total_words w2 = w_total_words w
                /\ w_semaphores w2 = w_semaphores w
                /\ w_trace w2 = w_trace w)); [done| |done].
      unfold after. simpl. split_and!; [lia|done..].
    + intros [] w2 (Hw2 & Ht2 & Hs2 & Htr2) _.
      eapply follows_weaken.
      * apply IH. rewrite Hw2, Ht2, length_app. simpl. lia.
      * intros [] w3 (Hw3 & Ht3 & Hs3 & Htr3) _.
        rewrite Hw3, Hw2, <- app_assoc. split_and!; try done; congruence.
Qed.

Lemma split_words_of_follows p w :
  follows (split_words_of p) w (split_script (length (strtok_all None p)))
    (fun a w' => a = count_spaces p 0 + 1
                 /\ w_all_words w' = strtok_all None p
                 /\ w_total_words w' = count_spaces p 0 + 1
                 /\ w_semaphores w' = w_semaphores w
                 /\ w_trace w' = w_trace w).
Proof.
  destruct (tokens_against_spaces p None) as [Hlen _].
  set (tokens := strtok_all None p) in *. set (total := count_spaces p 0 + 1) in *.
  unfold split_words_of. fold total. fold tokens.
  eapply (follows_ext _ _ _ _
            ([] ++ ["malloc failed"%string] ++ ["strdup failed"%string]
             ++ replicate (length tokens) "strdup failed"%string ++ [])); [done| |].
  { unfold split_script. simpl. by rewrite app_nil_r. }
  eapply follows_bind.
  { eapply (follows_pure _ w tt _ (fun _ w1 =>
              w_all_words w1 = [] /\ w_total_words w1 = total
              /\ w_semaphores w1 = w_semaphores w /\ w_trace w1 = w_trace w));
      [done| |done].
    unfold after. cbn [w_calls w_oracle w_sched w_stderr]. split_and!; [lia|done..]. }
  intros [] w1 (Hw1 & Ht1 & Hs1 & Htr1) _.
  eapply follows_bind; [apply follows_checked|].
  intros [] w2 (Htr2 & Hs2 & Hw2 & Ht2) _.
  eapply follows_bind; [apply follows_checked|].
  intros [] w3 (Htr3 & Hs3 & Hw3 & Ht3) _.
  eapply follows_bind.
  { apply token_loop_follows. rewrite Hw3, Hw2, Hw1, Ht3, Ht2, Ht1. cbn [length]. lia. }
  intros [] w4 (Hw4 & Ht4 & Hs4 & Htr4) _.
  apply (follows_pure _ w4 total w4); [done|apply after_0|].
  rewrite Hw4, Hw3, Hw2, Hw1. split_and!; [done|done|congruence..].
Qed.

(** X11. [split_paragraph_into_words], for any text: it makes one [malloc]
    and then one [strdup] for the copy and one per token.  If they all
    succeed it returns [spaces + 1], which is also [total_words], and
    [all_words] holds the tokens of the text, all of them and in order.
    If call [j] is the first to fail the process exits with
    [EXIT_FAILURE] after one diagnostic, "malloc failed" for the first
    call and "strdup failed" for the others, and makes no further call. *)
Theorem split_stores_tokens (p : string) (w : world) :
  let tokens := strtok_all None p in
  let total := count_spaces p 0 + 1 in
  (grants w (2 + length tokens) ->
     exists w', split_words_of p w = Ret total w'
       /\ w_all_words w' = tokens /\ w_total_words w' = total
       /\ w_calls w' = w_calls w + (2 + length tokens)
       /\ w_stderr w' = w_stderr w)
  /\ (forall j, j < 2 + length tokens -> grants w j ->
        w_oracle w (w_calls w + j) = false ->
        exists w', split_words_of p w = Exit EXIT_FAILURE w'
          /\ w_calls w' = w_calls w + S j
          /\ w_stderr w'
             = w_stderr w
               ++ [if j =? 0 then "malloc failed"%string else "strdup failed"%string])
  /\ split_paragraph_into_words = split_words_of paragraph.
Proof.
  intros tokens total.
  destruct (split_words_of_follows p w) as [Hok Hfail]. fold tokens in Hok, Hfail.
  assert (length (split_script (length tokens)) = 2 + length tokens) as Hlen
    by (unfold split_script; simpl; by rewrite length_replicate).
  rewrite Hlen in Hok.
  split_and!.
  - intros Hg. destruct (Hok Hg) as (a & w' & Hc & (-> & Hw & Ht & _) & Haft).
    destruct Haft as (Hcalls & _ & _ & Herr). exists w'. by split_and!.
  - intros j Hj Hg Hbad.
    apply (Hfail j); [|done..].
    unfold split_script. destruct j as [|j]; [done|].
    change (replicate (S (length tokens)) "strdup failed"%string !! j
            = Some "strdup failed"%string).
    apply lookup_replicate_2. lia.
  - reflexivity.
Qed.

(** ** The ring *)

Lemma fail_fast_0_follows {A} (c : proc A) w Q : fail_fast c w 0 Q -> follows c w [] Q.
Proof. intros [Hok _]. split; [done|]. intros j msg Hj. done. Qed.

Lemma init_loop_follows (l : list nat) : forall w,
  follows
    (for_each l (fun i =>
       do ok <- lib_call ;
       if ok : bool
       then (fun w => set_semaphores
                        (<[i := sem_init (if i =? 0 then 1 else 0)]> (w_semaphores w)) w)
       else (perror "sem_init failed" ;;; exit EXIT_FAILURE)))
    w (ring_script (length l))
    (fun _ w' => w_semaphores w'
                 = foldl (fun s j => <[j := init_value j]> s) (w_semaphores w) l
                 /\ w_all_words w' = w_all_words w
                 /\ w_total_words w' = w_total_words w
                 /\ w_trace w' = w_trace w).
Proof.
  induction l as [|i l IH]; intros w.
  - apply (follows_pure _ w tt w); [done|apply after_0|done].
  - simpl. eapply (follows_ext _ _ _ _
                     (["sem_init failed"%string] ++ ring_script (length l))); [done|done|].
    eapply follows_bind.
    + instantiate (1 := fun _ w1 =>
        w_semaphores w1 = <[i := init_value i]> (w_semaphores w)
        /\ w_all_words w1 = w_all_words w /\ w_total_words w1 = w_total_words w
        /\ w_trace w1 = w_trace w).
      split.
      * intros Hg. specialize (Hg 0 ltac:(simpl; lia)). rewrite Nat.add_0_r in Hg.
        eexists tt, _. unfold bind, lib_call, set_semaphores. rewrite Hg. simpl.
        split_and!; try done. unfold after. simpl. split_and!; [lia|done..].
      * intros j msg Hj _ Hbad. destruct j as [|j]; [|done]. injection Hj as <-.
        rewrite Nat.add_0_r in Hbad.
        eexists. unfold bind, lib_call, perror, exit. rewrite Hbad. simpl.
        split_and!; [reflexivity|simpl; lia|done].
    + intros [] w1 (Hs1 & Hw1 & Ht1 & Htr1) _.
      eapply follows_weaken; [apply IH|].
      intros [] w2 (Hs2 & Hw2 & Ht2 & Htr2) _.
      rewrite Hs2, Hs1. split_and!; try done; congruence.
Qed.

Lemma init_semaphores_follows n w :
  length (w_semaphores w) = n ->
  follows (init_semaphores n) w (ring_script n)
    (fun _ w' => w_semaphores w' = ring_init n
                 /\ w_all_words w' = w_all_words w
                 /\ w_total_words w' = w_total_words w
                 /\ w_trace w' = w_trace w).
Proof.
  intros Hlen. unfold init_semaphores.
  eapply (follows_ext _ _ _ _ (ring_script (length (seq 0 n))));
    [done|by rewrite length_seq|].
  eapply follows_weaken; [apply init_loop_follows|].
  intros [] w' (Hs & Hw & Ht & Htr) _. by rewrite Hs, init_fold.
Qed.

Lemma lookup_foldl_destroy (l : list nat) : forall (s : list sem_t) i,
  foldl (fun s j => alter sem_destroy j s) s l !! i
  = if decide (i ∈ l) then (fun _ => SemUninit) <$> s !! i else s !! i.
Proof.
  induction l as [|x l IH]; intros s i; simpl.
  - destruct (decide (i ∈ [])) as [Hin|]; [by apply elem_of_nil in Hin|done].
  - rewrite IH, list_lookup_alter.
    destruct (decide (i ∈ x :: l)) as [Hin|Hnin], (decide (i ∈ l)) as [Hin'|Hnin'],
      (decide (x = i)) as [->|Hne];
      try (by destruct (s !! i)); exfalso.
    + apply elem_of_cons in Hin as [->|?]; done.
    + apply Hnin. by right.
    + apply Hnin. by right.
    + apply Hnin. by left.
Qed.

Lemma destroy_fold n (s : list sem_t) :
  length s = n ->
  foldl (fun s j => alter sem_destroy j s) s (seq 0 n) = replicate n SemUninit.
Proof.
  intros Hlen. apply list_eq. intros i. rewrite lookup_foldl_destroy.
  destruct (decide (i ∈ seq 0 n)) as [Hin|Hnin].
  - apply elem_of_seq in Hin.
    destruct (lookup_lt_is_Some_2 s i ltac:(lia)) as [x Hx]. rewrite Hx. simpl.
    symmetry. apply lookup_replicate_2. lia.
  - rewrite elem_of_seq in Hnin.
    rewrite !lookup_ge_None_2; [done|rewrite length_replicate; lia|lia].
Qed.

Lemma destroy_semaphores_follows n w :
  length (w_semaphores w) = n ->
  follows (destroy_semaphores n) w []
    (fun _ w' => w_semaphores w' = replicate n SemUninit
                 /\ w_all_words w' = w_all_words w
                 /\ w_total_words w' = w_total_words w
                 /\ w_trace w' = w_trace w).
Proof.
  intros Hlen. unfold destroy_semaphores. apply fail_fast_0_follows.
  eapply fail_fast_weaken; [apply destroy_loop_ok|].
  intros [] w' (Hs & Hw & Ht & Htr) _. by rewrite Hs, destroy_fold.
Qed.

Lemma reset_semaphores_follows n w :
  length (w_semaphores w) = n ->
  follows (reset_semaphores n) w (ring_script n)
    (fun _ w' => w_semaphores w' = ring_init n
                 /\ w_all_words w' = w_all_words w
                 /\ w_total_words w' = w_total_words w
                 /\ w_trace w' = w_trace w).
Proof.
  intros Hlen. unfold reset_semaphores.
  eapply (follows_ext _ _ _ _ ([] ++ ring_script n)); [done|done|].
  eapply follows_bind; [by apply destroy_semaphores_follows|].
  intros [] w1 (Hs1 & Hw1 & Ht1 & Htr1) _.
  eapply follows_weaken.
  - apply init_semaphores_follows. by rewrite Hs1, length_replicate.
  - intros [] w2 (Hs2 & Hw2 & Ht2 & Htr2) _. split_and!; try done; congruence.
Qed.

(** ** Running the threads *)

Lemma run_threads_follows mode td w (Inv : state -> Prop) :
  (forall s, Inv s -> local_inv td s) ->
  (forall a s s', Inv s -> step td a s = Some s' -> Inv s') ->
  (forall s, Inv s -> ~ completed td s -> exists a s', step td a s = Some s') ->
  Inv (start (w_semaphores w)) ->
  follows (run_threads mode td) w (threads_script (length td))
    (fun _ w' => exists s,
       reachable td (w_semaphores w) s /\ completed td s /\ Inv s
       /\ w_semaphores w' = semaphores s
       /\ w_trace w' = w_trace w ++ trace s
       /\ w_all_words w' = w_all_words w
       /\ w_total_words w' = w_total_words w).
Proof.
  intros Hloc Hstep Hprog Hinit. unfold run_threads.
  eapply (follows_ext _ _ _ _ (threads_script (length td) ++ [])); [done| |].
  { by rewrite app_nil_r. }
  eapply follows_bind.
  - apply (follows_for_each _ (fun w0 => same_data w w0 /\ w_sched w0 = w_sched w)).
    + intros data w0 _ [(Htr0 & Hs0 & Hw0 & Ht0) Hsch0].
      eapply (follows_ext _ _ _ _
                (["malloc failed"%string] ++ ["pthread_create failed"%string]));
        [done|done|].
      eapply follows_bind; [apply follows_checked|].
      intros [] w1 (Htr1 & Hs1 & Hw1 & Ht1) (_ & _ & Hsch1 & _).
      eapply follows_weaken; [apply follows_checked|].
      intros [] w2 (Htr2 & Hs2 & Hw2 & Ht2) (_ & _ & Hsch2 & _).
      unfold same_data. split_and!; congruence.
    + by unfold same_data.
  - intros [] w1 [(Htr1 & Hs1 & Hw1 & Ht1) Hsch1] _.
    set (s0 := start (w_semaphores w1)).
    set (s := run td (w_sched w1 mode) (measure td s0) 0 s0).
    destruct (run_completes td Inv Hloc Hstep Hprog
                (w_sched w1 mode) (measure td s0) 0 s0) as (Hc & Hi & Hsteps).
    { subst s0. by rewrite Hs1. }
    { done. }
    fold s in Hc, Hi, Hsteps.
    eapply (follows_pure _ w1 tt); [| |exists s; split_and!].
    + simpl. fold s0. fold s. unfold completed in Hc. rewrite Hc, Nat.eqb_refl. done.
    + unfold after. simpl. split_and!; [lia|done..].
    + rewrite <- Hs1. eexists. exact Hsteps.
    + done.
    + done.
    + done.
    + simpl. by rewrite Htr1.
    + done.
    + done.
Qed.

(** ** [print_paragraph], output included *)

Lemma strided_completed_emits n ws s :
  0 < n ->
  reachable (strided_data n ws false <$> seq 0 n) (ring_init n) s ->
  completed (strided_data n ws false <$> seq 0 n) s ->
  emits (trace s) = strided_output n ws.
Proof.
  intros Hn Hreach Hc.
  set (td := strided_data n ws false <$> seq 0 n) in *.
  assert (length td = n) as Hlen by (subst td; by rewrite length_fmap, length_seq).
  apply (sync_completed_emits td (length ws) s).
  - by apply strided_ring_wf.
  - lia.
  - apply strided_balanced.
  - by rewrite Hlen.
  - done.
  - apply list_eq. intros k. unfold strided_output.
    rewrite !list_lookup_fmap, list_lookup_imap.
    destruct (ws !! k) as [w|] eqn:Hk.
    + rewrite lookup_seq_lt by (by eapply lookup_lt_Some). simpl.
      f_equal. by apply strided_rotation_item.
    + by rewrite lookup_seq_ge by (by apply lookup_ge_None_1).
Qed.

Lemma blocked_rotation_item n ws k :
  0 < n -> k < length ws ->
  rotation_item (blocked_data n ws false <$> seq 0 n) k
  = Some (k mod n, default ""%string (ws !! blocked_order n (length ws) k)).
Proof.
  intros Hn Hk. unfold rotation_item. rewrite length_fmap, length_seq.
  pose proof (Nat.mod_upper_bound k n ltac:(lia)) as Hlt.
  pose proof (Nat.div_mod_eq k n) as Hdm.
  rewrite list_lookup_fmap, lookup_seq_lt by done. simpl.
  assert (k / n < share_size n (length ws) (k mod n)) as Hsz.
  { apply share_size_lt; [done..|]. lia. }
  destruct (lookup_lt_is_Some_2 (blocked_share n ws (k mod n)) (k / n)) as [w Hw].
  { by rewrite blocked_share_length. }
  rewrite Hw. unfold blocked_share in Hw.
  apply lookup_take_Some in Hw as [Hw _]. rewrite lookup_drop in Hw.
  unfold blocked_order. by rewrite Hw.
Qed.

Lemma blocked_completed_emits n ws s :
  0 < n ->
  reachable (blocked_data n ws false <$> seq 0 n) (ring_init n) s ->
  completed (blocked_data n ws false <$> seq 0 n) s ->
  emits (trace s) = blocked_output n ws.
Proof.
  intros Hn Hreach Hc.
  set (td := blocked_data n ws false <$> seq 0 n) in *.
  assert (length td = n) as Hlen by (subst td; by rewrite length_fmap, length_seq).
  apply (sync_completed_emits td (length ws) s).
  - by apply blocked_ring_wf.
  - lia.
  - apply blocked_balanced.
  - by rewrite Hlen.
  - done.
  - unfold blocked_output. rewrite <- !list_fmap_compose.
    apply list_fmap_ext. intros i k Hik. apply lookup_seq in Hik as [-> Hk].
    simpl. by apply blocked_rotation_item.
Qed.

Lemma run_threads_prints n mode td w (out : list (nat * string)) :
  0 < n -> partitioned n (w_all_words w) mode td ->
  length (w_semaphores w) = n ->
  (mode = false -> w_semaphores w = ring_init n) ->
  (forall s, reachable td (ring_init n) s -> completed td s -> mode = false ->
     emits (trace s) = out) ->
  follows (run_threads mode td) w (threads_script n)
    (fun _ w' => exists tr,
       w_trace w' = w_trace w ++ tr
       /\ (mode = false -> emits tr = out)
       /\ (mode = true -> (emits tr).*2 ≡ₚ w_all_words w
                          /\ Forall (fun e => is_gate_op e = false) tr)
       /\ length (w_semaphores w') = n
       /\ w_all_words w' = w_all_words w
       /\ w_total_words w' = w_total_words w).
Proof.
  intros Hn Hp Hsl Hring Hout.
  destruct (partitioned_facts n _ mode td Hn Hp) as (Hlen & Hwf & Hbal & Hperm).
  rewrite <- Hlen at 1. destruct mode.
  - eapply follows_weaken.
    + apply (run_threads_follows true td w (chaos_inv td (w_semaphores w))).
      * by intros s [? _].
      * by apply chaos_inv_step.
      * by apply chaos_progress.
      * apply chaos_inv_start.
    + intros [] w' (s & _ & Hc & (Hloc & Hs & Hgate) & Hs' & Htr & Hw & Ht) _.
      exists (trace s). split_and!; try done; try congruence.
      intros _. split; [|done].
      by rewrite (completed_emits_perm td true Hwf s Hloc Hc).
  - assert (0 < length td) as Hpos by lia.
    specialize (Hring eq_refl).
    eapply follows_weaken.
    + apply (run_threads_follows false td w (sync_inv td)).
      * by intros s [? _].
      * by apply sync_inv_step.
      * by apply (sync_progress td Hwf Hpos (length (w_all_words w))).
      * rewrite Hring, <- Hlen. by apply sync_inv_start.
    + intros [] w' (s & Hreach & Hc & Hi & Hs' & Htr & Hw & Ht) _.
      rewrite Hring in Hreach.
      exists (trace s). split_and!; try done.
      * intros _. by apply Hout.
      * destruct (sync_completed td Hpos _ Hbal s Hi Hc) as [Hs _].
        by rewrite Hs', Hs, token_at_length.
Qed.

Lemma strided_prints n : 0 < n -> prints n (Strided.print_paragraph n) (strided_output n).
Proof.
  intros Hn mode w Hwords Hsl Hring. unfold Strided.print_paragraph.
  eapply (follows_ext _
           (run_threads mode (strided_data n (w_all_words w) mode <$> seq 0 n)));
    [|done|].
  { rewrite Hwords, Nat.eqb_refl. by rewrite strided_thread_data. }
  apply run_threads_prints; try done.
  - left. by apply strided_thread_data.
  - intros s Hreach Hc ->. by apply strided_completed_emits.
Qed.

Lemma blocked_prints n : 0 < n -> prints n (Blocked.print_paragraph n) (blocked_output n).
Proof.
  intros Hn mode w Hwords Hsl Hring. unfold Blocked.print_paragraph.
  eapply (follows_ext _
           (run_threads mode (blocked_data n (w_all_words w) mode <$> seq 0 n)));
    [|done|].
  { rewrite Hwords, Nat.eqb_refl. by rewrite blocked_thread_data. }
  apply run_threads_prints; try done.
  - right. by apply blocked_thread_data.
  - intros s Hreach Hc ->. by apply blocked_completed_emits.
Qed.

(** ** [main] *)

Lemma main_with_follows p n pp out w :
  single_spaced p = true -> prints n pp out ->
  length (w_semaphores w) = n ->
  follows (main_with p n pp) w (main_script (length (strtok_all None p)) n)
    (fun a w' => a = 0%Z /\ exists tr1 tr2,
       w_trace w' = w_trace w ++ tr1 ++ tr2
       /\ emits tr1 = out (strtok_all None p)
       /\ (emits tr2).*2 ≡ₚ strtok_all None p
       /\ Forall (fun e => is_gate_op e = false) tr2
       /\ w_semaphores w' = replicate n SemUninit
       /\ w_all_words w' = []
       /\ w_total_words w' = length (strtok_all None p)).
Proof.
  intros Hss Hpp Hsl.
  destruct (tokens_against_spaces p None) as [_ Hiff].
  apply Hiff in Hss. clear Hiff.
  set (tokens := strtok_all None p) in *.
  unfold main_with, main_script.
  eapply (follows_ext _ _ _ _
            (split_script (length tokens) ++ ring_script n ++ threads_script n
             ++ ring_script n ++ threads_script n ++ [] ++ [] ++ [])); [done| |].
  { by rewrite !app_nil_r. }
  eapply follows_bind; [apply split_words_of_follows|].
  intros a1 w1 (_ & Hw1 & Ht1 & Hs1 & Htr1) _. fold tokens in Hw1.
  eapply follows_bind; [apply init_semaphores_follows; congruence|].
  intros [] w2 (Hs2 & Hw2 & Ht2 & Htr2) _.
  eapply follows_bind.
  { apply (Hpp false).
    - rewrite Hw2, Ht2, Hw1, Ht1. done.
    - rewrite Hs2. unfold ring_init. by rewrite length_fmap, length_seq.
    - done. }
  intros [] w3 (tr1 & Htr3 & Hout1 & _ & Hl3 & Hw3 & Ht3) _.
  eapply follows_bind; [by apply reset_semaphores_follows|].
  intros [] w4 (Hs4 & Hw4 & Ht4 & Htr4) _.
  eapply follows_bind.
  { apply (Hpp true).
    - rewrite Hw4, Ht4, Hw3, Ht3, Hw2, Ht2, Hw1, Ht1. done.
    - rewrite Hs4. unfold ring_init. by rewrite length_fmap, length_seq.
    - done. }
  intros [] w5 (tr2 & Htr5 & _ & Hout2 & Hl5 & Hw5 & Ht5) _.
  eapply follows_bind; [by apply destroy_semaphores_follows|].
  intros [] w6 (Hs6 & Hw6 & Ht6 & Htr6) _.
  eapply follows_bind.
  { eapply (follows_pure free_words w6 tt _ (fun _ w7 =>
              w_all_words w7 = [] /\ w_total_words w7 = w_total_words w6
              /\ w_semaphores w7 = w_semaphores w6 /\ w_trace w7 = w_trace w6));
      [reflexivity| |done].
    unfold after. cbn [w_calls w_oracle w_sched w_stderr]. split_and!; [lia|done..]. }
  intros [] w7 (Hw7 & Ht7 & Hs7 & Htr7) _.
  apply (follows_pure _ w7 0%Z w7); [done|apply after_0|].
  split; [done|]. exists tr1, tr2.
  destruct (Hout2 eq_refl) as [Hperm Hgate].
  split_and!.
  - rewrite Htr7, Htr6, Htr5, Htr4, Htr3, Htr2, Htr1. by rewrite app_assoc.
  - rewrite (Hout1 eq_refl). by rewrite Hw2, Hw1.
  - rewrite Hperm. by rewrite Hw4, Hw3, Hw2, Hw1.
  - done.
  - congruence.
  - done.
  - rewrite Ht7, Ht6, Ht5, Ht4, Ht3, Ht2, Ht1. by rewrite Hss.
Qed.

Lemma main_script_length tokens n :
  length (main_script tokens n) = 2 + tokens + 6 * n.
Proof.
  assert (forall k, length (threads_script k) = 2 * k) as Hts.
  { unfold threads_script. induction k as [|k IH]; [done|]. simpl. rewrite IH. lia. }
  unfold main_script, split_script, ring_script.
  rewrite !length_app, !Hts. simpl. rewrite !length_replicate. lia.
Qed.

Lemma boot_with_grants n oracle sched k :
  (forall j, j < k -> oracle j = true) -> grants (boot_with n oracle sched) k.
Proof. intros H j Hj. simpl. by apply H. Qed.

(** X12. The diagnostic names the call that failed.  For every
    single-spaced text and every N >= 1, in both revisions and under
    every scheduler: the fallible calls of [main] are, in this order, the
    [malloc] of [all_words], the [strdup] of the paragraph and one per
    token, N [sem_init], then per thread a [malloc] and a
    [pthread_create], N [sem_init] again for the reset, and again a
    [malloc] and a [pthread_create] per thread; if the call at position
    [j] of this list is the first to fail, the process exits with
    [EXIT_FAILURE] having written exactly the diagnostic listed at
    position [j], and having made no further call.  The program itself is
    the instance with the paragraph of the source and [NUM_THREADS]. *)
Theorem main_diagnostics (p : string) (n : nat) (oracle : nat -> bool)
    (sched : bool -> nat -> nat) (j : nat) (msg : string) :
  0 < n -> single_spaced p = true ->
  main_script (length (strtok_all None p)) n !! j = Some msg ->
  (forall i, i < j -> oracle i = true) -> oracle j = false ->
  (exists w, main_with p n (Strided.print_paragraph n) (boot_with n oracle sched)
             = Exit EXIT_FAILURE w
             /\ w_stderr w = [msg] /\ w_calls w = S j)
  /\ (exists w, main_with p n (Blocked.print_paragraph n) (boot_with n oracle sched)
                = Exit EXIT_FAILURE w
                /\ w_stderr w = [msg] /\ w_calls w = S j)
  /\ length (main_script (length (strtok_all None p)) n)
     = 2 + length (strtok_all None p) + 6 * n
  /\ Strided.main n = main_with paragraph n (Strided.print_paragraph n)
  /\ Blocked.main n = main_with paragraph n (Blocked.print_paragraph n)
  /\ boot oracle sched = boot_with NUM_THREADS oracle sched.
Proof.
  intros Hn Hss Hmsg Hbefore Hbad.
  assert (length (ring_fresh n) = n) as Hfresh by apply length_replicate.
  split_and!; [| |apply main_script_length|reflexivity..].
  - destruct (main_with_follows p n _ _ (boot_with n oracle sched) Hss
                (strided_prints n Hn) Hfresh) as [_ Hfail].
    destruct (Hfail j msg Hmsg) as (w & Hc & Hcalls & Herr);
      [by apply boot_with_grants|done|].
    exists w. by split_and!.
  - destruct (main_with_follows p n _ _ (boot_with n oracle sched) Hss
                (blocked_prints n Hn) Hfresh) as [_ Hfail].
    destruct (Hfail j msg Hmsg) as (w & Hc & Hcalls & Herr);
      [by apply boot_with_grants|done|].
    exists w. by split_and!.
Qed.

Lemma main_diagnostics_witness :
  let oracle := fun j => negb (j =? 47) in
  let sched := fun (_ : bool) (k : nat) => k in
  (exists w, main_with paragraph 5 (Strided.print_paragraph 5) (boot_with 5 oracle sched)
             = Exit EXIT_FAILURE w
             /\ w_stderr w = ["pthread_create failed"%string] /\ w_calls w = 48)
  /\ (exists w, main_with paragraph 5 (Blocked.print_paragraph 5) (boot_with 5 oracle sched)
                = Exit EXIT_FAILURE w
                /\ w_stderr w = ["pthread_create failed"%string] /\ w_calls w = 48)
  /\ length (main_script (length (strtok_all None paragraph)) 5)
     = 2 + length (strtok_all None paragraph) + 6 * 5
  /\ Strided.main 5 = main_with paragraph 5 (Strided.print_paragraph 5)
  /\ Blocked.main 5 = main_with paragraph 5 (Blocked.print_paragraph 5)
  /\ boot oracle sched = boot_with NUM_THREADS oracle sched.
Proof.
  intros oracle sched.
  apply (main_diagnostics paragraph 5 oracle sched 47 "pthread_create failed").
  - lia.
  - vm_compute. reflexivity.
  - vm_compute. reflexivity.
  - intros i Hi. subst oracle. simpl. destruct (Nat.eqb_spec i 47); [lia|reflexivity].
  - reflexivity.
Defined.

(** X13. The first revision prints the paragraph.  For every single-spaced
    text and every N >= 1, under every scheduler, when no call fails:
    [main] returns 0; the output is that of the synchronized run followed
    by that of the unsynchronized run; the synchronized run has printed
    the words of the text in their order, word [k] by thread [k mod N],
    so that its words joined by spaces are the text; the unsynchronized
    run has printed each word once, in some order, and has used no
    semaphore; at the end every semaphore is destroyed, [all_words] is
    released and nothing is on the error stream. *)
Theorem main_prints_paragraph (p : string) (n : nat) (oracle : nat -> bool)
    (sched : bool -> nat -> nat) :
  0 < n -> single_spaced p = true ->
  (forall j, j < 2 + length (strtok_all None p) + 6 * n -> oracle j = true) ->
  exists w tr1 tr2,
    main_with p n (Strided.print_paragraph n) (boot_with n oracle sched) = Ret 0%Z w
    /\ w_trace w = tr1 ++ tr2
    /\ emits tr1 = imap (fun k x => (k mod n, x)) (strtok_all None p)
    /\ join_words (emits tr1).*2 = p
    /\ (emits tr2).*2 ≡ₚ strtok_all None p
    /\ Forall (fun e => is_gate_op e = false) tr2
    /\ w_semaphores w = replicate n SemUninit
    /\ w_all_words w = [] /\ w_stderr w = []
    /\ w_calls w = 2 + length (strtok_all None p) + 6 * n.
Proof.
  intros Hn Hss Hgrant.
  assert (length (ring_fresh n) = n) as Hfresh by apply length_replicate.
  destruct (main_with_follows p n _ _ (boot_with n oracle sched) Hss
              (strided_prints n Hn) Hfresh) as [Hok _].
  rewrite main_script_length in Hok.
  destruct Hok as (a & w & Hc & (-> & tr1 & tr2 & Htr & H1 & H2 & Hg & Hs & Hw & _) & Haft);
    [by apply boot_with_grants|].
  destruct Haft as (Hcalls & _ & _ & Herr).
  exists w, tr1, tr2. split_and!; try done.
  rewrite H1. unfold strided_output. rewrite snd_imap_mod.
  by rewrite (split_of_join_from p None Hss).
Qed.

Lemma main_prints_paragraph_witness :
  let oracle := fun _ : nat => true in
  let sched := fun (mode : bool) (k : nat) => if mode then 7 * k + 3 else k in
  exists w tr1 tr2,
    main_with paragraph 5 (Strided.print_paragraph 5) (boot_with 5 oracle sched) = Ret 0%Z w
    /\ w_trace w = tr1 ++ tr2
    /\ emits tr1 = imap (fun k x => (k mod 5, x)) (strtok_all None paragraph)
    /\ join_words (emits tr1).*2 = paragraph
    /\ (emits tr2).*2 ≡ₚ strtok_all None paragraph
    /\ Forall (fun e => is_gate_op e = false) tr2
    /\ w_semaphores w = replicate 5 SemUninit
    /\ w_all_words w = [] /\ w_stderr w = []
    /\ w_calls w = 2 + length (strtok_all None paragraph) + 6 * 5.
Proof.
  intros oracle sched.
  apply (main_prints_paragraph paragraph 5 oracle sched).
  - lia.
  - vm_compute. reflexivity.
  - intros j Hj. reflexivity.
Defined.

(** X14. The second revision, under the same conditions: [main] returns 0
    with the same final state, but the synchronized run has printed, at
    step [k], the word at position [blocked_order N m k] of the text (item
    [k / N] of the block of thread [k mod N]), which is not the order of
    the text unless N = 1 or there are at most N words (see X5). *)
Theorem main_blocked_output (p : string) (n : nat) (oracle : nat -> bool)
    (sched : bool -> nat -> nat) :
  0 < n -> single_spaced p = true ->
  (forall j, j < 2 + length (strtok_all None p) + 6 * n -> oracle j = true) ->
  exists w tr1 tr2,
    main_with p n (Blocked.print_paragraph n) (boot_with n oracle sched) = Ret 0%Z w
    /\ w_trace w = tr1 ++ tr2
    /\ emits tr1 = blocked_output n (strtok_all None p)
    /\ (emits tr2).*2 ≡ₚ strtok_all None p
    /\ Forall (fun e => is_gate_op e = false) tr2
    /\ w_semaphores w = replicate n SemUninit
    /\ w_all_words w = [] /\ w_stderr w = []
    /\ w_calls w = 2 + length (strtok_all None p) + 6 * n.
Proof.
  intros Hn Hss Hgrant.
  assert (length (ring_fresh n) = n) as Hfresh by apply length_replicate.
  destruct (main_with_follows p n _ _ (boot_with n oracle sched) Hss
              (blocked_prints n Hn) Hfresh) as [Hok _].
  rewrite main_script_length in Hok.
  destruct Hok as (a & w & Hc & (-> & tr1 & tr2 & Htr & H1 & H2 & Hg & Hs & Hw & _) & Haft);
    [by apply boot_with_grants|].
  destruct Haft as (Hcalls & _ & _ & Herr).
  exists w, tr1, tr2. by split_and!.
Qed.

Lemma main_blocked_output_witness :
  let oracle := fun _ : nat => true in
  let sched := fun (mode : bool) (k : nat) => if mode then 7 * k + 3 else k in
  exists w tr1 tr2,
    main_with paragraph 5 (Blocked.print_paragraph 5) (boot_with 5 oracle sched) = Ret 0%Z w
    /\ w_trace w = tr1 ++ tr2
    /\ emits tr1 = blocked_output 5 (strtok_all None paragraph)
    /\ (emits tr2).*2 ≡ₚ strtok_all None paragraph
    /\ Forall (fun e => is_gate_op e = false) tr2
    /\ w_semaphores w = replicate 5 SemUninit
    /\ w_all_words w = [] /\ w_stderr w = []
    /\ w_calls w = 2 + length (strtok_all None paragraph) + 6 * 5.
Proof.
  intros oracle sched.
  apply (main_blocked_output paragraph 5 oracle sched).
  - lia.
  - vm_compute. reflexivity.
  - intros j Hj. reflexivity.
Defined.

(** ** A text that is not single-spaced *)




(** * The heap *)

(** ** Composition *)

Lemma hspec_bind {A B} (c : Heap.hproc A) (f : A -> Heap.hproc B) m k1 k2 Q R E1 E2 :
  hspec c m k1 Q E1 ->
  (forall a m', Q a m' ->
     Heap.m_calls m' = Heap.m_calls m + k1 -> Heap.m_oracle m' = Heap.m_oracle m ->
     Heap.m_stderr m' = Heap.m_stderr m ->
     hspec (f a) m' k2 R E2) ->
  hspec (Heap.bind c f) m (k1 + k2) R
    (fun j m' => if decide (j < k1) then E1 j m' else E2 (j - k1) m').
Proof.
  intros [Hok Hfail] Hf. split.
  - intros Hg. destruct Hok as (a & m' & Hc & HQ & Hcalls & Hor & Herr).
    { intros j Hj. apply Hg. lia. }
    destruct (Hf a m' HQ Hcalls Hor Herr) as [Hok2 _].
    destruct Hok2 as (b & m'' & Hfa & HR & Hcalls2 & Hor2 & Herr2).
    { intros j Hj. rewrite Hor, Hcalls, <- Nat.add_assoc. apply Hg. lia. }
    exists b, m''. unfold Heap.bind. rewrite Hc.
    split_and!; try done; try congruence. lia.
  - intros j Hj Hg Hbad. destruct (decide (j < k1)) as [Hlt|Hge].
    + destruct (Hfail j Hlt Hg Hbad) as (m' & Hc & HE & Hcalls & Hmsg).
      exists m'. unfold Heap.bind. by rewrite Hc.
    + destruct Hok as (a & m' & Hc & HQ & Hcalls & Hor & Herr).
      { intros i Hi. apply Hg. lia. }
      destruct (Hf a m' HQ Hcalls Hor Herr) as [_ Hfail2].
      destruct (Hfail2 (j - k1)) as (m'' & Hfa & HE & Hcalls2 & msg & Hmsg).
      * lia.
      * intros i Hi. rewrite Hor, Hcalls, <- Nat.add_assoc. apply Hg. lia.
      * rewrite Hor, Hcalls, <- Nat.add_assoc. by replace (k1 + (j - k1)) with j by lia.
      * exists m''. unfold Heap.bind. rewrite Hc.
        split_and!; [done|done|lia|]. exists msg. congruence.
Qed.

Lemma hspec_weaken {A} (c : Heap.hproc A) m k (Q R : A -> Heap.mem -> Prop)
    (E F : nat -> Heap.mem -> Prop) :
  hspec c m k Q E ->
  (forall a m', Q a m' -> R a m') ->
  (forall j m', j < k -> E j m' -> F j m') ->
  hspec c m k R F.
Proof.
  intros [Hok Hfail] HQR HEF. split.
  - intros Hg. destruct (Hok Hg) as (a & m' & Hc & HQ & Hrest). eauto 10.
  - intros j Hj Hg Hbad.
    destruct (Hfail j Hj Hg Hbad) as (m' & Hc & HE & Hrest). eauto 10.
Qed.

Lemma hspec_pure {A} (c : Heap.hproc A) m a m' (Q : A -> Heap.mem -> Prop) E :
  c m = Heap.Done a m' ->
  Heap.m_calls m' = Heap.m_calls m -> Heap.m_oracle m' = Heap.m_oracle m ->
  Heap.m_stderr m' = Heap.m_stderr m ->
  Q a m' -> hspec c m 0 Q E.
Proof.
  intros Hc H1 H2 H3 HQ. split.
  - intros _. exists a, m'. split_and!; try done. lia.
  - intros j Hj. lia.
Qed.

Lemma hspec_ext {A} (c : Heap.hproc A) m k k' Q E :
  k = k' -> hspec c m k' Q E -> hspec c m k Q E.
Proof. by intros ->. Qed.

(** ** Sets of blocks *)

Lemma elem_of_blocks q x k : q ∈ blocks x k <-> x <= q < x + k.
Proof. unfold blocks. rewrite elem_of_list_to_set, elem_of_seq. done. Qed.

(** ** Releasing a list of blocks *)

Lemma free_all ps : forall m,
  NoDup ps -> (forall q, q ∈ ps -> q ∈ Heap.m_live m) ->
  Heap.for_each ps Heap.free m
  = Heap.Done tt (with_live m (Heap.m_live m ∖ list_to_set ps)).
Proof.
  induction ps as [|p ps IH]; intros m Hnd Hin.
  - simpl. unfold Heap.ret, with_live. destruct m. simpl. do 2 f_equal. heap_sets.
  - apply NoDup_cons in Hnd as [Hp Hnd].
    simpl. unfold Heap.bind at 1. unfold Heap.free at 1.
    destruct (decide (p ∈ Heap.m_live m)) as [_|Hn]; [|destruct Hn; apply Hin; by left].
    rewrite IH; [|done|].
    + unfold with_live. simpl. do 2 f_equal. heap_sets.
    + intros q Hq. simpl. apply elem_of_difference. split; [apply Hin; by right|].
      intros ->%elem_of_singleton. done.
Qed.

(** ** The split *)

Lemma token_loop_heap L x total tokens : forall i m,
  below x L -> in_split L x total i m -> i + length tokens <= total ->
  hspec (Heap.token_loop (x + 1) tokens) m (length tokens)
    (fun _ m' => in_split L x total (i + length tokens) m')
    (fun _ m' => Heap.m_live m' = L).
Proof.
  induction tokens as [|token tokens IH]; intros i m HL (Hn & Hl & Ha & Ht) Hlen.
  - apply (hspec_pure _ m tt m); try done.
    rewrite Nat.add_0_r. done.
  - simpl in Hlen.
    assert (Heap.token_loop (x + 1) (token :: tokens) m
            = (Heap.bind Heap.strdup (fun q =>
                 match q with
                 | None =>
                     Heap.bind (Heap.perror "strdup failed") (fun _ =>
                     Heap.bind (Heap.for_each (seq (x + 2) i) Heap.free) (fun _ =>
                     Heap.bind (Heap.free x) (fun _ =>
                     Heap.bind (Heap.free (x + 1)) (fun _ =>
                     Heap.exit EXIT_FAILURE))))
                 | Some word =>
                     Heap.bind (Heap.set_all_words (Some (x, seq (x + 2) i ++ [word])))
                       (fun _ => Heap.token_loop (x + 1) tokens)
                 end)) m) as Hbody.
    { simpl. rewrite Ha, Ht, length_seq.
      by destruct (Nat.ltb_spec i total); [|lia]. }
    destruct (Heap.m_oracle m (Heap.m_calls m)) eqn:Hor.
    + (* this [strdup] succeeds *)
      set (m2 := Heap.mk_mem (Heap.m_oracle m) (S (Heap.m_calls m)) (Heap.m_stderr m)
                   (S (Heap.m_next m)) ({[Heap.m_next m]} ∪ Heap.m_live m)
                   (Some (x, seq (x + 2) i ++ [Heap.m_next m])) (Heap.m_total_words m)).
      assert (Heap.token_loop (x + 1) (token :: tokens) m
              = Heap.token_loop (x + 1) tokens m2) as Hgo.
      { rewrite Hbody. unfold Heap.bind at 1, Heap.strdup, Heap.malloc. by rewrite Hor. }
      assert (in_split L x total (S i) m2) as Hin2.
      { unfold in_split. subst m2.
        cbn [Heap.m_next Heap.m_live Heap.m_all_words Heap.m_total_words].
        split_and!; [lia| |by rewrite seq_S, Hn|done].
        rewrite Hl, Hn. heap_sets. }
      destruct (IH (S i) m2 HL Hin2 ltac:(lia)) as [Hok Hfail].
      split.
      * intros Hg. destruct Hok as (a & m' & Hc & HQ & Hcalls & Hor' & Herr).
        { intros j Hj. subst m2. simpl. rewrite <- Nat.add_succ_r. apply Hg. simpl. lia. }
        exists a, m'. rewrite Hgo.
        split_and!; [done| |subst m2; simpl in *; lia|done|done].
        simpl. by replace (i + S (length tokens)) with (S i + length tokens) by lia.
      * intros j Hj Hg Hbad. destruct j as [|j].
        { rewrite Nat.add_0_r in Hbad. congruence. }
        destruct (Hfail j) as (m' & Hc & HE & Hcalls & msg & Hmsg).
        -- simpl in Hj. lia.
        -- intros k Hk. subst m2. simpl. rewrite <- Nat.add_succ_r. apply Hg. lia.
        -- subst m2. simpl. by rewrite <- Nat.add_succ_r.
        -- exists m'. rewrite Hgo. split_and!; [done|done|subst m2; simpl in *; lia|].
           by exists msg.
    + (* this [strdup] fails *)
      split.
      * intros Hg. specialize (Hg 0 ltac:(simpl; lia)). rewrite Nat.add_0_r in Hg.
        congruence.
      * intros j Hj Hg Hbad. destruct j as [|j].
        2:{ specialize (Hg 0 ltac:(lia)). rewrite Nat.add_0_r in Hg. congruence. }
        set (m1 := Heap.mk_mem (Heap.m_oracle m) (S (Heap.m_calls m))
                     (Heap.m_stderr m ++ ["strdup failed"%string])
                     (Heap.m_next m) (Heap.m_live m)
                     (Heap.m_all_words m) (Heap.m_total_words m)).
        exists (with_live m1 L).
        split_and!; [|done|simpl; lia|by eexists].
        rewrite Hbody. unfold Heap.bind at 1, Heap.strdup, Heap.malloc. rewrite Hor.
        unfold Heap.bind at 1, Heap.perror. simpl. fold m1.
        unfold Heap.bind at 1.
        rewrite (free_all (seq (x + 2) i) m1); [|apply NoDup_seq|].
        2:{ intros q Hq. subst m1. simpl. rewrite Hl.
            apply elem_of_union_r. by apply elem_of_list_to_set. }
        unfold Heap.bind at 1, Heap.free at 1. simpl.
        destruct (decide (x ∈ Heap.m_live m ∖ list_to_set (seq (x + 2) i))) as [_|Hn1].
        2:{ destruct Hn1. rewrite Hl. fold (blocks (x + 2) i). heap_logic. }
        unfold Heap.bind at 1, Heap.free at 1. simpl.
        destruct (decide (x + 1 ∈ Heap.m_live m ∖ list_to_set (seq (x + 2) i) ∖ {[x]}))
          as [_|Hn2].
        2:{ destruct Hn2. rewrite Hl. fold (blocks (x + 2) i). heap_logic. }
        unfold Heap.exit, with_live. simpl. do 2 f_equal.
        rewrite Hl. fold (blocks (x + 2) i). unfold below in HL.
        apply set_eq. intros q. specialize (HL q). heap_logic.
Qed.

Lemma hspec_alloc {B} (k : option nat -> Heap.hproc B) m n Q
    (E0 : Heap.mem -> Prop) (E : nat -> Heap.mem -> Prop) :
  hspec (k (Some (Heap.m_next m))) (allocated m) n Q E ->
  (exists m' msg, k None (called m) = Heap.Exited EXIT_FAILURE m' /\ E0 m'
     /\ Heap.m_calls m' = S (Heap.m_calls m)
     /\ Heap.m_stderr m' = Heap.m_stderr m ++ [msg]) ->
  hspec (Heap.bind Heap.malloc k) m (S n) Q
    (fun j m' => match j with 0 => E0 m' | S j' => E j' m' end).
Proof.
  intros [Hok Hfail] (m0 & msg0 & Hno & HE0 & Hcalls0 & Hmsg0).
  assert (Heap.m_oracle m (Heap.m_calls m) = true ->
          Heap.bind Heap.malloc k m = k (Some (Heap.m_next m)) (allocated m)) as Hyes.
  { intros Hor. unfold Heap.bind, Heap.malloc. by rewrite Hor. }
  split.
  - intros Hg. pose proof (Hg 0 ltac:(lia)) as H0. rewrite Nat.add_0_r in H0.
    destruct Hok as (a & m' & Hc & HQ & Hcalls & Hor & Herr).
    { intros j Hj. simpl. rewrite <- Nat.add_succ_r. apply Hg. lia. }
    exists a, m'. rewrite (Hyes H0). simpl in *. split_and!; try done. lia.
  - intros j Hj Hg Hbad. destruct j as [|j].
    + rewrite Nat.add_0_r in Hbad. exists m0.
      unfold Heap.bind, Heap.malloc. rewrite Hbad. fold (called m).
      split_and!; [done|done|lia|by exists msg0].
    + pose proof (Hg 0 ltac:(lia)) as H0. rewrite Nat.add_0_r in H0.
      destruct (Hfail j) as (m' & Hc & HE & Hcalls & msg & Hmsg).
      * lia.
      * intros i Hi. simpl. rewrite <- Nat.add_succ_r. apply Hg. lia.
      * simpl. by rewrite <- Nat.add_succ_r.
      * exists m'. rewrite (Hyes H0). simpl in *.
        split_and!; [done|done|lia|by exists msg].
Qed.

Lemma hspec_checked msg m :
  hspec (Heap.checked msg) m 1
    (fun _ m' => m' = called m)
    (fun _ m' => Heap.m_live m' = Heap.m_live m).
Proof.
  split.
  - intros Hg. specialize (Hg 0 ltac:(lia)). rewrite Nat.add_0_r in Hg.
    exists tt, (called m). unfold Heap.checked. rewrite Hg.
    split_and!; try done. simpl. lia.
  - intros j Hj _ Hbad. assert (j = 0) as -> by lia. rewrite Nat.add_0_r in Hbad.
    eexists. unfold Heap.checked. rewrite Hbad.
    unfold Heap.bind, Heap.perror, Heap.exit. simpl.
    split_and!; [reflexivity|done|simpl; lia|by eexists].
Qed.

Lemma hspec_skip {A B} (c : Heap.hproc A) (f : A -> Heap.hproc B) m a m1 k Q E :
  c m = Heap.Done a m1 ->
  Heap.m_calls m1 = Heap.m_calls m -> Heap.m_oracle m1 = Heap.m_oracle m ->
  Heap.m_stderr m1 = Heap.m_stderr m ->
  hspec (f a) m1 k Q E -> hspec (Heap.bind c f) m k Q E.
Proof.
  intros Hc H1 H2 H3 H. unfold hspec, hgrants, Heap.bind in *.
  rewrite Hc, <- H1, <- H2, <- H3. exact H.
Qed.

Lemma split_heap p m L x :
  Heap.m_next m = x -> Heap.m_live m = L -> below x L ->
  hspec (Heap.split_paragraph_into_words p) m (2 + length (strtok_all None p))
    (fun a m' => a = count_spaces p 0 + 1
                 /\ after_split L x (count_spaces p 0 + 1)
                      (length (strtok_all None p)) m')
    (fun _ m' => Heap.m_live m' = L).
Proof.
  intros Hn Hl HL.
  destruct (tokens_against_spaces p None) as [Hlen _].
  set (tokens := strtok_all None p) in *. set (total := count_spaces p 0 + 1) in *.
  destruct m as [oracle calls err nxt live aw tot]. simpl in Hn, Hl. subst nxt live.
  unfold Heap.split_paragraph_into_words. fold total. fold tokens.
  eapply hspec_skip; [reflexivity|done|done|done|]. cbn beta.
  eapply hspec_weaken.
  - apply (hspec_alloc _ _ (S (length tokens))
             (fun a m' => a = total /\ after_split L x total (length tokens) m')
             (fun m' => Heap.m_live m' = L)
             (fun _ m' => Heap.m_live m' = L)).
    + (* [all_words] is allocated *)
      cbn beta iota. unfold allocated. cbn [Heap.m_oracle Heap.m_calls Heap.m_stderr
        Heap.m_next Heap.m_live Heap.m_all_words Heap.m_total_words].
      eapply hspec_skip; [reflexivity|done|done|done|]. cbn beta.
      cbn [Heap.m_oracle Heap.m_calls Heap.m_stderr
        Heap.m_next Heap.m_live Heap.m_all_words Heap.m_total_words].
      eapply hspec_weaken.
      * apply (hspec_alloc _ _ (length tokens)
                 (fun a m' => a = total /\ after_split L x total (length tokens) m')
                 (fun m' => Heap.m_live m' = L)
                 (fun _ m' => Heap.m_live m' = L)).
        -- (* the copy is allocated *)
           cbn beta iota. unfold allocated. cbn [Heap.m_oracle Heap.m_calls Heap.m_stderr
             Heap.m_next Heap.m_live Heap.m_all_words Heap.m_total_words].
           set (m3 := Heap.mk_mem _ _ _ _ _ _ _).
           assert (in_split L x total 0 m3) as Hin.
           { unfold in_split. subst m3.
             cbn [Heap.m_next Heap.m_live Heap.m_all_words Heap.m_total_words].
             split_and!; [lia| |done|done]. heap_sets. }
           replace (S x) with (x + 1) by lia.
           eapply hspec_ext; [|eapply hspec_weaken].
           { instantiate (1 := length tokens + 0). lia. }
           ++ eapply hspec_bind; [by apply (token_loop_heap L x total tokens 0)|].
              intros [] m4 (Hn4 & Hl4 & Ha4 & Ht4) Hcalls4 Hor4 Herr4.
              eapply (hspec_pure _ m4 total
                        (with_live m4 (L ∪ {[x]} ∪ blocks (x + 2) (length tokens)))
                        (fun a m' => a = total
                                     /\ after_split L x total (length tokens) m')
                        (fun _ m' => Heap.m_live m' = L)).
              ** unfold Heap.bind, Heap.free.
                 destruct (decide (x + 1 ∈ Heap.m_live m4)) as [_|Hno].
                 2:{ destruct Hno. rewrite Hl4.
                     heap_logic. }
                 unfold Heap.ret, with_live. do 2 f_equal. rewrite Hl4.
                 apply set_eq. intros q. specialize (HL q). heap_logic.
              ** done.
              ** done.
              ** done.
              ** split; [done|]. unfold after_split, with_live. simpl.
                 rewrite Nat.add_0_l in Hn4. done.
           ++ intros a m' HQ. exact HQ.
           ++ intros j m' Hj HE. cbn beta in HE.
              destruct (decide (j < length tokens)); done.
        -- (* the copy is not allocated *)
           eexists _, "strdup failed"%string. cbn beta iota.
           unfold called. cbn [Heap.m_oracle Heap.m_calls Heap.m_stderr
             Heap.m_next Heap.m_live Heap.m_all_words Heap.m_total_words].
           unfold Heap.bind at 1, Heap.perror at 1. unfold Heap.bind at 1, Heap.free at 1.
           cbn [Heap.m_live].
           destruct (decide (x ∈ {[x]} ∪ L)) as [_|Hno].
           2:{ destruct Hno. apply elem_of_union_l. by apply elem_of_singleton. }
           unfold Heap.exit. split_and!; [reflexivity| |done|done].
           cbn [Heap.m_live]. apply set_eq. intros q. specialize (HL q). heap_logic.
      * intros a m' HQ. exact HQ.
      * intros j m' Hj HE. by destruct j.
    + (* [all_words] is not allocated *)
      eexists _, "malloc failed"%string. cbn beta iota.
      unfold Heap.bind, Heap.perror, Heap.exit.
      split_and!; [reflexivity|done|done|done].
  - intros a m' HQ. exact HQ.
  - intros j m' _ HE. by destruct j.
Qed.

(** ** The ring and the threads *)

Lemma checked_loop_heap {A} msg (l : list A) : forall m,
  hspec (Heap.for_each l (fun _ => Heap.checked msg)) m (length l)
    (fun _ m' => same_heap m m')
    (fun _ m' => Heap.m_live m' = Heap.m_live m).
Proof.
  induction l as [|x l IH]; intros m.
  - by apply (hspec_pure _ m tt m).
  - simpl. eapply (hspec_ext _ _ _ (1 + length l)); [done|].
    eapply hspec_weaken.
    + eapply hspec_bind; [apply hspec_checked|].
      intros [] m1 -> _ _ _. apply IH.
    + intros [] m' (H1 & H2 & H3 & H4). by split_and!.
    + intros j m' Hj HE. cbn beta in HE. by destruct (decide (j < 1)).
Qed.

Lemma init_semaphores_heap n m :
  hspec (Heap.init_semaphores n) m n
    (fun _ m' => same_heap m m')
    (fun _ m' => Heap.m_live m' = Heap.m_live m).
Proof.
  unfold Heap.init_semaphores.
  eapply hspec_ext; [|apply checked_loop_heap]. by rewrite length_seq.
Qed.

Lemma reset_semaphores_heap n m :
  hspec (Heap.reset_semaphores n) m n
    (fun _ m' => same_heap m m')
    (fun _ m' => Heap.m_live m' = Heap.m_live m).
Proof.
  unfold Heap.reset_semaphores.
  eapply hspec_skip; [reflexivity|done..|]. apply init_semaphores_heap.
Qed.

Lemma create_loop_heap n : forall m,
  hspec (Heap.create_loop n) m (2 * n)
    (fun arrays m' =>
       arrays = seq (Heap.m_next m) n
       /\ Heap.m_next m' = Heap.m_next m + n
       /\ Heap.m_live m' = Heap.m_live m ∪ blocks (Heap.m_next m) n
       /\ Heap.m_all_words m' = Heap.m_all_words m
       /\ Heap.m_total_words m' = Heap.m_total_words m)
    (fun _ m' => Heap.m_live m ⊆ Heap.m_live m').
Proof.
  induction n as [|n IH]; intros m.
  - apply (hspec_pure _ m [] m); try done.
    split_and!; try done; try lia. heap_sets.
  - simpl Heap.create_loop.
    eapply (hspec_ext _ _ _ (S (1 + 2 * n))); [lia|].
    eapply hspec_weaken.
    + apply (hspec_alloc _ _ (1 + 2 * n)
               (fun arrays m' =>
                  arrays = seq (Heap.m_next m) (S n)
                  /\ Heap.m_next m' = Heap.m_next m + S n
                  /\ Heap.m_live m' = Heap.m_live m ∪ blocks (Heap.m_next m) (S n)
                  /\ Heap.m_all_words m' = Heap.m_all_words m
                  /\ Heap.m_total_words m' = Heap.m_total_words m)
               (fun m' => Heap.m_live m ⊆ Heap.m_live m')
               (fun _ m' => Heap.m_live m ⊆ Heap.m_live m')).
      * cbn beta iota. eapply hspec_weaken.
        -- eapply hspec_bind; [apply hspec_checked|].
           intros [] m1 -> _ _ _.
           eapply (hspec_ext _ _ _ (2 * n + 0)); [lia|].
           eapply hspec_bind; [apply IH|].
           intros rest m2 HQ _ _ _.
           apply (hspec_pure _ m2 (Heap.m_next m :: rest) m2
                    (fun arrays m' =>
                       arrays = seq (Heap.m_next m) (S n)
                       /\ Heap.m_next m' = S (Heap.m_next m) + n
                       /\ Heap.m_live m'
                          = {[Heap.m_next m]} ∪ Heap.m_live m ∪ blocks (S (Heap.m_next m)) n
                       /\ Heap.m_all_words m' = Heap.m_all_words m
                       /\ Heap.m_total_words m' = Heap.m_total_words m)
                    (fun _ m' => {[Heap.m_next m]} ∪ Heap.m_live m ⊆ Heap.m_live m'));
             try done.
           destruct HQ as (-> & H2 & H3 & H4 & H5). by split_and!.
        -- intros arrays m' (-> & H2 & H3 & H4 & H5).
           split_and!; [done|lia| |done|done].
           rewrite H3. heap_sets.
        -- intros j m' Hj HE. cbn beta in HE.
           destruct (decide (j < 1)) as [|Hj1].
           ++ unfold called, allocated in HE. simpl in HE. rewrite HE.
              apply union_subseteq_r.
           ++ destruct (decide (j - 1 < 2 * n)); [|lia].
              unfold called, allocated in HE. simpl in HE.
              etransitivity; [apply union_subseteq_r|exact HE].
      * eexists _, "malloc failed"%string. cbn beta iota.
        unfold Heap.bind, Heap.perror, Heap.exit.
        split_and!; [reflexivity|done|done|done].
    + intros a m' HQ. exact HQ.
    + intros j m' _ HE. by destruct j.
Qed.

Lemma print_paragraph_heap n m :
  below (Heap.m_next m) (Heap.m_live m) ->
  hspec (Heap.print_paragraph n) m (2 * n)
    (fun _ m' =>
       Heap.m_next m' = Heap.m_next m + n
       /\ Heap.m_live m' = Heap.m_live m
       /\ Heap.m_all_words m' = Heap.m_all_words m
       /\ Heap.m_total_words m' = Heap.m_total_words m)
    (fun _ m' => Heap.m_live m ⊆ Heap.m_live m').
Proof.
  intros HL. unfold Heap.print_paragraph.
  eapply (hspec_ext _ _ _ (2 * n + 0)); [lia|].
  eapply hspec_weaken.
  - eapply hspec_bind; [apply create_loop_heap|].
    intros arrays m1 (-> & H2 & H3 & H4 & H5) _ _ _.
    eapply (hspec_pure _ m1 tt (with_live m1 (Heap.m_live m))
              (fun _ m' =>
                 Heap.m_next m' = Heap.m_next m + n
                 /\ Heap.m_live m' = Heap.m_live m
                 /\ Heap.m_all_words m' = Heap.m_all_words m
                 /\ Heap.m_total_words m' = Heap.m_total_words m)
              (fun _ m' => Heap.m_live m ⊆ Heap.m_live m')); try done.
    rewrite free_all; [|apply NoDup_seq|].
    + unfold with_live. do 2 f_equal. rewrite H3. fold (blocks (Heap.m_next m) n).
      apply set_eq. intros q. specialize (HL q). heap_logic.
    + intros q Hq. rewrite H3. apply elem_of_union_r. by apply elem_of_list_to_set.
  - intros a m' HQ. exact HQ.
  - intros j m' Hj HE. cbn beta in HE. by destruct (decide (j < 2 * n)).
Qed.

(** ** [free_words] *)

Lemma for_each_entries (entries : list nat) : forall pre m,
  Heap.for_each (seq (length pre) (length entries))
    (fun i => match (pre ++ entries) !! i with
              | Some word => Heap.free word
              | None => Heap.fault
              end) m
  = Heap.for_each entries Heap.free m.
Proof.
  induction entries as [|e entries IH]; intros pre m; [done|].
  simpl. unfold Heap.bind.
  rewrite (list_lookup_middle pre entries e (length pre) eq_refl).
  destruct (Heap.free e m) as [[] m1|st m1|m1]; [|done..].
  specialize (IH (pre ++ [e]) m1). rewrite length_app, <- app_assoc in IH. simpl in IH.
  by rewrite Nat.add_1_r in IH.
Qed.

Lemma free_words_heap m a entries :
  Heap.m_all_words m = Some (a, entries) ->
  length entries = Heap.m_total_words m ->
  NoDup (a :: entries) -> (forall q, q ∈ a :: entries -> q ∈ Heap.m_live m) ->
  Heap.free_words m
  = Heap.Done tt (Heap.mk_mem (Heap.m_oracle m) (Heap.m_calls m) (Heap.m_stderr m)
                    (Heap.m_next m) (Heap.m_live m ∖ list_to_set (a :: entries))
                    None (Heap.m_total_words m)).
Proof.
  intros Ha Hlen Hnd Hin. apply NoDup_cons in Hnd as [Hna Hnd].
  unfold Heap.free_words. rewrite Ha, <- Hlen.
  unfold Heap.bind at 1.
  pose proof (for_each_entries entries [] m) as Hloop. simpl in Hloop.
  rewrite Hloop. clear Hloop.
  rewrite free_all; [|done|intros q Hq; apply Hin; by right].
  unfold Heap.bind at 1, Heap.free. simpl.
  destruct (decide (a ∈ Heap.m_live m ∖ list_to_set entries)) as [_|Hno].
  2:{ destruct Hno. apply elem_of_difference. split; [apply Hin; by left|].
      by rewrite elem_of_list_to_set. }
  unfold Heap.set_all_words. simpl. rewrite Hlen. do 2 f_equal. heap_sets.
Qed.

(** ** [main] *)

Lemma hspec_then {A B} (c : Heap.hproc A) (f : A -> Heap.hproc B) m k1 k2 Q R
    (held : gset nat) :
  hspec c m k1 Q (fun _ m' => held ⊆ Heap.m_live m') ->
  (forall a m', Q a m' ->
     hspec (f a) m' k2 R (fun _ m' => held ⊆ Heap.m_live m')) ->
  hspec (Heap.bind c f) m (k1 + k2) R (fun _ m' => held ⊆ Heap.m_live m').
Proof.
  intros Hc Hf. eapply hspec_weaken.
  - eapply hspec_bind; [exact Hc|]. intros a m' HQ _ _ _. by apply Hf.
  - intros a m' HR. exact HR.
  - intros j m' _ HE. cbn beta in HE. by destruct (decide (j < k1)).
Qed.

Lemma hspec_keeps {A} (c : Heap.hproc A) m k Q (held : gset nat) :
  hspec c m k Q (fun _ m' => Heap.m_live m' = Heap.m_live m) ->
  Heap.m_live m = held ->
  hspec c m k Q (fun _ m' => held ⊆ Heap.m_live m').
Proof.
  intros H Hl. eapply hspec_weaken; [exact H|done|].
  intros j m' _ HE. cbn beta in HE. by rewrite HE, Hl.
Qed.

Lemma hspec_holds {A} (c : Heap.hproc A) m k Q (held : gset nat) :
  hspec c m k Q (fun _ m' => Heap.m_live m ⊆ Heap.m_live m') ->
  Heap.m_live m = held ->
  hspec c m k Q (fun _ m' => held ⊆ Heap.m_live m').
Proof.
  intros H Hl. eapply hspec_weaken; [exact H|done|].
  intros j m' _ HE. cbn beta in HE. by rewrite <- Hl.
Qed.

Lemma main_heap p n oracle :
  single_spaced p = true ->
  hspec (Heap.main p n) (Heap.boot oracle) (2 + length (strtok_all None p) + 6 * n)
    (fun a m' => a = 0%Z /\ Heap.m_live m' = ∅ /\ Heap.m_all_words m' = None
                 /\ Heap.m_next m' = 2 + length (strtok_all None p) + 2 * n)
    (fun j m' => if decide (j < 2 + length (strtok_all None p))
                 then Heap.m_live m' = ∅
                 else {[0]} ∪ blocks 2 (length (strtok_all None p)) ⊆ Heap.m_live m').
Proof.
  intros Hss.
  destruct (tokens_against_spaces p None) as [_ Hiff].
  apply Hiff in Hss. clear Hiff.
  set (T := length (strtok_all None p)) in *.
  set (held := ({[0]} ∪ blocks 2 T : gset nat)).
  assert (below (2 + T) held) as Hheld.
  { intros q. subst held. rewrite elem_of_union, elem_of_singleton, elem_of_blocks. lia. }
  unfold Heap.main.
  eapply (hspec_ext _ _ _ ((2 + T) + (n + (2 * n + (n + (2 * n + 0)))))); [lia|].
  eapply (hspec_bind _ _ _ _ _ _ _ _ (fun _ m' => held ⊆ Heap.m_live m')).
  { apply (split_heap p (Heap.boot oracle) ∅ 0); [done|done|].
    intros q Hq. by apply elem_of_empty in Hq. }
  intros a1 m1 (_ & Hn1 & Hl1 & Ha1 & Ht1) _ _ _. fold T in Hn1, Hl1, Ha1, Ht1.
  change (0 + 2) with 2 in Hn1, Hl1, Ha1.
  assert (Heap.m_live m1 = held) as Hl1' by (rewrite Hl1; subst held; heap_sets).
  eapply hspec_then; [by apply hspec_keeps; [apply init_semaphores_heap|]|].
  intros [] m2 (Hn2 & Hl2 & Ha2 & Ht2).
  eapply hspec_then.
  { apply hspec_holds; [|congruence].
    apply print_paragraph_heap. rewrite Hn2, Hl2, Hn1, Hl1'. exact Hheld. }
  intros [] m3 (Hn3 & Hl3 & Ha3 & Ht3).
  eapply hspec_then; [apply hspec_keeps; [apply reset_semaphores_heap|congruence]|].
  intros [] m4 (Hn4 & Hl4 & Ha4 & Ht4).
  eapply hspec_then.
  { apply hspec_holds; [|congruence].
    apply print_paragraph_heap. rewrite Hn4, Hl4, Hn3, Hl3, Hn2, Hl2, Hn1, Hl1'.
    intros q Hq. specialize (Hheld q Hq). lia. }
  intros [] m5 (Hn5 & Hl5 & Ha5 & Ht5).
  eapply hspec_skip; [reflexivity|done..|]. cbn beta.
  assert (Heap.m_all_words m5 = Some (0, seq 2 T)) as Ha by congruence.
  assert (Heap.m_total_words m5 = count_spaces p 0 + 1) as Ht by congruence.
  assert (Heap.m_live m5 = held) as Hl by congruence.
  eapply hspec_skip.
  { apply (free_words_heap m5 0 (seq 2 T)); [done|by rewrite length_seq, Ht| |].
    - apply NoDup_cons. split; [|apply NoDup_seq].
      rewrite elem_of_seq. lia.
    - intros q Hq. rewrite Hl. subst held. apply elem_of_cons in Hq as [->|Hq].
      + apply elem_of_union_l. by apply elem_of_singleton.
      + apply elem_of_union_r. by apply elem_of_list_to_set. }
  { done. } { done. } { done. }
  cbn beta.
  eapply (hspec_pure _ _ 0%Z); [reflexivity|done..|].
  simpl. split_and!; [done| |done|lia].
  rewrite Hl. subst held. heap_sets.
Qed.

Lemma boot_hgrants oracle k :
  (forall j, j < k -> oracle j = true) -> hgrants (Heap.boot oracle) k.
Proof. intros H j Hj. simpl. by apply H. Qed.

(** X16. No leak, no double free.  For every single-spaced text and every
    N, when no call fails: the main thread runs to the end of [main]
    without ever passing to [free] an address that is not a live block,
    it returns 0, and at that point every block that [malloc] and
    [strdup] have handed out ([all_words], the copy of the paragraph, one
    copy per word, one array per thread and run) has been released and
    [all_words] is [NULL]. *)
Theorem main_releases_everything (p : string) (n : nat) (oracle : nat -> bool) :
  single_spaced p = true ->
  (forall j, j < 2 + length (strtok_all None p) + 6 * n -> oracle j = true) ->
  exists m, Heap.main p n (Heap.boot oracle) = Heap.Done 0%Z m
    /\ Heap.m_live m = ∅
    /\ Heap.m_all_words m = None
    /\ Heap.m_next m = 2 + length (strtok_all None p) + 2 * n
    /\ Heap.m_calls m = 2 + length (strtok_all None p) + 6 * n
    /\ Heap.m_stderr m = [].
Proof.
  intros Hss Hgrant.
  destruct (main_heap p n oracle Hss) as [Hok _].
  destruct (Hok (boot_hgrants oracle _ Hgrant))
    as (a & m & Hc & (-> & Hl & Ha & Hn) & Hcalls & _ & Herr).
  exists m. by split_and!.
Qed.

Lemma main_releases_everything_witness :
  exists m, Heap.main paragraph 5 (Heap.boot (fun _ => true)) = Heap.Done 0%Z m
    /\ Heap.m_live m = ∅
    /\ Heap.m_all_words m = None
    /\ Heap.m_next m = 2 + length (strtok_all None paragraph) + 2 * 5
    /\ Heap.m_calls m = 2 + length (strtok_all None paragraph) + 6 * 5
    /\ Heap.m_stderr m = [].
Proof.
  apply (main_releases_everything paragraph 5 (fun _ => true)).
  - vm_compute. reflexivity.
  - intros j Hj. reflexivity.
Defined.

(** X17. The cleanup of [split_paragraph_into_words] is complete.  For
    every text and every N: if the first call to fail is the [malloc] of
    [all_words], the [strdup] of the paragraph or the [strdup] of a
    word, the process exits with [EXIT_FAILURE] right after that call
    with no block left allocated: the words copied so far, [all_words]
    and the copy of the paragraph have all been released, each once. *)
Theorem failed_split_releases_everything (p : string) (n : nat)
    (oracle : nat -> bool) (j : nat) :
  j < 2 + length (strtok_all None p) -> fails_first_at oracle j ->
  exists m, Heap.main p n (Heap.boot oracle) = Heap.Exited EXIT_FAILURE m
    /\ Heap.m_live m = ∅
    /\ Heap.m_calls m = S j
    /\ exists msg, Heap.m_stderr m = [msg].
Proof.
  intros Hj [Hbefore Hbad].
  destruct (split_heap p (Heap.boot oracle) ∅ 0) as [_ Hfail]; [done|done| |].
  { intros q Hq. by apply elem_of_empty in Hq. }
  destruct (Hfail j Hj (boot_hgrants oracle j Hbefore) Hbad)
    as (m & Hc & Hl & Hcalls & msg & Hmsg).
  exists m. split_and!; [|done|done|by exists msg].
  unfold Heap.main. unfold Heap.bind at 1. by rewrite Hc.
Qed.

Lemma failed_split_releases_everything_witness :
  exists m, Heap.main paragraph 5 (Heap.boot (fun j => negb (j =? 20)))
            = Heap.Exited EXIT_FAILURE m
    /\ Heap.m_live m = ∅
    /\ Heap.m_calls m = 21
    /\ exists msg, Heap.m_stderr m = [msg].
Proof.
  apply (failed_split_releases_everything paragraph 5 (fun j => negb (j =? 20)) 20).
  - vm_compute. lia.
  - split; [|reflexivity].
    intros i Hi. simpl. destruct (Nat.eqb_spec i 20); [lia|reflexivity].
Defined.

(** X18. Later failures exit without cleanup.  For every single-spaced
    text and every N: if the first call to fail comes after the split (a
    [sem_init], the [malloc] of a thread's array or a [pthread_create]),
    the process exits with [EXIT_FAILURE] right after that call while
    [all_words] (block 0) and the copy of every word (blocks 2, 3, ...)
    are still allocated: on these paths the code calls [exit] without
    [free_words]. *)
Theorem late_failure_exits_without_release (p : string) (n : nat)
    (oracle : nat -> bool) (j : nat) :
  single_spaced p = true ->
  2 + length (strtok_all None p) <= j < 2 + length (strtok_all None p) + 6 * n ->
  fails_first_at oracle j ->
  exists m, Heap.main p n (Heap.boot oracle) = Heap.Exited EXIT_FAILURE m
    /\ 0 ∈ Heap.m_live m
    /\ (forall i, i < length (strtok_all None p) -> 2 + i ∈ Heap.m_live m)
    /\ Heap.m_calls m = S j.
Proof.
  intros Hss [Hge Hlt] [Hbefore Hbad].
  destruct (main_heap p n oracle Hss) as [_ Hfail].
  destruct (Hfail j Hlt (boot_hgrants oracle j Hbefore) Hbad)
    as (m & Hc & HE & Hcalls & _).
  destruct (decide (j < 2 + length (strtok_all None p))) as [|_]; [lia|].
  exists m. split_and!; [done| | |done].
  - apply HE. apply elem_of_union_l. by apply elem_of_singleton.
  - intros i Hi. apply HE. apply elem_of_union_r. apply elem_of_blocks. lia.
Qed.

Lemma late_failure_exits_without_release_witness :
  exists m, Heap.main paragraph 5 (Heap.boot (fun j => negb (j =? 52)))
            = Heap.Exited EXIT_FAILURE m
    /\ 0 ∈ Heap.m_live m
    /\ (forall i, i < length (strtok_all None paragraph) -> 2 + i ∈ Heap.m_live m)
    /\ Heap.m_calls m = 53.
Proof.
  apply (late_failure_exits_without_release paragraph 5 (fun j => negb (j =? 52)) 52).
  - vm_compute. reflexivity.
  - vm_compute. lia.
  - split; [|reflexivity].
    intros i Hi. simpl. destruct (Nat.eqb_spec i 52); [lia|reflexivity].
Defined.

(** X19. [free_words] never exits the process; when it returns,
    [all_words] is [NULL], and a second call then returns at once
    without releasing anything: the test [all_words != NULL] and the
    assignment [all_words = NULL] make it safe to call twice.  Called
    while [all_words] is [NULL] (before the split) it does nothing. *)
Theorem free_words_idempotent (m : Heap.mem) :
  match Heap.free_words m with
  | Heap.Done _ m' =>
      Heap.m_all_words m' = None /\ Heap.free_words m' = Heap.Done tt m'
  | Heap.Exited _ _ => False
  | Heap.Fault _ => True
  end
  /\ (Heap.m_all_words m = None -> Heap.free_words m = Heap.Done tt m).
Proof.
  assert (forall {A} (l : list A) (body : A -> Heap.hproc unit) m0,
            (forall x m1 st m2, body x m1 <> Heap.Exited st m2) ->
            forall st m2, Heap.for_each l body m0 <> Heap.Exited st m2) as Hloop.
  { intros A l body m0 Hbody. revert m0.
    induction l as [|x l IH]; intros m0 st m2; [done|].
    simpl. unfold Heap.bind. destruct (body x m0) as [[] m1|st1 m1|m1] eqn:Hb; [|by destruct (Hbody x m0 st1 m1)|done].
    apply IH. }
  split.
  - unfold Heap.free_words at 1. destruct (Heap.m_all_words m) as [[a entries]|] eqn:Ha.
    + unfold Heap.bind.
      destruct (Heap.for_each _ _ m) as [[] m1|st m1|m1] eqn:H1.
      * unfold Heap.free. destruct (decide (a ∈ Heap.m_live m1)); [|done].
        unfold Heap.set_all_words. simpl. split; [done|].
        unfold Heap.free_words. done.
      * eapply Hloop; [|exact H1]. intros i m0 st0 m2. unfold Heap.free, Heap.fault.
        destruct (entries !! i); [|done]. by destruct (decide (_ ∈ _)).
      * done.
    + split; [done|]. unfold Heap.free_words. by rewrite Ha.
  - intros Ha. unfold Heap.free_words. by rewrite Ha.
Qed.

(** * The delay *)

(** X20. For every value that [rand()] can return (from 0 to [RAND_MAX],
    which is at most [INT_MAX]) the delay passed to [usleep] before a
    word is printed lies between 10000 and 100000 microseconds, the
    10 to 100 ms of the comment, and is a multiple of 1000; so the
    computation does not overflow an [int].  Both ends are reached. *)
Theorem delay_bounds (r : Z) :
  (0 <= r <= INT_MAX)%Z ->
  (10000 <= delay_us r <= 100000)%Z
  /\ (delay_us r <= INT_MAX)%Z
  /\ (exists ms, (10 <= ms <= 100)%Z /\ delay_us r = (ms * 1000)%Z)
  /\ delay_us 0 = 10000%Z /\ delay_us 90 = 100000%Z.
Proof.
  intros [Hr _]. unfold delay_us, INT_MAX.
  pose proof (Z.rem_bound_pos r 91 Hr ltac:(lia)) as Hrem.
  repeat split; try lia.
  exists (Z.rem r 91 + 10)%Z. split; [lia|reflexivity].
Qed.

Lemma delay_bounds_witness :
  (10000 <= delay_us 12345 <= 100000)%Z
  /\ (delay_us 12345 <= INT_MAX)%Z
  /\ (exists ms, (10 <= ms <= 100)%Z /\ delay_us 12345 = (ms * 1000)%Z)
  /\ delay_us 0 = 10000%Z /\ delay_us 90 = 100000%Z.
Proof.
  apply (delay_bounds 12345). unfold INT_MAX. lia.
Defined.
